(** * A growable array over raw storage: the model of [RawMemory<T>] and
      [Vector<T>], and the properties of their specification.

    The repository holds two drafts of the same header:
    - [src/advanced-vector/vector.h]  (module [VectorH] below), and
    - [src/unnamed/part_000]          (module [Part000] below).
    The members the two drafts share word for word live in [RawMem] and
    [Vec]; the members that differ are embedded once per draft.

    The embedding is a state-and-exception monad over
    - a heap of raw blocks (a block is a list of slots, a slot is either
      uninitialised or holds a live [T]),
    - a store of objects with identity (needed for [this != &rhs]), and
    - a trace of the allocations, constructions, assignments and
      destructions performed so far. *)

From Stdlib Require Import ZArith Lia.
From stdpp Require Import base option list gmap.

#[local] Open Scope Z_scope.

(* ===================================================================== *)
(** * [size_t] arithmetic *)
(* ===================================================================== *)

(** [size_t] is a 64-bit unsigned integer: a [Z] in [0, 2^64) whose
    arithmetic wraps around. *)
Definition size_mod : Z := 2 ^ 64.

Definition wrap (z : Z) : Z := z mod size_mod.

(** [PTRDIFF_MAX]: no object (hence no block handed out by [operator new])
    is larger than this many bytes, and [sizeof(T) >= 1]. *)
Definition PTRDIFF_MAX : Z := 2 ^ 63 - 1.

(* ===================================================================== *)
(** * The element type [T] *)
(* ===================================================================== *)

(** What the container knows about [T] statically ([sizeof(T)] and the two
    type traits it tests with [if constexpr]) and what the special members
    of [T] do to values: a copy and a move both give the destination the
    value of the source, a move leaves [moved_from v] behind in the source,
    and [T()] yields [value_init]. *)
Class Element (T : Type) := {
  sizeof : Z;
  is_nothrow_move_constructible : bool;
  is_copy_constructible : bool;
  value_init : T;
  moved_from : T -> T;
  sizeof_range : 1 <= sizeof <= PTRDIFF_MAX;
}.

(** The operations of [T] that may throw. *)
Inductive ElemOp (T : Type) : Type :=
| OpValueInit                      (* T()                              *)
| OpCopyCtor (src : T)             (* T(const T&)                      *)
| OpMoveCtor (src : T)             (* T(T&&)                           *)
| OpArgsCtor (v : T)               (* T(args...) building the value v  *)
| OpCopyAssign (dst src : T)       (* dst = src                        *)
| OpMoveAssign (dst src : T).      (* dst = std::move(src)             *)
Arguments OpValueInit {T}.
Arguments OpCopyCtor {T} src.
Arguments OpMoveCtor {T} src.
Arguments OpArgsCtor {T} v.
Arguments OpCopyAssign {T} dst src.
Arguments OpMoveAssign {T} dst src.

(** Addresses of raw blocks and of objects. *)
Definition addr := nat.
Definition loc := nat.

(** What has happened so far, oldest event first. *)
Inductive Event (T : Type) : Type :=
| EvAllocate (n : Z) (a : addr)            (* operator new returned block a, which has
                                              room for n objects of type T             *)
| EvDeallocate (a : addr) (live : list T)  (* operator delete(a); [live] are the objects
                                              still alive in the block at that moment  *)
| EvConstruct (op : ElemOp T) (v : T)      (* a constructor of T completed, giving v   *)
| EvAssign (op : ElemOp T) (v : T)         (* an assignment completed, the target is v *)
| EvDestroy (v : T).                       (* ~T() ran on an object of value v         *)
Arguments EvAllocate {T} n a.
Arguments EvDeallocate {T} a live.
Arguments EvConstruct {T} op v.
Arguments EvAssign {T} op v.
Arguments EvDestroy {T} v.

(** The environment decides, from what has happened so far, whether the
    next operation of [T] throws and whether the next [operator new] throws
    [std::bad_alloc]. Every theorem below holds for every environment unless it
    says otherwise. *)
Class Faults (T : Type) := {
  elem_throws : list (Event T) -> ElemOp T -> bool;
  alloc_throws : list (Event T) -> Z -> bool;
}.

(** A [T*]: a block (or none, for a pointer derived from [nullptr]) and an
    offset counted in elements. *)
Record Ptr := { p_base : option addr; p_off : Z }.

Definition ptr_add (p : Ptr) (k : Z) : Ptr :=
  {| p_base := p_base p; p_off := p_off p + k |}.

(** [class RawMemory]: the data members. [buffer_ = None] is [nullptr]. *)
Record RawMemory := { buffer_ : option addr; capacity_ : Z }.

(** [class Vector]: the data members. *)
Record Vector := { data_ : RawMemory; size_ : Z }.

(* ===================================================================== *)
(** * The machine: state, outcomes, the monad *)
(* ===================================================================== *)

Section Machine.
Context {T : Type} {O : Type}.

(** [O] is the class of the objects that have identity in the program at
    hand ([RawMemory] or [Vector]). *)
Record State := {
  heap : gmap addr (list (option T));
  objs : gmap loc O;
  trace : list (Event T);
}.

Inductive Result (A : Type) : Type :=
| Ok (a : A) (s : State)   (* normal completion                                 *)
| Throw (s : State)        (* an exception propagates out; s is the state left  *)
| Abort                    (* an assert() failed                                *)
| Undefined.               (* undefined behaviour                               *)

Definition M (A : Type) : Type := State -> Result A.
End Machine.

Arguments State : clear implicits.
Arguments Result : clear implicits.
Arguments M : clear implicits.
Arguments Ok {T O A} a s.
Arguments Throw {T O A} s.
Arguments Abort {T O A}.
Arguments Undefined {T O A}.

Section Monad.
Context {T : Type} {O : Type}.
#[local] Abbreviation M := (M T O).

Definition ret {A} (a : A) : M A := fun s => Ok a s.

Definition bind {A B} (m : M A) (k : A -> M B) : M B := fun s =>
  match m s with
  | Ok a s' => k a s'
  | Throw s' => Throw s'
  | Abort => Abort
  | Undefined => Undefined
  end.

Definition throw {A} : M A := fun s => Throw s.
Definition undefined {A} : M A := fun _ => Undefined.

(** [assert(c)]. *)
Definition assert (c : bool) : M unit := fun s => if c then Ok tt s else Abort.

(** [try { m } catch (...) { h; throw; }]; also what a local object's
    destructor [h] does when an exception leaves its scope. *)
Definition on_unwind {A} (m : M A) (h : M unit) : M A := fun s =>
  match m s with
  | Throw s' =>
      match h s' with
      | Ok _ s'' => Throw s''
      | Throw s'' => Throw s''
      | Abort => Abort
      | Undefined => Undefined
      end
  | r => r
  end.

Definition emit (e : Event T) : M unit := fun s =>
  Ok tt {| heap := heap s; objs := objs s; trace := trace s ++ [e] |}.

Definition get_heap : M (gmap addr (list (option T))) := fun s => Ok (heap s) s.

Definition put_heap (h : gmap addr (list (option T))) : M unit := fun s =>
  Ok tt {| heap := h; objs := objs s; trace := trace s |}.

(** The object at [l]; using a location that holds no object is undefined. *)
Definition get_obj (l : loc) : M O := fun s =>
  match objs s !! l with
  | Some o => Ok o s
  | None => Undefined
  end.

Definition put_obj (l : loc) (o : O) : M unit := fun s =>
  Ok tt {| heap := heap s; objs := <[l := o]> (objs s); trace := trace s |}.

(** A new object (a local variable, a temporary) gets a location of its own. *)
Definition new_obj (o : O) : M loc := fun s =>
  let l := fresh (dom (objs s)) in
  Ok l {| heap := heap s; objs := <[l := o]> (objs s); trace := trace s |}.

(** The end of an object's lifetime, after its destructor has run. *)
Definition drop_obj (l : loc) : M unit := fun s =>
  Ok tt {| heap := heap s; objs := delete l (objs s); trace := trace s |}.
End Monad.

#[global] Instance M_ret {T O} : MRet (M T O) := fun A a => ret a.
#[global] Instance M_bind {T O} : MBind (M T O) := fun A B k m => bind m k.

(* ===================================================================== *)
(** * Objects of type [T] in raw storage *)
(* ===================================================================== *)

(** The arguments of a constructor call [T(args...)]. *)
Inductive Args (T : Type) : Type :=
| Lvalue (v : T)     (* one [const T&]: the copy constructor runs      *)
| Rvalue (v : T)     (* one [T&&]: the move constructor runs           *)
| Values (v : T).    (* anything else; the object built has value [v]  *)
Arguments Lvalue {T} v.
Arguments Rvalue {T} v.
Arguments Values {T} v.

Definition ctor_of {T} (args : Args T) : ElemOp T :=
  match args with
  | Lvalue v => OpCopyCtor v
  | Rvalue v => OpMoveCtor v
  | Values v => OpArgsCtor v
  end.

Section Elements.
Context {T : Type} `{!Element T} `{!Faults T} {O : Type}.
#[local] Abbreviation M := (M T O).

(** Does [op] throw now? A [noexcept] move constructor never does. *)
Definition throws_now (tr : list (Event T)) (op : ElemOp T) : bool :=
  match op with
  | OpMoveCtor _ =>
      if is_nothrow_move_constructible then false else elem_throws tr op
  | _ => elem_throws tr op
  end.

(** The value a constructor or an assignment gives its target. *)
Definition op_value (op : ElemOp T) : T :=
  match op with
  | OpValueInit => value_init
  | OpCopyCtor v | OpMoveCtor v | OpArgsCtor v => v
  | OpCopyAssign _ v | OpMoveAssign _ v => v
  end.

(** The slot [p] designates, if [p] points into a block of the heap. *)
Definition slot_at (h : gmap addr (list (option T))) (p : Ptr) : option (option T) :=
  match p_base p with
  | Some a =>
      match h !! a with
      | Some blk => if 0 <=? p_off p then blk !! Z.to_nat (p_off p) else None
      | None => None
      end
  | None => None
  end.

Definition read_slot (p : Ptr) : M (option T) := fun s =>
  match slot_at (heap s) p with
  | Some sl => Ok sl s
  | None => Undefined
  end.

(** The heap after the slot [p] designates has been set to [x]. *)
Definition set_slot (h : gmap addr (list (option T))) (p : Ptr) (x : option T)
  : option (gmap addr (list (option T))) :=
  match p_base p with
  | Some a =>
      match h !! a with
      | Some blk =>
          if (0 <=? p_off p) && (p_off p <? Z.of_nat (length blk))
          then Some (<[a := <[Z.to_nat (p_off p) := x]> blk]> h)
          else None
      | None => None
      end
  | None => None
  end.

Definition write_slot (p : Ptr) (x : option T) : M unit := fun s =>
  match set_slot (heap s) p x with
  | Some h => Ok tt {| heap := h; objs := objs s; trace := trace s |}
  | None => Undefined
  end.

(** [*p] read as a value: there must be a live object at [p]. *)
Definition load (p : Ptr) : M T :=
  sl ← read_slot p;
  match sl with
  | Some v => mret v
  | None => undefined
  end.

(** One constructor call; it throws or yields the value built. *)
Definition construct (op : ElemOp T) : M T := fun s =>
  if throws_now (trace s) op then Throw s
  else Ok (op_value op)
          {| heap := heap s; objs := objs s;
             trace := trace s ++ [EvConstruct op (op_value op)] |}.

(** One assignment call; it throws or completes. *)
Definition assign (op : ElemOp T) : M unit := fun s =>
  if throws_now (trace s) op then Throw s
  else Ok tt {| heap := heap s; objs := objs s;
                trace := trace s ++ [EvAssign op (op_value op)] |}.

(** [new (p) T(...)]: [p] must designate an uninitialised slot. *)
Definition construct_at (p : Ptr) (op : ElemOp T) : M unit :=
  sl ← read_slot p;
  match sl with
  | Some _ => undefined
  | None => v ← construct op; write_slot p (Some v)
  end.

(** [new (p) T(x)] for the object [x] at [src]. *)
Definition copy_construct_at (p src : Ptr) : M unit :=
  v ← load src; construct_at p (OpCopyCtor v).

(** [new (p) T(std::move(x))] for the object [x] at [src], which is left
    moved-from. *)
Definition move_construct_at (p src : Ptr) : M unit :=
  v ← load src;
  construct_at p (OpMoveCtor v);;
  write_slot src (Some (moved_from v)).

(** [p->~T()]. Destructors do not throw. *)
Definition destroy_at (p : Ptr) : M unit :=
  v ← load p;
  emit (EvDestroy v);;
  write_slot p None.

(** Copy assignment of the object at [src] to the object at [p]. *)
Definition copy_assign_at (p src : Ptr) : M unit :=
  v ← load src;
  d ← load p;
  assign (OpCopyAssign d v);;
  write_slot p (Some v).

(** Move assignment of the object at [src] to the object at [p]. *)
Definition move_assign_at (p src : Ptr) : M unit :=
  v ← load src;
  d ← load p;
  assign (OpMoveAssign d v);;
  write_slot p (Some v);;
  write_slot src (Some (moved_from v)).

(** Move assignment of a local object of value [v] to the object at [p]. *)
Definition move_assign_from (p : Ptr) (v : T) : M unit :=
  d ← load p;
  assign (OpMoveAssign d v);;
  write_slot p (Some v).

(** [q - p] as a [size_t]. Both must point into the same block (or both be
    null). *)
Definition ptr_diff (q p : Ptr) : M Z :=
  if bool_decide (p_base q = p_base p) then mret (wrap (p_off q - p_off p))
  else undefined.

(** [p <= q] and [p < q]. *)
Definition ptr_le (p q : Ptr) : M bool :=
  if bool_decide (p_base p = p_base q) then mret (p_off p <=? p_off q)
  else undefined.
Definition ptr_lt (p q : Ptr) : M bool :=
  if bool_decide (p_base p = p_base q) then mret (p_off p <? p_off q)
  else undefined.

(* =================================================================== *)
(** ** Loops and the algorithms of [<memory>] and [<algorithm>] *)
(* =================================================================== *)

(** [body i; body (i+1); ...], [count] times. *)
Fixpoint for_range (i : Z) (count : nat) (body : Z -> M unit) : M unit :=
  match count with
  | 0%nat => mret tt
  | S count' => body i;; for_range (i + 1) count' body
  end.

(** [for (size_t i = from; i < to; ++i) body(i)]. *)
Definition for_loop (from to : Z) (body : Z -> M unit) : M unit :=
  for_range from (Z.to_nat (to - from)) body.

(** Modelled from the C++ standard: [std::destroy_n(first, n)]. *)
Definition destroy_n (first : Ptr) (n : Z) : M unit :=
  for_range 0 (Z.to_nat n) (fun i => destroy_at (ptr_add first i)).

(** Modelled from the C++ standard: [std::uninitialized_copy_n(first, n,
    d_first)]. If a copy throws, the objects already built in the
    destination are destroyed and the exception is rethrown. *)
Definition uninitialized_copy_n (first : Ptr) (n : Z) (d_first : Ptr) : M unit :=
  for_range 0 (Z.to_nat n) (fun i =>
    on_unwind (copy_construct_at (ptr_add d_first i) (ptr_add first i))
              (destroy_n d_first i)).

(** Modelled from the C++ standard: [std::uninitialized_move_n]. *)
Definition uninitialized_move_n (first : Ptr) (n : Z) (d_first : Ptr) : M unit :=
  for_range 0 (Z.to_nat n) (fun i =>
    on_unwind (move_construct_at (ptr_add d_first i) (ptr_add first i))
              (destroy_n d_first i)).

(** Modelled from the C++ standard:
    [std::uninitialized_value_construct_n(first, n)]. *)
Definition uninitialized_value_construct_n (first : Ptr) (n : Z) : M unit :=
  for_range 0 (Z.to_nat n) (fun i =>
    on_unwind (construct_at (ptr_add first i) OpValueInit)
              (destroy_n first i)).

(** [q - p] as a [ptrdiff_t]: the signed distance from [p] to [q]. Both
    must point into the same block (or both be null). *)
Definition ptr_distance (q p : Ptr) : M Z :=
  if bool_decide (p_base q = p_base p) then mret (p_off q - p_off p)
  else undefined.

(** Modelled from the C++ standard: the algorithms of [<algorithm>] require
    that [first, last) be a valid range, that is, that [last] be reachable
    from [first]; on any other pair of iterators their behaviour is
    undefined. The length of a valid range. *)
Definition range_length (first last : Ptr) : M nat :=
  n ← ptr_distance last first;
  if n <? 0 then undefined else mret (Z.to_nat n).

(** Modelled from the C++ standard: [std::copy(first, last, d_first)]. *)
Definition std_copy (first last d_first : Ptr) : M unit :=
  n ← range_length first last;
  for_range 0 n (fun i =>
    copy_assign_at (ptr_add d_first i) (ptr_add first i)).

(** Modelled from the C++ standard: [std::move(first, last, d_first)]. *)
Definition std_move (first last d_first : Ptr) : M unit :=
  n ← range_length first last;
  for_range 0 n (fun i =>
    move_assign_at (ptr_add d_first i) (ptr_add first i)).

(** Modelled from the C++ standard: [std::move_backward(first, last,
    d_last)]: the elements are move-assigned last to first, the k-th from
    the end of the source to the k-th slot before [d_last]. *)
Definition std_move_backward (first last d_last : Ptr) : M unit :=
  n ← range_length first last;
  for_range 1 n (fun k =>
    move_assign_at (ptr_add d_last (- k)) (ptr_add last (- k))).
End Elements.

(* ===================================================================== *)
(** * [class RawMemory]: the members both drafts share *)
(* ===================================================================== *)

Module RawMem.
Section S.
Context {T : Type} `{!Element T} `{!Faults T} {O : Type}.
#[local] Abbreviation M := (M T O).

(** The global [operator new], asked for [bytes] bytes: it throws
    [std::bad_alloc] when the request exceeds [PTRDIFF_MAX] or when the
    environment says so, and otherwise returns a block of [bytes] bytes at
    an address not in use. Used as an array of [T], that block has
    [bytes / sizeof(T)] slots, all uninitialised. *)
Definition operator_new (bytes : Z) : M (option addr) := fun s =>
  if (PTRDIFF_MAX <? bytes) || alloc_throws (trace s) bytes then Throw s
  else
    let a := fresh (dom (heap s)) in
    let n := bytes / sizeof in
    Ok (Some a)
       {| heap := <[a := replicate (Z.to_nat n) None]> (heap s);
          objs := objs s;
          trace := trace s ++ [EvAllocate n a] |}.

(** The global [operator delete]: nothing for [nullptr]; releasing an
    address that is not an allocated block is undefined. *)
Definition operator_delete (buf : option addr) : M unit :=
  match buf with
  | None => mret tt
  | Some a => fun s =>
      match heap s !! a with
      | Some blk =>
          Ok tt {| heap := delete a (heap s);
                   objs := objs s;
                   trace := trace s ++ [EvDeallocate a (omap id blk)] |}
      | None => Undefined
      end
  end.

(** The expression [delete[] buf]: nothing for [nullptr]; undefined for
    anything that did not come from an array new-expression, and no block
    of this program does. *)
Definition delete_array (buf : option addr) : M unit :=
  match buf with
  | None => mret tt
  | Some _ => undefined
  end.

(** [static T* Allocate(size_t n)]: the byte count [n * sizeof(T)] is
    computed in [size_t] and wraps around. *)
Definition Allocate (n : Z) : M (option addr) :=
  if negb (n =? 0) then operator_new (wrap (n * sizeof)) else mret None.

(** [static void Deallocate(T* buf) noexcept]. *)
Definition Deallocate (buf : option addr) : M unit := operator_delete buf.

(** [RawMemory() = default]. *)
Definition ctor_default : RawMemory := {| buffer_ := None; capacity_ := 0 |}.

(** [explicit RawMemory(size_t capacity)]. *)
Definition ctor (capacity : Z) : M RawMemory :=
  buf ← Allocate capacity;
  mret {| buffer_ := buf; capacity_ := capacity |}.

(** [~RawMemory()]. *)
Definition dtor (this : RawMemory) : M unit := Deallocate (buffer_ this).

(** [T* operator+(size_t offset) noexcept]. *)
Definition plus (this : RawMemory) (offset : Z) : Ptr :=
  {| p_base := buffer_ this; p_off := offset |}.

(** [T& operator[](size_t index) noexcept]: the reference, as an address. *)
Definition at_ (this : RawMemory) (index : Z) : Ptr :=
  {| p_base := buffer_ this; p_off := index |}.

(** [void Swap(RawMemory& other) noexcept], on two distinct objects: the
    new [*this] and the new [other]. *)
Definition Swap (this other : RawMemory) : RawMemory * RawMemory :=
  ({| buffer_ := buffer_ other; capacity_ := capacity_ other |},
   {| buffer_ := buffer_ this; capacity_ := capacity_ this |}).

(** [T* GetAddress() noexcept]. *)
Definition GetAddress (this : RawMemory) : Ptr :=
  {| p_base := buffer_ this; p_off := 0 |}.

(** [size_t Capacity() const]. *)
Definition Capacity (this : RawMemory) : Z := capacity_ this.

End S.

Section Objects.
Context {T : Type} `{!Faults T}.

(** [Swap] and the destructor on [RawMemory] objects that have identity. *)
Definition Swap_at (this other : loc) : M T RawMemory unit :=
  r ← get_obj this;
  o ← get_obj other;
  let '(r', o') := Swap r o in
  put_obj other o';;
  put_obj this r'.

Definition dtor_at (this : loc) : M T RawMemory unit :=
  r ← get_obj this;
  Deallocate (buffer_ r);;
  drop_obj this.
End Objects.
End RawMem.

(* ===================================================================== *)
(** * [class Vector]: the members both drafts share *)
(* ===================================================================== *)

Module Vec.
Section S.
Context {T : Type} `{!Element T} `{!Faults T}.
#[local] Abbreviation M := (M T Vector).

(** Reading and writing the data members of the object at [this]. *)
Definition get_data (this : loc) : M RawMemory := v ← get_obj this; mret (data_ v).
Definition get_size (this : loc) : M Z := v ← get_obj this; mret (size_ v).
Definition set_data (this : loc) (d : RawMemory) : M unit :=
  v ← get_obj this; put_obj this {| data_ := d; size_ := size_ v |}.
Definition set_size (this : loc) (n : Z) : M unit :=
  v ← get_obj this; put_obj this {| data_ := data_ v; size_ := n |}.

(** [Vector() = default]. *)
Definition ctor_default : M loc :=
  new_obj {| data_ := RawMem.ctor_default; size_ := 0 |}.

(** [explicit Vector(size_t size)]. If the body throws, the member
    [data_], already constructed, is destroyed. *)
Definition ctor_sized (size : Z) : M loc :=
  data ← RawMem.ctor size;
  on_unwind (uninitialized_value_construct_n (RawMem.GetAddress data) size)
            (RawMem.dtor data);;
  new_obj {| data_ := data; size_ := size |}.

(** [Vector(const Vector& other)]. *)
Definition ctor_copy (other : loc) : M loc :=
  o ← get_obj other;
  data ← RawMem.ctor (size_ o);
  on_unwind (uninitialized_copy_n (RawMem.GetAddress (data_ o)) (size_ o)
                                  (RawMem.GetAddress data))
            (RawMem.dtor data);;
  new_obj {| data_ := data; size_ := size_ o |}.

(** [void Swap(Vector& other) noexcept]. *)
Definition Swap (this other : loc) : M unit :=
  v ← get_obj this;
  o ← get_obj other;
  (* data_.Swap(other.data_) *)
  let '(d, od) := RawMem.Swap (data_ v) (data_ o) in
  (* std::swap(size_, other.size_) *)
  put_obj other {| data_ := od; size_ := size_ v |};;
  put_obj this {| data_ := d; size_ := size_ o |}.

(** [Vector(Vector&& other) noexcept]: the members get their default
    initialisers, then [Swap(other)]. *)
Definition ctor_move (other : loc) : M loc :=
  this ← new_obj {| data_ := RawMem.ctor_default; size_ := 0 |};
  Swap this other;;
  mret this.

(** [Vector& operator=(Vector&& rhs) noexcept]. *)
Definition move_assign (this rhs : loc) : M unit :=
  if negb (this =? rhs)%nat then Swap this rhs else mret tt.

(** [T& operator[](size_t index) noexcept], the reference as an address. *)
Definition subscript (this : loc) (index : Z) : M Ptr :=
  size ← get_size this;
  assert (index <? size);;
  data ← get_data this;
  mret (RawMem.at_ data index).

(** [~Vector()], followed by the destructor of the member [data_]. *)
Definition dtor (this : loc) : M unit :=
  v ← get_obj this;
  destroy_n (RawMem.GetAddress (data_ v)) (size_ v);;
  RawMem.dtor (data_ v);;
  drop_obj this.

(** [iterator begin() noexcept] and [iterator end() noexcept]. *)
Definition begin_ (this : loc) : M Ptr :=
  data ← get_data this; mret (RawMem.GetAddress data).
Definition end_ (this : loc) : M Ptr :=
  data ← get_data this; size ← get_size this;
  mret (ptr_add (RawMem.GetAddress data) size).

(** [size_t Size() const noexcept]. *)
Definition Size (this : loc) : M Z := get_size this.

(** [size_t Capacity() const noexcept]. *)
Definition Capacity (this : loc) : M Z :=
  data ← get_data this; mret (RawMem.Capacity data).

(** The [if constexpr] of every relocation: move when the move
    constructor cannot throw or there is no copy constructor, else copy. *)
Definition relocate_n (first : Ptr) (n : Z) (d_first : Ptr) : M unit :=
  if is_nothrow_move_constructible || negb is_copy_constructible
  then uninitialized_move_n first n d_first
  else uninitialized_copy_n first n d_first.



(** The size of the block a growing insertion asks for:
    [size_ == 0 ? 1 : size_ * 2]. *)
Definition grown (size : Z) : Z := if size =? 0 then 1 else wrap (size * 2).

(** [template <typename... Args> T& EmplaceBack(Args&&... args)]; the
    reference returned is given as an address. *)
Definition EmplaceBack (this : loc) (args : Args T) : M Ptr :=
  size ← get_size this;
  cap ← Capacity this;
  data ← get_data this;
  (if size =? cap then
     new_data ← RawMem.ctor (grown size);
     on_unwind
       (construct_at (RawMem.plus new_data size) (ctor_of args);;
        relocate_n (RawMem.GetAddress data) size (RawMem.GetAddress new_data);;
        destroy_n (RawMem.GetAddress data) size)
       (RawMem.dtor new_data);;
     let '(data', new_data') := RawMem.Swap data new_data in
     set_data this data';;
     RawMem.dtor new_data'
   else
     construct_at (RawMem.plus data size) (ctor_of args));;
  (* ++size_ *)
  set_size this (wrap (size + 1));;
  data ← get_data this;
  size ← get_size this;
  mret (RawMem.at_ data (wrap (size - 1))).
End S.
End Vec.

Module VecCommon.
Section S.
Context {T : Type} `{!Element T} `{!Faults T}.
#[local] Abbreviation M := (M T Vector).
Import Vec.

(** The statements of [Emplace] that the two drafts share: all of it but
    the [assert] that [part_000] opens with. The local [temp_value] of the
    in-place branch is destroyed when an exception leaves its scope and at
    the scope's end. *)
Definition Emplace_body (this : loc) (pos : Ptr) (args : Args T) : M Ptr :=
  data ← get_data this;
  index ← ptr_diff pos (RawMem.GetAddress data);
  size ← get_size this;
  cap ← Capacity this;
  (if size =? cap then
     new_data ← RawMem.ctor (grown size);
     on_unwind
       (construct_at (RawMem.plus new_data index) (ctor_of args);;
        (if is_nothrow_move_constructible || negb is_copy_constructible then
           on_unwind
             (uninitialized_move_n (RawMem.GetAddress data) index
                                   (RawMem.GetAddress new_data))
             (destroy_at (RawMem.at_ new_data index));;
           on_unwind
             (uninitialized_move_n (RawMem.plus data index) (wrap (size - index))
                                   (RawMem.plus new_data (wrap (index + 1))))
             (destroy_n (RawMem.GetAddress new_data) (wrap (index + 1)))
         else
           on_unwind
             (uninitialized_copy_n (RawMem.GetAddress data) index
                                   (RawMem.GetAddress new_data))
             (destroy_at (RawMem.at_ new_data index));;
           on_unwind
             (uninitialized_copy_n (RawMem.plus data index) (wrap (size - index))
                                   (RawMem.plus new_data (wrap (index + 1))))
             (destroy_n (RawMem.GetAddress new_data) (wrap (index + 1))));;
        destroy_n (RawMem.GetAddress data) size)
       (RawMem.dtor new_data);;
     let '(data', new_data') := RawMem.Swap data new_data in
     set_data this data';;
     RawMem.dtor new_data'
   else
     temp_value ← construct (ctor_of args);
     on_unwind
       (move_construct_at (RawMem.plus data size) (RawMem.at_ data (wrap (size - 1)));;
        std_move_backward (RawMem.plus data index)
                          (ptr_add (RawMem.plus data size) (-1))
                          (RawMem.plus data size);;
        move_assign_from (RawMem.at_ data index) temp_value)
       (emit (EvDestroy temp_value));;
     emit (EvDestroy (moved_from temp_value)));;
  (* ++size_ *)
  set_size this (wrap (size + 1));;
  data ← get_data this;
  mret (RawMem.plus data index).

(** The statements of [Erase] that the two drafts share, over the
    [PopBack] of the draft. *)
Definition Erase_body (PopBack : loc -> M unit) (this : loc) (pos : Ptr) : M Ptr :=
  data ← get_data this;
  index ← ptr_diff pos (RawMem.GetAddress data);
  size ← get_size this;
  std_move (RawMem.plus data (wrap (index + 1))) (RawMem.plus data size)
           (RawMem.plus data index);;
  PopBack this;;
  data ← get_data this;
  mret (RawMem.plus data index).

(** The first branch of copy assignment, the same in both drafts:
    [Vector rhs_copy(rhs); Swap(rhs_copy);] and the end of the scope of
    [rhs_copy]. *)
Definition copy_and_swap (this rhs : loc) : M unit :=
  rhs_copy ← ctor_copy rhs;
  Swap this rhs_copy;;
  dtor rhs_copy.
End S.
End VecCommon.

(* ===================================================================== *)
(** * The draft [src/advanced-vector/vector.h] *)
(* ===================================================================== *)

Module VectorH.
Section Raw.
Context {T : Type} `{!Faults T}.
#[local] Abbreviation M := (M T RawMemory).

(** [RawMemory(RawMemory&& other) noexcept]: takes the members of [other]
    and resets them. *)
Definition RawMemory_ctor_move (other : loc) : M loc :=
  o ← get_obj other;
  this ← new_obj {| buffer_ := buffer_ o; capacity_ := capacity_ o |};
  (* other.buffer_ = nullptr; other.capacity_ = 0; *)
  put_obj other {| buffer_ := None; capacity_ := 0 |};;
  mret this.

(** [RawMemory& operator=(RawMemory&& other) noexcept]:
    [delete[] buffer_; Swap(other);] unless [this == &other]. *)
Definition RawMemory_move_assign (this other : loc) : M unit :=
  if negb (this =? other)%nat then
    r ← get_obj this;
    RawMem.delete_array (buffer_ r);;
    RawMem.Swap_at this other
  else mret tt.
End Raw.

Section S.
Context {T : Type} `{!Element T} `{!Faults T}.
#[local] Abbreviation M := (M T Vector).
Import Vec.

(** [Vector& operator=(const Vector& rhs)]. *)
Definition copy_assign (this rhs : loc) : M unit :=
  if negb (this =? rhs)%nat then
    r ← get_obj rhs;
    data ← get_data this;
    if RawMem.Capacity data <? size_ r then
      VecCommon.copy_and_swap this rhs
    else
      size ← get_size this;
      (if size_ r <? size then
         for_loop 0 (size_ r) (fun i =>
           copy_assign_at (RawMem.at_ data i) (RawMem.at_ (data_ r) i));;
         for_loop (size_ r) size (fun i => destroy_at (RawMem.at_ data i))
       else if size <=? size_ r then
         for_loop 0 size (fun i =>
           copy_assign_at (RawMem.at_ data i) (RawMem.at_ (data_ r) i));;
         uninitialized_copy_n (RawMem.plus (data_ r) size) (wrap (size_ r - size))
                              (RawMem.plus data size)
       else mret tt);;
      set_size this (size_ r)
  else mret tt.

(** [void PushBack(const T& value)] and [void PushBack(T&& value)]: the two
    bodies differ only in the constructor that builds the new element. *)
Definition PushBack_with (this : loc) (op : ElemOp T) : M unit :=
  size ← get_size this;
  cap ← Capacity this;
  data ← get_data this;
  (if size =? cap then
     new_data ← RawMem.ctor (grown size);
     on_unwind
       (construct_at (RawMem.plus new_data size) op;;
        relocate_n (RawMem.GetAddress data) size (RawMem.GetAddress new_data);;
        destroy_n (RawMem.GetAddress data) size)
       (RawMem.dtor new_data);;
     let '(data', new_data') := RawMem.Swap data new_data in
     set_data this data';;
     RawMem.dtor new_data'
   else
     construct_at (RawMem.plus data size) op);;
  set_size this (wrap (size + 1)).

Definition PushBack (this : loc) (value : T) : M unit :=
  PushBack_with this (OpCopyCtor value).
Definition PushBack_rvalue (this : loc) (value : T) : M unit :=
  PushBack_with this (OpMoveCtor value).

(** [void PopBack() noexcept]: no test of [size_]. *)
Definition PopBack (this : loc) : M unit :=
  data ← get_data this;
  size ← get_size this;
  destroy_at (RawMem.at_ data (wrap (size - 1)));;
  set_size this (wrap (size - 1)).

(** [iterator Emplace(const_iterator pos, Args&&... args)]: no assert. *)
Definition Emplace (this : loc) (pos : Ptr) (args : Args T) : M Ptr :=
  VecCommon.Emplace_body this pos args.

(** [iterator Erase(const_iterator pos)]: no assert. *)
Definition Erase (this : loc) (pos : Ptr) : M Ptr :=
  VecCommon.Erase_body PopBack this pos.

(** [iterator Insert(const_iterator pos, const T& value)]: the code of
    [Emplace] written out again. [std::move(value)] of a [const T&] selects
    the copy constructor. *)
Definition Insert (this : loc) (pos : Ptr) (value : T) : M Ptr :=
  data ← get_data this;
  index ← ptr_diff pos (RawMem.GetAddress data);
  size ← get_size this;
  cap ← Capacity this;
  (if size =? cap then
     new_data ← RawMem.ctor (grown size);
     on_unwind
       (construct_at (RawMem.plus new_data index) (OpCopyCtor value);;
        (if is_nothrow_move_constructible || negb is_copy_constructible then
           on_unwind
             (uninitialized_move_n (RawMem.GetAddress data) index
                                   (RawMem.GetAddress new_data))
             (destroy_at (RawMem.at_ new_data index));;
           on_unwind
             (uninitialized_move_n (RawMem.plus data index) (wrap (size - index))
                                   (RawMem.plus new_data (wrap (index + 1))))
             (destroy_n (RawMem.GetAddress new_data) (wrap (index + 1)))
         else
           on_unwind
             (uninitialized_copy_n (RawMem.GetAddress data) index
                                   (RawMem.GetAddress new_data))
             (destroy_at (RawMem.at_ new_data index));;
           on_unwind
             (uninitialized_copy_n (RawMem.plus data index) (wrap (size - index))
                                   (RawMem.plus new_data (wrap (index + 1))))
             (destroy_n (RawMem.GetAddress new_data) (wrap (index + 1))));;
        destroy_n (RawMem.GetAddress data) size)
       (RawMem.dtor new_data);;
     let '(data', new_data') := RawMem.Swap data new_data in
     set_data this data';;
     RawMem.dtor new_data'
   else
     temp_value ← construct (OpCopyCtor value);
     on_unwind
       (move_construct_at (RawMem.plus data size) (RawMem.at_ data (wrap (size - 1)));;
        std_move_backward (RawMem.plus data index)
                          (ptr_add (RawMem.plus data size) (-1))
                          (RawMem.plus data size);;
        move_assign_from (RawMem.at_ data index) temp_value)
       (emit (EvDestroy temp_value));;
     emit (EvDestroy (moved_from temp_value)));;
  set_size this (wrap (size + 1));;
  data ← get_data this;
  mret (RawMem.plus data index).

(** [iterator Insert(const_iterator pos, T&& value)]: one [try] block
    around both relocations, whose handler destroys the new element only. *)
Definition Insert_rvalue (this : loc) (pos : Ptr) (value : T) : M Ptr :=
  data ← get_data this;
  index ← ptr_diff pos (RawMem.GetAddress data);
  size ← get_size this;
  cap ← Capacity this;
  (if size =? cap then
     new_data ← RawMem.ctor (grown size);
     on_unwind
       (construct_at (RawMem.plus new_data index) (OpMoveCtor value);;
        first ← begin_ this;
        (if is_nothrow_move_constructible || negb is_copy_constructible then
           on_unwind
             (uninitialized_move_n first index (RawMem.GetAddress new_data);;
              uninitialized_move_n (ptr_add first index) (wrap (size - index))
                (ptr_add (ptr_add (RawMem.GetAddress new_data) index) 1))
             (destroy_n (ptr_add (RawMem.GetAddress new_data) index) 1)
         else
           on_unwind
             (uninitialized_copy_n first index (RawMem.GetAddress new_data);;
              uninitialized_copy_n (ptr_add first index) (wrap (size - index))
                (ptr_add (ptr_add (RawMem.GetAddress new_data) index) 1))
             (destroy_n (ptr_add (RawMem.GetAddress new_data) index) 1));;
        destroy_n (RawMem.GetAddress data) size)
       (RawMem.dtor new_data);;
     let '(data', new_data') := RawMem.Swap data new_data in
     set_data this data';;
     RawMem.dtor new_data'
   else
     temp_value ← construct (OpMoveCtor value);
     on_unwind
       (move_construct_at (RawMem.plus data size) (RawMem.at_ data (wrap (size - 1)));;
        std_move_backward (RawMem.plus data index)
                          (ptr_add (RawMem.plus data size) (-1))
                          (RawMem.plus data size);;
        move_assign_from (RawMem.at_ data index) temp_value)
       (emit (EvDestroy temp_value));;
     emit (EvDestroy (moved_from temp_value)));;
  set_size this (wrap (size + 1));;
  data ← get_data this;
  mret (RawMem.plus data index).
End S.
End VectorH.

(* ===================================================================== *)
(** * The draft [src/unnamed/part_000] *)
(* ===================================================================== *)

Module Part000.
Section Raw.
Context {T : Type} `{!Faults T}.
#[local] Abbreviation M := (M T RawMemory).

(** [RawMemory(RawMemory&& other) noexcept : RawMemory() { Swap(other); }]. *)
Definition RawMemory_ctor_move (other : loc) : M loc :=
  this ← new_obj RawMem.ctor_default;
  RawMem.Swap_at this other;;
  mret this.

(** [RawMemory& operator=(RawMemory&& other) noexcept]: [Swap(other)]
    unless [this == &other]. *)
Definition RawMemory_move_assign (this other : loc) : M unit :=
  if negb (this =? other)%nat then RawMem.Swap_at this other else mret tt.
End Raw.

Section S.
Context {T : Type} `{!Element T} `{!Faults T}.
#[local] Abbreviation M := (M T Vector).
Import Vec.

(** [void Copy(const Vector& rhs)] (private). *)
Definition Copy (this rhs : loc) : M unit :=
  r ← get_obj rhs;
  data ← get_data this;
  size ← get_size this;
  (if size_ r <? size then
     std_copy (RawMem.GetAddress (data_ r))
              (ptr_add (RawMem.GetAddress (data_ r)) (size_ r))
              (RawMem.GetAddress data);;
     destroy_n (ptr_add (RawMem.GetAddress data) (size_ r)) (wrap (size - size_ r))
   else
     std_copy (RawMem.GetAddress (data_ r))
              (ptr_add (RawMem.GetAddress (data_ r)) size)
              (RawMem.GetAddress data);;
     uninitialized_copy_n (ptr_add (RawMem.GetAddress (data_ r)) size)
                          (wrap (size_ r - size))
                          (ptr_add (RawMem.GetAddress data) size));;
  set_size this (size_ r).

(** [Vector& operator=(const Vector& rhs)]. *)
Definition copy_assign (this rhs : loc) : M unit :=
  if negb (this =? rhs)%nat then
    r ← get_obj rhs;
    data ← get_data this;
    if RawMem.Capacity data <? size_ r then
      VecCommon.copy_and_swap this rhs
    else
      Copy this rhs
  else mret tt.

(** [void PushBack(const T& value)] and [void PushBack(T&& value)]. *)
Definition PushBack (this : loc) (value : T) : M unit :=
  EmplaceBack this (Lvalue value);; mret tt.
Definition PushBack_rvalue (this : loc) (value : T) : M unit :=
  EmplaceBack this (Rvalue value);; mret tt.

(** [void PopBack() noexcept]. *)
Definition PopBack (this : loc) : M unit :=
  size ← get_size this;
  if 0 <? size then
    data ← get_data this;
    destroy_at (RawMem.at_ data (wrap (size - 1)));;
    set_size this (wrap (size - 1))
  else mret tt.

(** [assert(pos >= begin() && pos < end())]. *)
Definition assert_valid_pos (this : loc) (pos : Ptr) : M unit :=
  first ← begin_ this;
  c1 ← ptr_le first pos;
  (if c1 : bool then
     last ← end_ this;
     c2 ← ptr_lt pos last;
     assert c2
   else assert false).

(** [iterator Emplace(const_iterator pos, Args&&... args)]. *)
Definition Emplace (this : loc) (pos : Ptr) (args : Args T) : M Ptr :=
  assert_valid_pos this pos;;
  VecCommon.Emplace_body this pos args.

(** [iterator Erase(const_iterator pos)]. *)
Definition Erase (this : loc) (pos : Ptr) : M Ptr :=
  assert_valid_pos this pos;;
  VecCommon.Erase_body PopBack this pos.

(** [iterator Insert(const_iterator pos, const T& value)] and
    [iterator Insert(const_iterator pos, T&& value)]. *)
Definition Insert (this : loc) (pos : Ptr) (value : T) : M Ptr :=
  Emplace this pos (Lvalue value).
Definition Insert_rvalue (this : loc) (pos : Ptr) (value : T) : M Ptr :=
  Emplace this pos (Rvalue value).
End S.
End Part000.

(* ===================================================================== *)
(** * Two element types to run the code on *)
(* ===================================================================== *)

(** [int]: four bytes, every special member is [noexcept], a moved-from
    [int] keeps its value, [int()] is [0]. *)
Definition int_element : Element Z :=
  {| sizeof := 4;
     is_nothrow_move_constructible := true;
     is_copy_constructible := true;
     value_init := 0;
     moved_from := fun v => v;
     sizeof_range := ltac:(unfold PTRDIFF_MAX; lia) |}.

(** The environment in which nothing ever throws. *)
Definition no_faults {T} : Faults T :=
  {| elem_throws := fun _ _ => false; alloc_throws := fun _ _ => false |}.

Definition empty_state {T O} : State T O :=
  {| heap := ∅; objs := ∅; trace := [] |}.


(* ===================================================================== *)
(** * Reasoning about the machine *)
(* ===================================================================== *)

Section Logic.
Context {T : Type} {O : Type}.
Implicit Types (s : State T O) (h : gmap addr (list (option T))).

(** The outcome [r] is a normal completion satisfying [Q] or a propagating
    exception satisfying [E]; it is neither undefined behaviour nor a
    failed assertion. *)
Definition post {A} (r : Result T O A) (Q : A -> State T O -> Prop)
    (E : State T O -> Prop) : Prop :=
  match r with
  | Ok a s => Q a s
  | Throw s => E s
  | Abort => False
  | Undefined => False
  end.

Lemma post_mono {A} (r : Result T O A) (Q Q' : A -> State T O -> Prop) (E E' : State T O -> Prop) :
  post r Q E -> (forall a s, Q a s -> Q' a s) -> (forall s, E s -> E' s) -> post r Q' E'.
Proof. destruct r; simpl; auto. Qed.

Lemma bind_unfold {A B} (m : M T O A) (k : A -> M T O B) s :
  (m ≫= k) s = match m s with
               | Ok a s' => k a s'
               | Throw s' => Throw s'
               | Abort => Abort
               | Undefined => Undefined
               end.
Proof. reflexivity. Qed.

Lemma bind_ok {A B} (m : M T O A) (k : A -> M T O B) s a s' :
  m s = Ok a s' -> (m ≫= k) s = k a s'.
Proof. intros E. rewrite bind_unfold, E. reflexivity. Qed.

Lemma bind_throw {A B} (m : M T O A) (k : A -> M T O B) s s' :
  m s = Throw s' -> (m ≫= k) s = Throw s'.
Proof. intros E. rewrite bind_unfold, E. reflexivity. Qed.

Lemma ret_unfold {A} (a : A) s : (mret a : M T O A) s = Ok a s.
Proof. reflexivity. Qed.

Lemma get_obj_ok s (l : loc) (o : O) : objs s !! l = Some o -> get_obj l s = Ok o s.
Proof. unfold get_obj. by intros ->. Qed.

Lemma post_bind {A B} (m : M T O A) (k : A -> M T O B) s Q E :
  post (m s) (fun a s' => post (k a s') Q E) E -> post ((m ≫= k) s) Q E.
Proof. rewrite bind_unfold. destruct (m s); simpl; auto. Qed.

Lemma on_unwind_ok {A} (m : M T O A) hd s a s' :
  m s = Ok a s' -> on_unwind m hd s = Ok a s'.
Proof. unfold on_unwind. intros ->. reflexivity. Qed.

Lemma on_unwind_throw {A} (m : M T O A) hd s s' s'' :
  m s = Throw s' -> hd s' = Ok tt s'' -> on_unwind m hd s = Throw s''.
Proof. unfold on_unwind. intros -> ->. reflexivity. Qed.

Lemma post_on_unwind {A} (m : M T O A) hd s Q E :
  post (m s) Q (fun s' => post (hd s') (fun _ s'' => E s'') E) ->
  post (on_unwind m hd s) Q E.
Proof.
  unfold on_unwind. destruct (m s) as [a s'|s'| |]; simpl; auto.
  destruct (hd s'); simpl; auto.
Qed.

(** The state [s] with heap [h] and the events [evs] appended to the trace. *)
Definition upd s h (evs : list (Event T)) : State T O :=
  {| heap := h; objs := objs s; trace := trace s ++ evs |}.

Lemma upd_upd s h1 e1 h2 e2 : upd (upd s h1 e1) h2 e2 = upd s h2 (e1 ++ e2).
Proof. unfold upd. simpl. by rewrite app_assoc. Qed.

Lemma upd_id s : upd s (heap s) [] = s.
Proof. destruct s. unfold upd. simpl. by rewrite app_nil_r. Qed.

(** The block a base pointer designates; [nullptr] designates no slots. *)
Definition region h (base : option addr) : option (list (option T)) :=
  match base with
  | Some a => h !! a
  | None => Some []
  end.

Definition update_region h (base : option addr) (blk : list (option T)) :=
  match base with
  | Some a => <[a := blk]> h
  | None => h
  end.

Lemma region_update_eq h b blk :
  (b = None -> blk = []) -> region (update_region h b blk) b = Some blk.
Proof.
  destruct b as [a|]; simpl.
  - intros _. by rewrite lookup_insert_eq.
  - intros ->; done.
Qed.

Lemma region_update_ne h b b' blk :
  b ≠ b' -> region (update_region h b blk) b' = region h b'.
Proof.
  destruct b as [a|], b' as [a'|]; simpl; try done.
  intros Hne. rewrite lookup_insert_ne; [done|congruence].
Qed.

Lemma update_update h b x y :
  update_region (update_region h b x) b y = update_region h b y.
Proof. destruct b; simpl; [by rewrite insert_insert_eq|done]. Qed.

Lemma update_id h b blk : region h b = Some blk -> update_region h b blk = h.
Proof. destruct b; simpl; [apply insert_id|done]. Qed.

Lemma update_commute h b b' x y :
  b ≠ b' ->
  update_region (update_region h b x) b' y = update_region (update_region h b' y) b x.
Proof.
  destruct b as [a|], b' as [a'|]; simpl; try done.
  intros Hne. apply insert_insert_ne. congruence.
Qed.
End Logic.

Section ElementLogic.
Context {T : Type} `{!Element T} `{!Faults T} {O : Type}.
Implicit Types (s : State T O) (h : gmap addr (list (option T))) (p : Ptr).

(** The length of a valid range, and what an inverted one gives. *)
Lemma range_length_ok (first last : Ptr) (n : nat) s :
  p_base last = p_base first ->
  p_off last = p_off first + Z.of_nat n ->
  (range_length first last : M T O nat) s = Ok n s.
Proof.
  intros Hb Ho. unfold range_length, ptr_distance.
  rewrite bool_decide_eq_true_2 by done. rewrite bind_unfold, ret_unfold.
  destruct (Z.ltb_spec (p_off last - p_off first) 0); [lia|].
  rewrite ret_unfold. do 2 f_equal. lia.
Qed.

Lemma range_length_inverted (first last : Ptr) s :
  p_base last = p_base first ->
  p_off last < p_off first ->
  (range_length first last : M T O nat) s = Undefined.
Proof.
  intros Hb Ho. unfold range_length, ptr_distance.
  rewrite bool_decide_eq_true_2 by done. rewrite bind_unfold, ret_unfold.
  by destruct (Z.ltb_spec (p_off last - p_off first) 0); [|lia].
Qed.

Lemma slot_at_middle h p A y B :
  region h (p_base p) = Some (A ++ y :: B) ->
  p_off p = Z.of_nat (length A) ->
  slot_at h p = Some y.
Proof.
  unfold slot_at. destruct (p_base p) as [a|]; simpl.
  - intros -> ->.
    destruct (Z.leb_spec 0 (Z.of_nat (length A))); [|lia].
    rewrite Nat2Z.id. apply list_lookup_middle. done.
  - intros [=]. by destruct A.
Qed.

Lemma set_slot_middle h p A y B x :
  region h (p_base p) = Some (A ++ y :: B) ->
  p_off p = Z.of_nat (length A) ->
  set_slot h p x = Some (update_region h (p_base p) (A ++ x :: B)).
Proof.
  unfold set_slot. destruct (p_base p) as [a|]; simpl.
  - intros -> ->.
    rewrite length_app. simpl.
    destruct (Z.leb_spec 0 (Z.of_nat (length A))); [|lia].
    destruct (Z.ltb_spec (Z.of_nat (length A)) (Z.of_nat (length A + S (length B)))); [|lia].
    simpl. rewrite Nat2Z.id.
    rewrite insert_app_r_alt by lia. rewrite Nat.sub_diag. done.
  - intros [=]. by destruct A.
Qed.

Lemma load_middle s p A v B :
  region (heap s) (p_base p) = Some (A ++ Some v :: B) ->
  p_off p = Z.of_nat (length A) ->
  load p s = Ok v s.
Proof.
  intros Hr Ho. unfold load, read_slot. rewrite bind_unfold.
  by rewrite (slot_at_middle _ _ _ _ _ Hr Ho).
Qed.

Lemma write_slot_middle s p A y B x :
  region (heap s) (p_base p) = Some (A ++ y :: B) ->
  p_off p = Z.of_nat (length A) ->
  write_slot p x s = Ok tt (upd s (update_region (heap s) (p_base p) (A ++ x :: B)) []).
Proof.
  intros Hr Ho. unfold write_slot.
  rewrite (set_slot_middle _ _ _ _ _ x Hr Ho). unfold upd.
  by rewrite app_nil_r.
Qed.

Lemma construct_unfold op s :
  construct op s =
    if throws_now (trace s) op then Throw s
    else Ok (op_value op) (upd s (heap s) [EvConstruct op (op_value op)]).
Proof. reflexivity. Qed.

Lemma assign_unfold op s :
  assign op s =
    if throws_now (trace s) op then Throw s
    else Ok tt (upd s (heap s) [EvAssign op (op_value op)]).
Proof. reflexivity. Qed.

(** Placement new into an uninitialised slot. *)
Lemma construct_at_middle s p A B op :
  region (heap s) (p_base p) = Some (A ++ None :: B) ->
  p_off p = Z.of_nat (length A) ->
  construct_at p op s =
    if throws_now (trace s) op then Throw s
    else Ok tt (upd s (update_region (heap s) (p_base p) (A ++ Some (op_value op) :: B))
                    [EvConstruct op (op_value op)]).
Proof.
  intros Hr Ho. unfold construct_at, read_slot. rewrite bind_unfold.
  rewrite (slot_at_middle _ _ _ _ _ Hr Ho). rewrite bind_unfold, construct_unfold.
  destruct (throws_now (trace s) op); [done|].
  erewrite write_slot_middle; [|exact Hr|exact Ho].
  rewrite upd_upd. done.
Qed.

Lemma destroy_at_middle s p A v B :
  region (heap s) (p_base p) = Some (A ++ Some v :: B) ->
  p_off p = Z.of_nat (length A) ->
  destroy_at p s =
    Ok tt (upd s (update_region (heap s) (p_base p) (A ++ None :: B)) [EvDestroy v]).
Proof.
  intros Hr Ho. unfold destroy_at. erewrite bind_ok; [|by eapply load_middle].
  rewrite bind_unfold. simpl.
  erewrite write_slot_middle; [|exact Hr|exact Ho].
  unfold upd. simpl. by rewrite app_nil_r.
Qed.

(** [std::destroy_n] and every loop of destructor calls: the objects of a
    segment are destroyed first to last. *)
Lemma destroy_range_ok (xs : list T) : forall s p i A B,
  region (heap s) (p_base p) = Some (A ++ (Some <$> xs) ++ B) ->
  p_off p + i = Z.of_nat (length A) ->
  for_range i (length xs) (fun j => destroy_at (ptr_add p j)) s =
    Ok tt (upd s (update_region (heap s) (p_base p)
                    (A ++ replicate (length xs) None ++ B))
                 (EvDestroy <$> xs)).
Proof.
  induction xs as [|x xs IH]; intros s p i A B Hr Ho; simpl.
  - rewrite ret_unfold. simpl in Hr. rewrite (update_id _ _ _ Hr). by rewrite upd_id.
  - rewrite bind_unfold. simpl in Hr.
    erewrite destroy_at_middle; [|exact Hr|simpl; lia].
    simpl p_base.
    rewrite (IH _ p (i + 1) (A ++ [None]) B).
    + rewrite upd_upd. simpl. rewrite update_update.
      rewrite <- (app_assoc A [None]). done.
    + simpl. rewrite region_update_eq.
      * by rewrite <- app_assoc.
      * intros Hn. rewrite Hn in Hr. simpl in Hr. by destruct A.
    + rewrite length_app. simpl. lia.
Qed.

Lemma destroy_n_ok (xs : list T) s p n A B :
  region (heap s) (p_base p) = Some (A ++ (Some <$> xs) ++ B) ->
  p_off p = Z.of_nat (length A) ->
  n = Z.of_nat (length xs) ->
  destroy_n p n s =
    Ok tt (upd s (update_region (heap s) (p_base p)
                    (A ++ replicate (length xs) None ++ B))
                 (EvDestroy <$> xs)).
Proof.
  intros Hr Ho ->. unfold destroy_n. rewrite Nat2Z.id.
  apply destroy_range_ok; [done|lia].
Qed.

(** The events of copying, moving and value-constructing a run of objects. *)
Definition copy_events (xs : list T) : list (Event T) :=
  (fun x => EvConstruct (OpCopyCtor x) x) <$> xs.
Definition move_events (xs : list T) : list (Event T) :=
  (fun x => EvConstruct (OpMoveCtor x) x) <$> xs.

Lemma replicate_add_S {A} (a b : nat) (x : A) :
  replicate (a + S b) x = replicate a x ++ x :: replicate b x.
Proof. by rewrite replicate_add. Qed.

(** [std::uninitialized_copy_n], from the [i]-th object on: either every
    remaining object is copied, or some copy throws and the destination is
    left uninitialised as it was. *)
Lemma uninit_copy_range (xs : list T) : forall s first d_first i sA sB dA done dB,
  region (heap s) (p_base first) = Some (sA ++ (Some <$> xs) ++ sB) ->
  p_off first + i = Z.of_nat (length sA) ->
  region (heap s) (p_base d_first)
    = Some (dA ++ (Some <$> done) ++ replicate (length xs) None ++ dB) ->
  p_off d_first = Z.of_nat (length dA) ->
  i = Z.of_nat (length done) ->
  (xs ≠ [] -> p_base first ≠ p_base d_first) ->
  post (for_range i (length xs) (fun j =>
          on_unwind (copy_construct_at (ptr_add d_first j) (ptr_add first j))
                    (destroy_n d_first j)) s)
    (fun _ s' =>
       s' = upd s (update_region (heap s) (p_base d_first)
                     (dA ++ (Some <$> done ++ xs) ++ dB))
                  (copy_events xs))
    (fun s' => exists xs1 x xs2,
       xs = xs1 ++ x :: xs2 /\
       throws_now (trace s ++ copy_events xs1) (OpCopyCtor x) = true /\
       s' = upd s (update_region (heap s) (p_base d_first)
                     (dA ++ replicate (length done + length xs) None ++ dB))
                  (copy_events xs1 ++ (EvDestroy <$> done ++ xs1))).
Proof.
  induction xs as [|x xs IH]; intros s first d_first i sA sB dA done dB Hs Hso Hd Hdo Hi Hne.
  - simpl. simpl in Hd. rewrite app_nil_r. rewrite (update_id _ _ _ Hd). by rewrite upd_id.
  - assert (Hne' : p_base first ≠ p_base d_first) by (by apply Hne).
    cbn [length for_range]. apply post_bind. apply post_on_unwind.
    unfold copy_construct_at. apply post_bind.
    erewrite load_middle; [|exact Hs|simpl; lia]. cbn [post].
    assert (Hd' : region (heap s) (p_base d_first)
              = Some ((dA ++ (Some <$> done)) ++ None :: replicate (length xs) None ++ dB)).
    { rewrite Hd. by rewrite <- app_assoc. }
    erewrite construct_at_middle;
      [|exact Hd'|simpl; rewrite length_app, length_fmap; lia].
    cbn [ptr_add p_base].
    destruct (throws_now (trace s) (OpCopyCtor x)) eqn:Hthrow; cbn [post].
    + (* the copy throws: the objects built so far are destroyed *)
      erewrite destroy_n_ok; [|exact Hd|done|done]. cbn [post].
      exists [], x, xs. split; [done|]. split; [by rewrite app_nil_r|].
      cbn [length]. rewrite replicate_add_S, app_nil_r. simpl.
      by rewrite <- app_assoc.
    + (* the copy succeeds: go on with the rest *)
      set (s1 := upd s _ _).
      eapply post_mono.
      * apply (IH s1 first d_first (i + 1) (sA ++ [Some x]) sB dA (done ++ [x]) dB).
        -- subst s1. cbn [upd heap]. rewrite region_update_ne by done.
           rewrite Hs. by rewrite <- app_assoc.
        -- rewrite length_app. simpl. lia.
        -- subst s1. cbn [upd heap]. rewrite region_update_eq.
           ++ rewrite fmap_app. simpl. by rewrite <- !app_assoc.
           ++ intros Hn. rewrite Hn in Hd'. simpl in Hd'.
              injection Hd' as Hd'. by destruct dA, done.
        -- done.
        -- rewrite length_app. simpl. lia.
        -- by intros _.
      * intros _ s' ->. cbn [post]. subst s1. rewrite upd_upd. cbn [upd heap].
        rewrite update_update. by rewrite <- app_assoc.
      * intros s' (xs1 & y & xs2 & -> & Hthrow' & ->).
        exists (x :: xs1), y, xs2. split; [done|]. split.
        -- subst s1. cbn [upd trace] in Hthrow'. by rewrite <- app_assoc in Hthrow'.
        -- subst s1. rewrite upd_upd. cbn [upd heap]. rewrite update_update.
           rewrite !length_app. cbn [length].
           replace (length done + 1 + (length xs1 + S (length xs2)))%nat
             with (length done + S (length xs1 + S (length xs2)))%nat by lia.
           simpl. by rewrite <- !app_assoc.
Qed.

(** [std::uninitialized_move_n], from the [i]-th object on: the sources
    already moved stay moved-from also when a later move throws. *)
Lemma uninit_move_range (xs : list T) : forall s first d_first i sA sB dA done dB,
  region (heap s) (p_base first) = Some (sA ++ (Some <$> xs) ++ sB) ->
  p_off first + i = Z.of_nat (length sA) ->
  region (heap s) (p_base d_first)
    = Some (dA ++ (Some <$> done) ++ replicate (length xs) None ++ dB) ->
  p_off d_first = Z.of_nat (length dA) ->
  i = Z.of_nat (length done) ->
  p_base first ≠ p_base d_first ->
  post (for_range i (length xs) (fun j =>
          on_unwind (move_construct_at (ptr_add d_first j) (ptr_add first j))
                    (destroy_n d_first j)) s)
    (fun _ s' =>
       s' = upd s (update_region
                     (update_region (heap s) (p_base first)
                        (sA ++ (Some <$> (moved_from <$> xs)) ++ sB))
                     (p_base d_first) (dA ++ (Some <$> done ++ xs) ++ dB))
                  (move_events xs))
    (fun s' => exists xs1 x xs2,
       xs = xs1 ++ x :: xs2 /\
       throws_now (trace s ++ move_events xs1) (OpMoveCtor x) = true /\
       s' = upd s (update_region
                     (update_region (heap s) (p_base first)
                        (sA ++ (Some <$> (moved_from <$> xs1)) ++ (Some <$> x :: xs2) ++ sB))
                     (p_base d_first)
                     (dA ++ replicate (length done + length xs) None ++ dB))
                  (move_events xs1 ++ (EvDestroy <$> done ++ xs1))).
Proof.
  induction xs as [|x xs IH]; intros s first d_first i sA sB dA done dB Hs Hso Hd Hdo Hi Hne.
  - simpl. simpl in Hd, Hs. rewrite app_nil_r.
    rewrite (update_id _ _ _ Hs), (update_id _ _ _ Hd). by rewrite upd_id.
  - cbn [length for_range]. apply post_bind. apply post_on_unwind.
    unfold move_construct_at. apply post_bind.
    erewrite load_middle; [|exact Hs|simpl; lia]. cbn [post].
    assert (Hd' : region (heap s) (p_base d_first)
              = Some ((dA ++ (Some <$> done)) ++ None :: replicate (length xs) None ++ dB)).
    { rewrite Hd. by rewrite <- app_assoc. }
    apply post_bind.
    erewrite construct_at_middle;
      [|exact Hd'|simpl; rewrite length_app, length_fmap; lia].
    cbn [ptr_add p_base].
    destruct (throws_now (trace s) (OpMoveCtor x)) eqn:Hthrow; cbn [post].
    + erewrite destroy_n_ok; [|exact Hd|done|done]. cbn [post].
      exists [], x, xs. split; [done|]. split; [by rewrite app_nil_r|].
      cbn [length]. rewrite replicate_add_S, app_nil_r. simpl.
      simpl in Hs. rewrite (update_id _ _ _ Hs).
      by rewrite <- app_assoc.
    + set (s1 := upd s _ _).
      erewrite (write_slot_middle s1 _ sA (Some x));
        [|subst s1; cbn [upd heap ptr_add p_base];
          rewrite region_update_ne by done; exact Hs
         |simpl; lia].
      cbn [post ptr_add p_base].
      set (s2 := upd s1 _ _).
      eapply post_mono.
      * apply (IH s2 first d_first (i + 1) (sA ++ [Some (moved_from x)]) sB dA (done ++ [x]) dB).
        -- subst s2 s1. cbn [upd heap]. rewrite region_update_eq.
           ++ by rewrite <- app_assoc.
           ++ intros Hn. rewrite Hn in Hs. simpl in Hs.
              injection Hs as Hs. by destruct sA.
        -- rewrite length_app. simpl. lia.
        -- subst s2 s1. cbn [upd heap]. rewrite region_update_ne by done.
           rewrite region_update_eq.
           ++ rewrite fmap_app. simpl. by rewrite <- !app_assoc.
           ++ intros Hn. rewrite Hn in Hd'. simpl in Hd'.
              injection Hd' as Hd'. by destruct dA, done.
        -- done.
        -- rewrite length_app. simpl. lia.
        -- done.
      * intros _ s' ->. cbn [post]. subst s2 s1. rewrite !upd_upd. cbn [upd heap].
        rewrite update_update.
        rewrite (update_commute _ (p_base d_first) (p_base first)) by done.
        rewrite update_update. simpl. by rewrite <- !app_assoc.
      * intros s' (xs1 & y & xs2 & -> & Hthrow' & ->).
        exists (x :: xs1), y, xs2. split; [done|]. split.
        -- subst s2 s1. cbn [upd trace] in Hthrow'.
           rewrite app_nil_r in Hthrow'. by rewrite <- app_assoc in Hthrow'.
        -- subst s2 s1. rewrite !upd_upd. cbn [upd heap]. rewrite update_update.
           rewrite (update_commute _ (p_base d_first) (p_base first)) by done.
           rewrite update_update.
           rewrite !length_app. cbn [length].
           replace (length done + 1 + (length xs1 + S (length xs2)))%nat
             with (length done + S (length xs1 + S (length xs2)))%nat by lia.
           simpl. by rewrite <- !app_assoc.
Qed.

(** [std::uninitialized_value_construct_n], from the [i]-th slot on. *)
Lemma uninit_value_range (n : nat) : forall s first i A done B,
  region (heap s) (p_base first)
    = Some (A ++ (Some <$> done) ++ replicate n None ++ B) ->
  p_off first = Z.of_nat (length A) ->
  i = Z.of_nat (length done) ->
  post (for_range i n (fun j =>
          on_unwind (construct_at (ptr_add first j) OpValueInit)
                    (destroy_n first j)) s)
    (fun _ s' =>
       s' = upd s (update_region (heap s) (p_base first)
                     (A ++ (Some <$> done ++ replicate n value_init) ++ B))
                  (replicate n (EvConstruct OpValueInit value_init)))
    (fun s' => exists k : nat,
       (k < n)%nat /\
       throws_now (trace s ++ replicate k (EvConstruct OpValueInit value_init))
                  OpValueInit = true /\
       s' = upd s (update_region (heap s) (p_base first)
                     (A ++ replicate (length done + n) None ++ B))
                  (replicate k (EvConstruct OpValueInit value_init)
                   ++ (EvDestroy <$> done ++ replicate k value_init))).
Proof.
  induction n as [|n IH]; intros s first i A done B Hd Hdo Hi.
  - simpl. simpl in Hd. rewrite app_nil_r. rewrite (update_id _ _ _ Hd). by rewrite upd_id.
  - cbn [for_range]. apply post_bind. apply post_on_unwind.
    assert (Hd' : region (heap s) (p_base first)
              = Some ((A ++ (Some <$> done)) ++ None :: replicate n None ++ B)).
    { rewrite Hd. by rewrite <- app_assoc. }
    erewrite construct_at_middle;
      [|exact Hd'|simpl; rewrite length_app, length_fmap; lia].
    cbn [ptr_add p_base].
    destruct (throws_now (trace s) OpValueInit) eqn:Hthrow; cbn [post].
    + erewrite destroy_n_ok; [|exact Hd|done|done]. cbn [post].
      exists 0%nat. split; [lia|]. split; [by rewrite app_nil_r|].
      rewrite replicate_add_S. simpl. rewrite app_nil_r.
      by rewrite <- app_assoc.
    + set (s1 := upd s _ _).
      eapply post_mono.
      * apply (IH s1 first (i + 1) A (done ++ [value_init]) B).
        -- subst s1. cbn [upd heap]. rewrite region_update_eq.
           ++ rewrite fmap_app. simpl. by rewrite <- !app_assoc.
           ++ intros Hn. rewrite Hn in Hd'. simpl in Hd'.
              injection Hd' as Hd'. by destruct A, done.
        -- done.
        -- rewrite length_app. simpl. lia.
      * intros _ s' ->. cbn [post]. subst s1. rewrite upd_upd. cbn [upd heap].
        rewrite update_update. simpl. by rewrite <- app_assoc.
      * intros s' (k & Hk & Hthrow' & ->).
        exists (S k). split; [lia|]. split.
        -- subst s1. cbn [upd trace] in Hthrow'. by rewrite <- app_assoc in Hthrow'.
        -- subst s1. rewrite upd_upd. cbn [upd heap]. rewrite update_update.
           rewrite !length_app. cbn [length].
           replace (length done + 1 + n)%nat with (length done + S n)%nat by lia.
           simpl. by rewrite <- !app_assoc.
Qed.

(** The three algorithms as they are called: from the first object on. *)
Lemma uninitialized_copy_n_spec s first n d_first xs sA sB dA dB :
  region (heap s) (p_base first) = Some (sA ++ (Some <$> xs) ++ sB) ->
  p_off first = Z.of_nat (length sA) ->
  region (heap s) (p_base d_first) = Some (dA ++ replicate (length xs) None ++ dB) ->
  p_off d_first = Z.of_nat (length dA) ->
  n = Z.of_nat (length xs) ->
  (xs ≠ [] -> p_base first ≠ p_base d_first) ->
  post (uninitialized_copy_n first n d_first s)
    (fun _ s' =>
       s' = upd s (update_region (heap s) (p_base d_first) (dA ++ (Some <$> xs) ++ dB))
                  (copy_events xs))
    (fun s' => exists xs1 x xs2,
       xs = xs1 ++ x :: xs2 /\
       throws_now (trace s ++ copy_events xs1) (OpCopyCtor x) = true /\
       s' = upd s (heap s) (copy_events xs1 ++ (EvDestroy <$> xs1))).
Proof.
  intros Hs Hso Hd Hdo -> Hne. unfold uninitialized_copy_n. rewrite Nat2Z.id.
  eapply post_mono.
  - apply (uninit_copy_range xs s first d_first 0 sA sB dA [] dB); try done. lia.
  - intros _ s' ->. done.
  - intros s' (xs1 & x & xs2 & -> & Ht & ->). exists xs1, x, xs2.
    split; [done|]. split; [done|].
    simpl. by rewrite (update_id _ _ _ Hd).
Qed.

Lemma uninitialized_move_n_spec s first n d_first xs sA sB dA dB :
  region (heap s) (p_base first) = Some (sA ++ (Some <$> xs) ++ sB) ->
  p_off first = Z.of_nat (length sA) ->
  region (heap s) (p_base d_first) = Some (dA ++ replicate (length xs) None ++ dB) ->
  p_off d_first = Z.of_nat (length dA) ->
  n = Z.of_nat (length xs) ->
  p_base first ≠ p_base d_first ->
  post (uninitialized_move_n first n d_first s)
    (fun _ s' =>
       s' = upd s (update_region
                     (update_region (heap s) (p_base first)
                        (sA ++ (Some <$> (moved_from <$> xs)) ++ sB))
                     (p_base d_first) (dA ++ (Some <$> xs) ++ dB))
                  (move_events xs))
    (fun s' => exists xs1 x xs2,
       xs = xs1 ++ x :: xs2 /\
       throws_now (trace s ++ move_events xs1) (OpMoveCtor x) = true /\
       s' = upd s (update_region (heap s) (p_base first)
                     (sA ++ (Some <$> (moved_from <$> xs1)) ++ (Some <$> x :: xs2) ++ sB))
                  (move_events xs1 ++ (EvDestroy <$> xs1))).
Proof.
  intros Hs Hso Hd Hdo -> Hne. unfold uninitialized_move_n. rewrite Nat2Z.id.
  eapply post_mono.
  - apply (uninit_move_range xs s first d_first 0 sA sB dA [] dB); try done. lia.
  - intros _ s' ->. done.
  - intros s' (xs1 & x & xs2 & -> & Ht & ->). exists xs1, x, xs2.
    split; [done|]. split; [done|].
    simpl. rewrite update_id; [done|].
    by rewrite region_update_ne.
Qed.

Lemma uninitialized_value_construct_n_spec s first n (k : nat) A B :
  region (heap s) (p_base first) = Some (A ++ replicate k None ++ B) ->
  p_off first = Z.of_nat (length A) ->
  n = Z.of_nat k ->
  post (uninitialized_value_construct_n first n s)
    (fun _ s' =>
       s' = upd s (update_region (heap s) (p_base first)
                     (A ++ (Some <$> replicate k value_init) ++ B))
                  (replicate k (EvConstruct OpValueInit value_init)))
    (fun s' => exists j : nat,
       (j < k)%nat /\
       throws_now (trace s ++ replicate j (EvConstruct OpValueInit value_init))
                  OpValueInit = true /\
       s' = upd s (heap s)
              (replicate j (EvConstruct OpValueInit value_init)
               ++ (EvDestroy <$> replicate j value_init))).
Proof.
  intros Hd Hdo ->. unfold uninitialized_value_construct_n. rewrite Nat2Z.id.
  eapply post_mono.
  - apply (uninit_value_range k s first 0 A [] B); done.
  - intros _ s' ->. done.
  - intros s' (j & Hj & Ht & ->). exists j.
    split; [done|]. split; [done|].
    simpl. by rewrite (update_id _ _ _ Hd).
Qed.
End ElementLogic.

Section RawLogic.
Context {T : Type} `{!Element T} `{!Faults T} {O : Type}.
Implicit Types (s : State T O) (h : gmap addr (list (option T))).

(** The objects alive in a block. *)
Definition live (blk : list (option T)) : list T := omap id blk.

Lemma live_app (b1 b2 : list (option T)) : live (b1 ++ b2) = live b1 ++ live b2.
Proof. unfold live. apply omap_app. Qed.

Lemma live_Some (xs : list T) : live (Some <$> xs) = xs.
Proof. unfold live. induction xs; simpl; [done|]. by f_equal. Qed.

Lemma live_None (n : nat) : live (replicate n (None : option T)) = [].
Proof. unfold live. induction n; simpl; done. Qed.

(** The heap without the block at [base], and the event of releasing it. *)
Definition release h (base : option addr) :=
  match base with
  | Some a => delete a h
  | None => h
  end.

Definition release_events (base : option addr) (blk : list (option T)) : list (Event T) :=
  match base with
  | Some a => [EvDeallocate a (live blk)]
  | None => []
  end.

Lemma release_events_live b (blk blk' : list (option T)) :
  live blk = live blk' -> release_events b blk = release_events b blk'.
Proof. unfold release_events. destruct b; [|done]. by intros ->. Qed.

(** [RawMemory(k)] in general: the block obtained has room for as many
    objects as the wrapped byte count allows, whatever [k] is. *)
Lemma ctor_any (k : Z) s :
  RawMem.ctor k s =
    if k =? 0 then Ok {| buffer_ := None; capacity_ := k |} s
    else
      let bytes := wrap (k * sizeof) in
      if (PTRDIFF_MAX <? bytes) || alloc_throws (trace s) bytes then Throw s
      else
        let a := fresh (dom (heap s)) in
        Ok {| buffer_ := Some a; capacity_ := k |}
           (upd s (<[a := replicate (Z.to_nat (bytes / sizeof)) None]> (heap s))
                [EvAllocate (bytes / sizeof) a]).
Proof.
  unfold RawMem.ctor, RawMem.Allocate, RawMem.operator_new. rewrite bind_unfold.
  destruct (k =? 0); simpl; [done|].
  destruct (_ || _); done.
Qed.

(** The largest number of objects of type [T] a block can hold. *)
Definition max_size : Z := PTRDIFF_MAX / sizeof.

Lemma max_size_le : max_size <= PTRDIFF_MAX.
Proof.
  unfold max_size. pose proof sizeof_range as Hs.
  apply Z.div_le_upper_bound; [lia|].
  assert (0 <= PTRDIFF_MAX) by (unfold PTRDIFF_MAX; lia). nia.
Qed.

Lemma max_size_pos : 1 <= max_size.
Proof.
  unfold max_size. pose proof sizeof_range as Hs.
  apply Z.div_le_lower_bound; lia.
Qed.

Lemma max_size_fits (k : Z) : k * sizeof <= PTRDIFF_MAX <-> k <= max_size.
Proof.
  unfold max_size. pose proof sizeof_range as Hs. split; intros H.
  - apply Z.div_le_lower_bound; lia.
  - assert (Hq : sizeof * (PTRDIFF_MAX / sizeof) <= PTRDIFF_MAX)
      by (apply Z.mul_div_le; lia).
    nia.
Qed.

(** A byte count the size of [size_t] can hold is not wrapped. *)
Lemma wrap_bytes (k : Z) :
  0 <= k -> k * sizeof < size_mod -> wrap (k * sizeof) = k * sizeof.
Proof.
  intros Hk Hb. unfold wrap. apply Z.mod_small.
  pose proof sizeof_range. nia.
Qed.

Lemma bytes_slots (k : Z) : k * sizeof / sizeof = k.
Proof. pose proof sizeof_range. apply Z.div_mul. lia. Qed.

(** [RawMemory(k)] when [k * sizeof(T)] does not wrap: a block of exactly
    [k] slots, or [std::bad_alloc]. *)
Lemma ctor_unfold (k : Z) s :
  0 <= k -> k * sizeof < size_mod ->
  RawMem.ctor k s =
    if k =? 0 then Ok {| buffer_ := None; capacity_ := k |} s
    else if (PTRDIFF_MAX <? k * sizeof) || alloc_throws (trace s) (k * sizeof)
    then Throw s
    else
      let a := fresh (dom (heap s)) in
      Ok {| buffer_ := Some a; capacity_ := k |}
         (upd s (<[a := replicate (Z.to_nat k) None]> (heap s)) [EvAllocate k a]).
Proof.
  intros Hk Hb. rewrite ctor_any. cbv zeta.
  rewrite wrap_bytes by done. by rewrite bytes_slots.
Qed.

(** The byte count of a block that exists does not wrap. *)
Lemma held_bytes (k : Z) : 0 <= k <= max_size -> k * sizeof < size_mod.
Proof.
  intros [H0 Hm]. apply max_size_fits in Hm.
  unfold size_mod, PTRDIFF_MAX in *. lia.
Qed.

(** Twice the capacity of a block that exists is a byte count that does
    not wrap. *)
Lemma grown_bytes (size : Z) :
  0 <= size <= max_size -> Z.max 1 (2 * size) * sizeof < size_mod.
Proof.
  intros [H0 Hm]. apply max_size_fits in Hm. pose proof sizeof_range as Hs.
  assert (size_mod = 2 * PTRDIFF_MAX + 2) as -> by (unfold size_mod, PTRDIFF_MAX; lia).
  destruct (Z.max_spec 1 (2 * size)) as [[_ ->]|[_ ->]]; lia.
Qed.

Lemma dtor_region (r : RawMemory) s blk :
  region (heap s) (buffer_ r) = Some blk ->
  RawMem.dtor r s =
    Ok tt (upd s (release (heap s) (buffer_ r)) (release_events (buffer_ r) blk)).
Proof.
  unfold RawMem.dtor, RawMem.Deallocate, RawMem.operator_delete.
  destruct (buffer_ r) as [a|]; simpl.
  - intros ->. done.
  - intros _. rewrite ret_unfold. by rewrite upd_id.
Qed.

Lemma fresh_not_region h b blk :
  region h b = Some blk -> b ≠ Some (fresh (dom h)).
Proof.
  destruct b as [a|]; simpl; [|done].
  intros Hl [= ->].
  apply (is_fresh (dom h)). apply elem_of_dom. by rewrite Hl.
Qed.

Lemma region_release_ne h b b' :
  b ≠ b' -> region (release h b) b' = region h b'.
Proof.
  destruct b as [a|], b' as [a'|]; simpl; try done.
  intros Hne. rewrite lookup_delete_ne; [done|congruence].
Qed.
End RawLogic.

(* ===================================================================== *)
(** * Well-formed vectors *)
(* ===================================================================== *)

Section VecLogic.
Context {T : Type} `{!Element T} `{!Faults T}.
Implicit Types (s : State T Vector) (h : gmap addr (list (option T)))
  (v : Vector) (xs : list T).

(** The block of a vector of capacity [cap] whose elements are [xs]: the
    live objects, then uninitialised slots. *)
Definition block_of xs (cap : Z) : list (option T) :=
  (Some <$> xs) ++ replicate (Z.to_nat cap - length xs) None.

(** The representation invariant of [Vector] (the invariant of the data
    model): [v] has the elements [xs] in the heap [h]. The block of a
    vector holds [capacity_] objects, hence [capacity_ * sizeof(T)] bytes,
    and [operator new] hands out no block above [PTRDIFF_MAX] bytes: the
    capacity is at most [max_size]. *)
Definition owns h v xs : Prop :=
  size_ v = Z.of_nat (length xs) /\
  size_ v <= capacity_ (data_ v) <= max_size /\
  region h (buffer_ (data_ v)) = Some (block_of xs (capacity_ (data_ v))).

(** The state [s] with the object at [this] replaced by [v]. *)
Definition with_obj s (this : loc) v : State T Vector :=
  {| heap := heap s; objs := <[this := v]> (objs s); trace := trace s |}.

Lemma get_data_ok s this v :
  objs s !! this = Some v -> Vec.get_data this s = Ok (data_ v) s.
Proof. intros H. unfold Vec.get_data. by erewrite bind_ok; [|by apply get_obj_ok]. Qed.

Lemma get_size_ok s this v :
  objs s !! this = Some v -> Vec.get_size this s = Ok (size_ v) s.
Proof. intros H. unfold Vec.get_size. by erewrite bind_ok; [|by apply get_obj_ok]. Qed.

Lemma Capacity_ok s this v :
  objs s !! this = Some v -> Vec.Capacity this s = Ok (capacity_ (data_ v)) s.
Proof. intros H. unfold Vec.Capacity. by erewrite bind_ok; [|by eapply get_data_ok]. Qed.

Lemma set_data_ok s this v d :
  objs s !! this = Some v ->
  Vec.set_data this d s = Ok tt (with_obj s this {| data_ := d; size_ := size_ v |}).
Proof. intros H. unfold Vec.set_data. by erewrite bind_ok; [|by apply get_obj_ok]. Qed.

Lemma set_size_ok s this v n :
  objs s !! this = Some v ->
  Vec.set_size this n s = Ok tt (with_obj s this {| data_ := data_ v; size_ := n |}).
Proof. intros H. unfold Vec.set_size. by erewrite bind_ok; [|by apply get_obj_ok]. Qed.

Lemma get_obj_inv s this v s' :
  get_obj this s = Ok v s' -> s' = s /\ objs s !! this = Some v.
Proof. unfold get_obj. destruct (objs s !! this); [|done]. by intros [= -> ->]. Qed.

Lemma get_data_inv s this d s' : Vec.get_data this s = Ok d s' -> s' = s.
Proof.
  unfold Vec.get_data. rewrite bind_unfold.
  destruct (get_obj this s) eqn:E; try done.
  apply get_obj_inv in E as [-> _]. by intros [= _ ->].
Qed.

Lemma get_size_inv s this n s' : Vec.get_size this s = Ok n s' -> s' = s.
Proof.
  unfold Vec.get_size. rewrite bind_unfold.
  destruct (get_obj this s) eqn:E; try done.
  apply get_obj_inv in E as [-> _]. by intros [= _ ->].
Qed.

Lemma block_of_length xs cap :
  Z.of_nat (length xs) <= cap -> Z.of_nat (length (block_of xs cap)) = cap.
Proof. intros H. unfold block_of. rewrite length_app, length_fmap, length_replicate. lia. Qed.

(** How relocation treats a run of objects: the constructor it uses, the
    events it leaves, and the state it leaves the sources in. *)
Definition relocates_by_move : bool :=
  is_nothrow_move_constructible || negb is_copy_constructible.

Definition relocation_events xs : list (Event T) :=
  if relocates_by_move then move_events xs else copy_events xs.

Definition relocated_sources xs : list T :=
  if relocates_by_move then moved_from <$> xs else xs.

Lemma relocated_sources_length xs : length (relocated_sources xs) = length xs.
Proof. unfold relocated_sources. destruct relocates_by_move; [apply length_fmap|done]. Qed.

Lemma relocated_sources_nil : relocated_sources [] = [].
Proof. unfold relocated_sources. by destruct relocates_by_move. Qed.

(** Relocation of all of [xs] into a fresh block. When it throws, the
    destination is uninitialised as before and the heap differs from the one
    before at most in the sources already relocated, [xs1], which are as a
    move or a copy leaves them; it does not differ at all if [T] has a copy
    constructor or a [noexcept] move constructor (a relocation by move
    throws only if [T] has neither). *)
Lemma relocate_n_spec s first n d_first xs sA sB dA dB :
  region (heap s) (p_base first) = Some (sA ++ (Some <$> xs) ++ sB) ->
  p_off first = Z.of_nat (length sA) ->
  region (heap s) (p_base d_first) = Some (dA ++ replicate (length xs) None ++ dB) ->
  p_off d_first = Z.of_nat (length dA) ->
  n = Z.of_nat (length xs) ->
  p_base first ≠ p_base d_first ->
  post (Vec.relocate_n first n d_first s)
    (fun _ s' =>
       s' = upd s (update_region
                     (update_region (heap s) (p_base first)
                        (sA ++ (Some <$> relocated_sources xs) ++ sB))
                     (p_base d_first) (dA ++ (Some <$> xs) ++ dB))
                  (relocation_events xs))
    (fun s' => objs s' = objs s /\
               region (heap s') (p_base d_first) = region (heap s) (p_base d_first) /\
               (is_copy_constructible = true \/ is_nothrow_move_constructible = true ->
                heap s' = heap s) /\
               (exists xs1 xs2,
                  xs = xs1 ++ xs2 /\
                  heap s' = update_region (heap s) (p_base first)
                              (sA ++ (Some <$> relocated_sources xs1 ++ xs2) ++ sB) /\
                  trace s' = trace s ++ relocation_events xs1
                               ++ (EvDestroy <$> xs1)) /\
               exists tr op, throws_now tr op = true).
Proof.
  intros Hs Hso Hd Hdo Hn Hne.
  unfold Vec.relocate_n, relocation_events, relocated_sources, relocates_by_move.
  destruct (is_nothrow_move_constructible || negb is_copy_constructible) eqn:Hmv.
  - eapply post_mono.
    + by eapply uninitialized_move_n_spec.
    + intros _ s' ->. done.
    + intros s' (xs1 & x & xs2 & -> & Ht & ->). cbn [upd objs heap trace].
      split; [done|]. split; [by rewrite region_update_ne|]. split; [|split; [|eauto]].
      * unfold throws_now in Ht.
        destruct is_nothrow_move_constructible; [done|].
        destruct is_copy_constructible; [done|]. by intros [|].
      * exists xs1, (x :: xs2). split; [done|]. split; [|done].
        by rewrite fmap_app, <- app_assoc.
  - eapply post_mono.
    + eapply uninitialized_copy_n_spec; done.
    + intros _ s' ->. cbn [upd heap]. rewrite (update_id _ (p_base first)); [done|].
      done.
    + intros s' (xs1 & x & xs2 & -> & Ht & ->). cbn [upd objs heap trace].
      split; [done|]. split; [done|]. split; [done|]. split; [|eauto].
      exists xs1, (x :: xs2). split; [done|]. split; [|done].
      symmetry. by apply update_id.
Qed.

Lemma owns_null v xs h :
  owns h v xs -> buffer_ (data_ v) = None -> xs = [] /\ capacity_ (data_ v) = 0.
Proof.
  intros (Hsz & Hcap & Hr) Hn. rewrite Hn in Hr. simpl in Hr. pose proof max_size_le as Hms.
  injection Hr as Hr. unfold block_of in Hr. symmetry in Hr.
  apply app_eq_nil in Hr as [Hx Hrep].
  apply fmap_nil_inv in Hx. subst xs. split; [done|].
  apply (f_equal length) in Hrep. rewrite length_replicate in Hrep. simpl in *. lia.
Qed.

(** Replacing the elements of a well-formed vector by as many others
    leaves it well-formed. *)
Lemma owns_update h v xs ys :
  owns h v xs ->
  length ys = length xs ->
  owns (update_region h (buffer_ (data_ v)) (block_of ys (capacity_ (data_ v)))) v ys.
Proof.
  intros Hown Hlen. pose proof Hown as (Hsz & Hcap & Hreg). pose proof max_size_le as Hms.
  split; [lia|]. split; [done|].
  apply region_update_eq. intros Hn.
  destruct (owns_null _ _ _ Hown Hn) as [-> ->].
  by destruct ys.
Qed.

(** Writing to the block of a well-formed vector adds no block and removes
    none. *)
Lemma dom_update_region h v xs blk :
  owns h v xs ->
  dom (update_region h (buffer_ (data_ v)) blk) = dom h.
Proof.
  intros (_ & _ & Hreg). destruct (buffer_ (data_ v)) as [a|]; simpl in *; [|done].
  apply dom_insert_lookup_L. eauto.
Qed.

Lemma block_of_split xs cap :
  block_of xs cap = [] ++ (Some <$> xs) ++ replicate (Z.to_nat cap - length xs) None.
Proof. done. Qed.


End VecLogic.

Section Quiet.
Context {T : Type} `{!Element T} `{!Faults T}.

(** No operation of [T] ever throws. *)
Definition elements_never_throw : Prop :=
  forall tr (op : ElemOp T), elem_throws tr op = false.

Lemma throws_now_quiet tr (op : ElemOp T) :
  elements_never_throw -> throws_now tr op = false.
Proof.
  intros Hq. unfold throws_now. destruct op; try apply Hq.
  destruct is_nothrow_move_constructible; [done|apply Hq].
Qed.

Lemma post_ok_of_no_throw {O A} (r : Result T O A) Q (P : Prop) :
  post r Q (fun _ => P) -> ~ P -> exists a s', r = Ok a s' /\ Q a s'.
Proof. destruct r; simpl; try done. eauto. Qed.
End Quiet.

(* ===================================================================== *)
(** * The properties of the specification *)
(* ===================================================================== *)

Section Reserve.
Context {T : Type} `{!Element T} `{!Faults T}.
Implicit Types (s : State T Vector) (v : Vector) (xs : list T).

End Reserve.

Section Resize.
Context {T : Type} `{!Element T} `{!Faults T}.
Implicit Types (s : State T Vector) (v : Vector) (xs : list T).

Lemma wrap_small z : 0 <= z <= PTRDIFF_MAX + 1 -> wrap z = z.
Proof.
  intros Hz. unfold wrap, size_mod. apply Z.mod_small.
  unfold PTRDIFF_MAX in Hz. lia.
Qed.


End Resize.

(* ===================================================================== *)
(** * What leaves the objects alone *)
(* ===================================================================== *)

Section Frame.
Context {T : Type} `{!Element T} `{!Faults T} {O : Type}.
Implicit Types (s : State T O).

(** [m] never changes the store of objects: it works on the heap and the
    trace only. *)
Definition keeps_objs {A} (m : M T O A) : Prop :=
  forall s, match m s with
            | Ok _ s' | Throw s' => objs s' = objs s
            | _ => True
            end.

Lemma keeps_ret {A} (a : A) : keeps_objs (mret a : M T O A).
Proof. intros s. done. Qed.

Lemma keeps_bind {A B} (m : M T O A) (k : A -> M T O B) :
  keeps_objs m -> (forall a, keeps_objs (k a)) -> keeps_objs (m ≫= k).
Proof.
  intros Hm Hk s. rewrite bind_unfold. specialize (Hm s).
  destruct (m s) as [a s1|s1| |]; try done.
  specialize (Hk a s1). destruct (k a s1); try done; congruence.
Qed.

Lemma keeps_on_unwind {A} (m : M T O A) hd :
  keeps_objs m -> keeps_objs hd -> keeps_objs (on_unwind m hd).
Proof.
  intros Hm Hh s. unfold on_unwind. specialize (Hm s).
  destruct (m s) as [a s1|s1| |]; try done.
  specialize (Hh s1). destruct (hd s1); try done; congruence.
Qed.

Lemma keeps_for_range (body : Z -> M T O unit) n : forall i,
  (forall j, keeps_objs (body j)) -> keeps_objs (for_range i n body).
Proof.
  induction n as [|n IH]; intros i Hb; simpl.
  - apply keeps_ret.
  - apply keeps_bind; [apply Hb|]. intros _. by apply IH.
Qed.

Lemma keeps_undefined {A} : keeps_objs (undefined : M T O A).
Proof. intros s. done. Qed.

Lemma keeps_read_slot p : keeps_objs (read_slot p : M T O _).
Proof. intros s. unfold read_slot. by destruct (slot_at _ _). Qed.

Lemma keeps_write_slot p x : keeps_objs (write_slot p x : M T O _).
Proof. intros s. unfold write_slot. by destruct (set_slot _ _ _). Qed.

Lemma keeps_construct op : keeps_objs (construct op : M T O _).
Proof. intros s. unfold construct. by destruct (throws_now _ _). Qed.

Lemma keeps_assign op : keeps_objs (assign op : M T O _).
Proof. intros s. unfold assign. by destruct (throws_now _ _). Qed.

Lemma keeps_emit e : keeps_objs (emit e : M T O _).
Proof. intros s. done. Qed.

Lemma keeps_load p : keeps_objs (load p : M T O _).
Proof.
  apply keeps_bind; [apply keeps_read_slot|].
  intros [v|]; [apply keeps_ret|apply keeps_undefined].
Qed.

Lemma keeps_construct_at p op : keeps_objs (construct_at p op : M T O _).
Proof.
  apply keeps_bind; [apply keeps_read_slot|].
  intros [v|]; [apply keeps_undefined|].
  apply keeps_bind; [apply keeps_construct|]. intros v. apply keeps_write_slot.
Qed.

Lemma keeps_destroy_at p : keeps_objs (destroy_at p : M T O _).
Proof.
  apply keeps_bind; [apply keeps_load|]. intros v.
  apply keeps_bind; [apply keeps_emit|]. intros _. apply keeps_write_slot.
Qed.

Lemma keeps_copy_construct_at p q : keeps_objs (copy_construct_at p q : M T O _).
Proof. apply keeps_bind; [apply keeps_load|]. intros v. apply keeps_construct_at. Qed.

Lemma keeps_move_construct_at p q : keeps_objs (move_construct_at p q : M T O _).
Proof.
  apply keeps_bind; [apply keeps_load|]. intros v.
  apply keeps_bind; [apply keeps_construct_at|]. intros _. apply keeps_write_slot.
Qed.

Lemma keeps_copy_assign_at p q : keeps_objs (copy_assign_at p q : M T O _).
Proof.
  apply keeps_bind; [apply keeps_load|]. intros v.
  apply keeps_bind; [apply keeps_load|]. intros d.
  apply keeps_bind; [apply keeps_assign|]. intros _. apply keeps_write_slot.
Qed.

Lemma keeps_move_assign_at p q : keeps_objs (move_assign_at p q : M T O _).
Proof.
  apply keeps_bind; [apply keeps_load|]. intros v.
  apply keeps_bind; [apply keeps_load|]. intros d.
  apply keeps_bind; [apply keeps_assign|]. intros _.
  apply keeps_bind; [apply keeps_write_slot|]. intros _. apply keeps_write_slot.
Qed.

Lemma keeps_move_assign_from p v : keeps_objs (move_assign_from p v : M T O _).
Proof.
  apply keeps_bind; [apply keeps_load|]. intros d.
  apply keeps_bind; [apply keeps_assign|]. intros _. apply keeps_write_slot.
Qed.

Lemma keeps_ptr_diff p q : keeps_objs (ptr_diff p q : M T O _).
Proof. unfold ptr_diff. case_bool_decide; [apply keeps_ret|apply keeps_undefined]. Qed.

Lemma keeps_destroy_n p n : keeps_objs (destroy_n p n : M T O _).
Proof. apply keeps_for_range. intros j. apply keeps_destroy_at. Qed.

Lemma keeps_uninitialized_copy_n p n q :
  keeps_objs (uninitialized_copy_n p n q : M T O _).
Proof.
  apply keeps_for_range. intros j.
  apply keeps_on_unwind; [apply keeps_copy_construct_at|apply keeps_destroy_n].
Qed.

Lemma keeps_uninitialized_move_n p n q :
  keeps_objs (uninitialized_move_n p n q : M T O _).
Proof.
  apply keeps_for_range. intros j.
  apply keeps_on_unwind; [apply keeps_move_construct_at|apply keeps_destroy_n].
Qed.

Lemma keeps_uninitialized_value_construct_n p n :
  keeps_objs (uninitialized_value_construct_n p n : M T O _).
Proof.
  apply keeps_for_range. intros j.
  apply keeps_on_unwind; [apply keeps_construct_at|apply keeps_destroy_n].
Qed.

Lemma keeps_range_length p q : keeps_objs (range_length p q : M T O _).
Proof.
  unfold range_length, ptr_distance.
  case_bool_decide; [|apply keeps_undefined].
  intros s. rewrite bind_unfold, ret_unfold. by destruct (_ <? 0).
Qed.

Lemma keeps_std_copy p q r : keeps_objs (std_copy p q r : M T O _).
Proof.
  apply keeps_bind; [apply keeps_range_length|]. intros n.
  apply keeps_for_range. intros j. apply keeps_copy_assign_at.
Qed.

Lemma keeps_std_move_backward p q r : keeps_objs (std_move_backward p q r : M T O _).
Proof.
  apply keeps_bind; [apply keeps_range_length|]. intros n.
  apply keeps_for_range. intros j. apply keeps_move_assign_at.
Qed.

Lemma keeps_ctor k : keeps_objs (RawMem.ctor k : M T O _).
Proof.
  intros s. rewrite ctor_any.
  destruct (k =? 0); [done|]. cbv zeta. by destruct (_ || _).
Qed.

Lemma keeps_dtor r : keeps_objs (RawMem.dtor r : M T O _).
Proof.
  intros s. unfold RawMem.dtor, RawMem.Deallocate, RawMem.operator_delete.
  destruct (buffer_ r); [|done]. by destruct (heap s !! _).
Qed.

Lemma bind_ok_inv {A B} (m : M T O A) (k : A -> M T O B) s b s' :
  (m ≫= k) s = Ok b s' -> exists a s1, m s = Ok a s1 /\ k a s1 = Ok b s'.
Proof. rewrite bind_unfold. destruct (m s); try done. eauto. Qed.

Lemma on_unwind_ok_inv {A} (m : M T O A) hd s a s' :
  on_unwind m hd s = Ok a s' -> m s = Ok a s'.
Proof. unfold on_unwind. destruct (m s) as [| s1 | |]; try done. by destruct (hd s1). Qed.

Lemma keeps_ok {A} (m : M T O A) s a s' :
  keeps_objs m -> m s = Ok a s' -> objs s' = objs s.
Proof. intros Hk He. specialize (Hk s). by rewrite He in Hk. Qed.

Lemma keeps_throw {A} (m : M T O A) s s' :
  keeps_objs m -> m s = Throw s' -> objs s' = objs s.
Proof. intros Hk He. specialize (Hk s). by rewrite He in Hk. Qed.
End Frame.

Create HintDb keeps.
#[local] Hint Resolve keeps_ret keeps_undefined keeps_read_slot keeps_write_slot
  keeps_construct keeps_assign keeps_emit keeps_load keeps_construct_at
  keeps_destroy_at keeps_copy_construct_at keeps_move_construct_at
  keeps_copy_assign_at keeps_move_assign_at keeps_move_assign_from keeps_ptr_diff
  keeps_destroy_n keeps_uninitialized_copy_n keeps_uninitialized_move_n
  keeps_uninitialized_value_construct_n keeps_std_copy keeps_std_move_backward
  keeps_ctor keeps_dtor : keeps.

(** Splits a computation along its binds and handlers. *)
Ltac keeps :=
  repeat first
    [ progress auto with keeps
    | apply keeps_bind; [|intros ?]
    | apply keeps_on_unwind
    | match goal with |- keeps_objs (if ?c then _ else _) => destruct c end ].

Section Growth.
Context {T : Type} `{!Element T} `{!Faults T}.
Implicit Types (s : State T Vector) (v : Vector) (xs : list T).

Lemma grown_max size :
  0 <= size <= PTRDIFF_MAX -> Vec.grown size = Z.max 1 (2 * size).
Proof.
  intros Hs. unfold Vec.grown. destruct (Z.eqb_spec size 0) as [->|Hne]; [done|].
  unfold wrap, size_mod. unfold PTRDIFF_MAX in Hs. rewrite Z.mod_small by lia. lia.
Qed.

Lemma keeps_relocate_n p n q : keeps_objs (Vec.relocate_n p n q).
Proof. unfold Vec.relocate_n. keeps. Qed.

(** The growing branch of every insertion: a new block of the grown
    capacity, the [body] that fills it, the swap and the release of the old
    block. When it completes, the object has the new block and its size is
    as before. *)
Lemma growth_block (body : RawMemory -> M T Vector unit) s this v size s' :
  (forall nd, keeps_objs (body nd)) ->
  objs s !! this = Some v ->
  0 <= size <= PTRDIFF_MAX ->
  (new_data ← RawMem.ctor (Vec.grown size);
   on_unwind (body new_data) (RawMem.dtor new_data);;
   let '(data', new_data') := RawMem.Swap (data_ v) new_data in
   Vec.set_data this data';;
   RawMem.dtor new_data') s = Ok tt s' ->
  exists b,
    objs s' = <[this := {| data_ := {| buffer_ := b; capacity_ := Z.max 1 (2 * size) |};
                           size_ := size_ v |}]> (objs s).
Proof.
  intros Hbody Hobj Hsize H.
  apply bind_ok_inv in H as (nd & s1 & Hctor & H).
  pose proof (keeps_ok _ _ _ _ (keeps_ctor _) Hctor) as Ho1.
  assert (Hnd : capacity_ nd = Z.max 1 (2 * size)).
  { rewrite ctor_any in Hctor. rewrite <- (grown_max size) by done.
    destruct (_ =? 0); [by injection Hctor as <- _|]. cbv zeta in Hctor.
    destruct (_ || _); [done|]. by injection Hctor as <- _. }
  apply bind_ok_inv in H as ([] & s2 & Hblock & H).
  apply on_unwind_ok_inv in Hblock.
  pose proof (keeps_ok _ _ _ _ (Hbody nd) Hblock) as Ho2.
  cbn [RawMem.Swap] in H.
  apply bind_ok_inv in H as ([] & s3 & Hset & H).
  erewrite set_data_ok in Hset; [|by rewrite Ho2, Ho1].
  injection Hset as <-.
  pose proof (keeps_ok _ _ _ _ (keeps_dtor _) H) as Ho4.
  exists (buffer_ nd). rewrite Ho4. cbn [with_obj objs].
  by rewrite Ho2, Ho1, <- Hnd.
Qed.

(** What a growing insertion does to the object: twice the capacity, at
    least one, and one element more. *)
Definition grows_at this v s' : Prop :=
  exists b,
    objs s' !! this
      = Some {| data_ := {| buffer_ := b;
                            capacity_ := Z.max 1 (2 * capacity_ (data_ v)) |};
                size_ := size_ v + 1 |}.

Lemma keeps_get_obj (this : loc) : keeps_objs (get_obj this : M T Vector Vector).
Proof. intros s. unfold get_obj. by destruct (objs s !! this). Qed.

Lemma keeps_begin_ (this : loc) : keeps_objs (Vec.begin_ this : M T Vector Ptr).
Proof. unfold Vec.begin_, Vec.get_data. pose proof keeps_get_obj. keeps. Qed.

Lemma ptr_diff_inv q p n s s' :
  (ptr_diff q p : M T Vector Z) s = Ok n s' -> s' = s.
Proof. unfold ptr_diff. case_bool_decide; [|done]. by intros [= _ ->]. Qed.

(** The steps every proof below goes through after the growing branch:
    [++size_] and the reads that build the result. *)
Ltac after_growth H Hblock Ho1 b :=
  let s2 := fresh "s" in
  let Hset := fresh "Hset" in
  eapply (growth_block (fun new_data => _)) in Hblock as (b & Ho1);
    [|intros ?; pose proof keeps_relocate_n; pose proof keeps_begin_; keeps|done|lia];
  apply bind_ok_inv in H as ([] & s2 & Hset & H);
  (erewrite set_size_ok in Hset; [|by rewrite Ho1, lookup_insert_eq]);
  injection Hset as <-.

Lemma EmplaceBack_grows s this v args r s' :
  objs s !! this = Some v -> 0 <= size_ v <= PTRDIFF_MAX ->
  size_ v = capacity_ (data_ v) ->
  Vec.EmplaceBack this args s = Ok r s' ->
  grows_at this v s'.
Proof.
  intros Hobj Hcap Hfull H. unfold Vec.EmplaceBack in H. unfold grows_at.
  erewrite bind_ok in H; [|by eapply get_size_ok].
  erewrite bind_ok in H; [|by eapply Capacity_ok].
  erewrite bind_ok in H; [|by eapply get_data_ok].
  rewrite <- Hfull, Z.eqb_refl in H.
  apply bind_ok_inv in H as ([] & s1 & Hblock & H).
  after_growth H Hblock Ho1 b.
  apply bind_ok_inv in H as (d & s3 & Hgd & H).
  apply bind_ok_inv in H as (sz & s4 & Hgs & H).
  apply get_data_inv in Hgd as ->. apply get_size_inv in Hgs as ->.
  injection H as _ <-.
  exists b. cbn [with_obj objs]. rewrite lookup_insert_eq.
  rewrite wrap_small by lia. by rewrite Hfull.
Qed.

Lemma PushBack_with_grows s this v op r s' :
  objs s !! this = Some v -> 0 <= size_ v <= PTRDIFF_MAX ->
  size_ v = capacity_ (data_ v) ->
  VectorH.PushBack_with this op s = Ok r s' ->
  grows_at this v s'.
Proof.
  intros Hobj Hcap Hfull H. unfold VectorH.PushBack_with in H. unfold grows_at.
  erewrite bind_ok in H; [|by eapply get_size_ok].
  erewrite bind_ok in H; [|by eapply Capacity_ok].
  erewrite bind_ok in H; [|by eapply get_data_ok].
  rewrite <- Hfull, Z.eqb_refl in H.
  apply bind_ok_inv in H as ([] & s1 & Hblock & H).
  eapply (growth_block (fun new_data => _)) in Hblock as (b & Ho1);
    [|intros ?; pose proof keeps_relocate_n; keeps|done|lia].
  erewrite set_size_ok in H; [|by rewrite Ho1, lookup_insert_eq].
  injection H as _ <-.
  exists b. cbn [with_obj objs]. rewrite lookup_insert_eq.
  rewrite wrap_small by lia. by rewrite Hfull.
Qed.

Lemma Emplace_body_grows s this v pos args r s' :
  objs s !! this = Some v -> 0 <= size_ v <= PTRDIFF_MAX ->
  size_ v = capacity_ (data_ v) ->
  VecCommon.Emplace_body this pos args s = Ok r s' ->
  grows_at this v s'.
Proof.
  intros Hobj Hcap Hfull H. unfold VecCommon.Emplace_body in H. unfold grows_at.
  erewrite bind_ok in H; [|by eapply get_data_ok].
  apply bind_ok_inv in H as (index & s0 & Hdiff & H).
  apply ptr_diff_inv in Hdiff as ->.
  erewrite bind_ok in H; [|by eapply get_size_ok].
  erewrite bind_ok in H; [|by eapply Capacity_ok].
  rewrite <- Hfull, Z.eqb_refl in H.
  apply bind_ok_inv in H as ([] & s1 & Hblock & H).
  after_growth H Hblock Ho1 b.
  apply bind_ok_inv in H as (d & s3 & Hgd & H).
  apply get_data_inv in Hgd as ->.
  injection H as _ <-.
  exists b. cbn [with_obj objs]. rewrite lookup_insert_eq.
  rewrite wrap_small by lia. by rewrite Hfull.
Qed.

Lemma VectorH_Insert_grows s this v pos value r s' :
  objs s !! this = Some v -> 0 <= size_ v <= PTRDIFF_MAX ->
  size_ v = capacity_ (data_ v) ->
  VectorH.Insert this pos value s = Ok r s' ->
  grows_at this v s'.
Proof.
  intros Hobj Hcap Hfull H. unfold VectorH.Insert in H. unfold grows_at.
  erewrite bind_ok in H; [|by eapply get_data_ok].
  apply bind_ok_inv in H as (index & s0 & Hdiff & H).
  apply ptr_diff_inv in Hdiff as ->.
  erewrite bind_ok in H; [|by eapply get_size_ok].
  erewrite bind_ok in H; [|by eapply Capacity_ok].
  rewrite <- Hfull, Z.eqb_refl in H.
  apply bind_ok_inv in H as ([] & s1 & Hblock & H).
  after_growth H Hblock Ho1 b.
  apply bind_ok_inv in H as (d & s3 & Hgd & H).
  apply get_data_inv in Hgd as ->.
  injection H as _ <-.
  exists b. cbn [with_obj objs]. rewrite lookup_insert_eq.
  rewrite wrap_small by lia. by rewrite Hfull.
Qed.

Lemma VectorH_Insert_rvalue_grows s this v pos value r s' :
  objs s !! this = Some v -> 0 <= size_ v <= PTRDIFF_MAX ->
  size_ v = capacity_ (data_ v) ->
  VectorH.Insert_rvalue this pos value s = Ok r s' ->
  grows_at this v s'.
Proof.
  intros Hobj Hcap Hfull H. unfold VectorH.Insert_rvalue in H. unfold grows_at.
  erewrite bind_ok in H; [|by eapply get_data_ok].
  apply bind_ok_inv in H as (index & s0 & Hdiff & H).
  apply ptr_diff_inv in Hdiff as ->.
  erewrite bind_ok in H; [|by eapply get_size_ok].
  erewrite bind_ok in H; [|by eapply Capacity_ok].
  rewrite <- Hfull, Z.eqb_refl in H.
  apply bind_ok_inv in H as ([] & s1 & Hblock & H).
  after_growth H Hblock Ho1 b.
  apply bind_ok_inv in H as (d & s3 & Hgd & H).
  apply get_data_inv in Hgd as ->.
  injection H as _ <-.
  exists b. cbn [with_obj objs]. rewrite lookup_insert_eq.
  rewrite wrap_small by lia. by rewrite Hfull.
Qed.

(** The [assert] of [part_000] reads and compares; it changes nothing. *)
Lemma assert_valid_pos_inv s this pos s' :
  Part000.assert_valid_pos this pos s = Ok tt s' -> s' = s.
Proof.
  unfold Part000.assert_valid_pos, Vec.begin_, Vec.end_. intros H.
  apply bind_ok_inv in H as (first & s1 & H1 & H).
  apply bind_ok_inv in H1 as (d1 & s1' & H1 & [= _ <-]).
  apply get_data_inv in H1 as ->.
  apply bind_ok_inv in H as (c1 & s2 & H2 & H).
  unfold ptr_le in H2. case_bool_decide; [|done]. injection H2 as <- <-.
  destruct (_ <=? _); [|done].
  apply bind_ok_inv in H as (last & s3 & H3 & H).
  apply bind_ok_inv in H3 as (d3 & s3' & H3 & H3').
  apply get_data_inv in H3 as ->.
  apply bind_ok_inv in H3' as (n3 & s3'' & H3' & [= _ <-]).
  apply get_size_inv in H3' as ->.
  apply bind_ok_inv in H as (c2 & s4 & H4 & H).
  unfold ptr_lt in H4. case_bool_decide; [|done]. injection H4 as <- <-.
  unfold assert in H. destruct (_ <? _); [|done]. by injection H as <-.
Qed.

Lemma Part000_Emplace_grows s this v pos args r s' :
  objs s !! this = Some v -> 0 <= size_ v <= PTRDIFF_MAX ->
  size_ v = capacity_ (data_ v) ->
  Part000.Emplace this pos args s = Ok r s' ->
  grows_at this v s'.
Proof.
  intros Hobj Hcap Hfull H. unfold Part000.Emplace in H.
  apply bind_ok_inv in H as ([] & s1 & Ha & H).
  apply assert_valid_pos_inv in Ha as ->.
  by eapply Emplace_body_grows.
Qed.

Lemma Part000_PushBack_grows s this v value r s' :
  objs s !! this = Some v -> 0 <= size_ v <= PTRDIFF_MAX ->
  size_ v = capacity_ (data_ v) ->
  Part000.PushBack this value s = Ok r s' \/
  Part000.PushBack_rvalue this value s = Ok r s' ->
  grows_at this v s'.
Proof.
  intros Hobj Hcap Hfull [H|H];
    apply bind_ok_inv in H as (p & s1 & H & [= _ <-]);
    by eapply EmplaceBack_grows.
Qed.
End Growth.

(* ===================================================================== *)
(** * Running the code *)
(* ===================================================================== *)

Section Observe.
Context {T : Type} `{!Element T} `{!Faults T}.

(** The elements of a vector as a client reads them: [v[0]], ...,
    [v[Size() - 1]]. *)
Fixpoint read_from (this : loc) (i : Z) (n : nat) : M T Vector (list T) :=
  match n with
  | 0%nat => mret []
  | S n' =>
      p ← Vec.subscript this i;
      x ← load p;
      xs ← read_from this (i + 1) n';
      mret (x :: xs)
  end.

(** [Size()], [Capacity()] and the elements. *)
Definition observe (this : loc) : M T Vector (Z * Z * list T) :=
  size ← Vec.Size this;
  cap ← Vec.Capacity this;
  xs ← read_from this 0 (Z.to_nat size);
  mret (size, cap, xs).

(** The scenario of the specification over the [PushBack], [Insert] and
    [Erase] of a draft: start empty, push three values, insert one at
    [begin() + 1], erase at [begin()], observing the vector after each
    step. *)
Definition scenario
    (PushBack : loc -> T -> M T Vector unit)
    (Insert : loc -> Ptr -> T -> M T Vector Ptr)
    (Erase : loc -> Ptr -> M T Vector Ptr)
    (x1 x2 x3 x4 : T) : M T Vector (list (Z * Z * list T)) :=
  v ← Vec.ctor_default;
  o0 ← observe v;
  PushBack v x1;;
  o1 ← observe v;
  PushBack v x2;;
  o2 ← observe v;
  PushBack v x3;;
  o3 ← observe v;
  first ← Vec.begin_ v;
  Insert v (ptr_add first 1) x4;;
  o4 ← observe v;
  first ← Vec.begin_ v;
  Erase v first;;
  o5 ← observe v;
  mret [o0; o1; o2; o3; o4; o5].
End Observe.

(** The value an outcome carries, if it is a normal completion. *)
Definition returned {T O A} (r : Result T O A) : option A :=
  match r with
  | Ok a _ => Some a
  | _ => None
  end.


(* ===================================================================== *)
(** * Assignment to itself, and moves *)
(* ===================================================================== *)

Section Moves.
Context {T : Type} {elem : Element T} {env : Faults T}.
Implicit Types (s : State T Vector) (v r : Vector) (xs ys : list T).

(** C10. Assigning a vector to itself, by copy (in either draft) or by
    move, returns normally and leaves the whole state as it was: the object,
    the heap and the trace, so no element is constructed, assigned or
    destroyed and nothing is allocated or released. *)
Theorem self_assignment_is_noop s (this : loc) :
  VectorH.copy_assign this this s = Ok tt s /\
  Part000.copy_assign this this s = Ok tt s /\
  Vec.move_assign this this s = Ok tt s.
Proof.
  unfold VectorH.copy_assign, Part000.copy_assign, Vec.move_assign.
  rewrite Nat.eqb_refl. done.
Qed.

Lemma Swap_distinct s this other v o :
  objs s !! this = Some v ->
  objs s !! other = Some o ->
  Vec.Swap this other s =
    Ok tt {| heap := heap s;
             objs := <[this := {| data_ := {| buffer_ := buffer_ (data_ o);
                                              capacity_ := capacity_ (data_ o) |};
                                  size_ := size_ o |}]>
                       (<[other := {| data_ := {| buffer_ := buffer_ (data_ v);
                                                 capacity_ := capacity_ (data_ v) |};
                                      size_ := size_ v |}]> (objs s));
             trace := trace s |}.
Proof.
  intros Hv Ho. unfold Vec.Swap.
  erewrite bind_ok; [|by apply get_obj_ok].
  erewrite bind_ok; [|by apply get_obj_ok].
  done.
Qed.

Lemma Vector_eta v :
  {| data_ := {| buffer_ := buffer_ (data_ v); capacity_ := capacity_ (data_ v) |};
     size_ := size_ v |} = v.
Proof. by destruct v as [[] ?]. Qed.

(** The empty vector a moved-from source is left as. *)
Definition empty_vector : Vector :=
  {| data_ := {| buffer_ := None; capacity_ := 0 |}; size_ := 0 |}.

Lemma owns_empty (h : gmap addr (list (option T))) : owns h empty_vector [].
Proof.
  unfold owns, empty_vector. simpl. pose proof max_size_pos.
  split; [done|]. split; [lia|done].
Qed.

(** C3, as the code has it. For two distinct vectors, move assignment
    returns normally with the heap and the trace untouched (nothing is
    allocated, no element is copied, moved or destroyed) and with the two
    objects exchanged: the receiver is exactly what the source was (same
    block, size and elements) and the source is exactly what the receiver
    was, hence empty only if the receiver was. Move construction returns
    normally, heap and trace untouched, with the new object being exactly
    what the source was and the source an empty, valid vector. *)
Theorem move_exchanges_storage s (this rhs : loc) v r xs ys :
  this ≠ rhs ->
  objs s !! this = Some v -> owns (heap s) v xs ->
  objs s !! rhs = Some r -> owns (heap s) r ys ->
  (exists s',
     Vec.move_assign this rhs s = Ok tt s' /\
     heap s' = heap s /\ trace s' = trace s /\
     objs s' !! this = Some r /\ owns (heap s') r ys /\
     objs s' !! rhs = Some v /\ owns (heap s') v xs) /\
  (exists s' new,
     Vec.ctor_move rhs s = Ok new s' /\
     objs s !! new = None /\
     heap s' = heap s /\ trace s' = trace s /\
     objs s' !! new = Some r /\ owns (heap s') r ys /\
     objs s' !! rhs = Some empty_vector /\ owns (heap s') empty_vector []).
Proof.
  intros Hne Hv Hxs Hr Hys. split.
  - unfold Vec.move_assign.
    destruct (Nat.eqb_spec this rhs); [done|]. simpl.
    rewrite (Swap_distinct _ _ _ _ _ Hv Hr). rewrite !Vector_eta.
    eexists. split; [done|]. simpl.
    rewrite lookup_insert_eq, lookup_insert_ne, lookup_insert_eq by done. done.
  - unfold Vec.ctor_move. rewrite bind_unfold. unfold new_obj.
    set (new := fresh (dom (objs s))).
    assert (Hfresh : objs s !! new = None).
    { apply not_elem_of_dom. apply is_fresh. }
    assert (Hnew : new ≠ rhs) by congruence.
    rewrite bind_unfold.
    erewrite Swap_distinct; cycle 1.
    { simpl. apply lookup_insert_eq. }
    { simpl. rewrite lookup_insert_ne by done. exact Hr. }
    rewrite ret_unfold. rewrite !Vector_eta. simpl.
    eexists _, new. split; [done|]. simpl.
    rewrite lookup_insert_eq, lookup_insert_ne, lookup_insert_eq by done.
    split; [done|]. do 5 (split; [done|]). apply owns_empty.
Qed.
End Moves.

Section RawMoves.
Context {T : Type} {env : Faults T}.
Implicit Types (s : State T RawMemory) (r o : RawMemory).

(** A [RawMemory] that holds no memory. *)
Definition no_memory : RawMemory := {| buffer_ := None; capacity_ := 0 |}.

Lemma RawMemory_eta r : {| buffer_ := buffer_ r; capacity_ := capacity_ r |} = r.
Proof. by destruct r. Qed.

Lemma Swap_at_distinct s this other r o :
  objs s !! this = Some r ->
  objs s !! other = Some o ->
  RawMem.Swap_at this other s =
    Ok tt {| heap := heap s;
             objs := <[this := o]> (<[other := r]> (objs s));
             trace := trace s |}.
Proof.
  intros Hr Ho. unfold RawMem.Swap_at.
  erewrite bind_ok; [|by apply get_obj_ok].
  erewrite bind_ok; [|by apply get_obj_ok].
  unfold RawMem.Swap. rewrite !RawMemory_eta. done.
Qed.

(** Destroying a [RawMemory] that holds no memory releases nothing. *)
Lemma dtor_at_no_memory s l :
  objs s !! l = Some no_memory ->
  exists s', RawMem.dtor_at l s = Ok tt s' /\ heap s' = heap s /\ trace s' = trace s.
Proof.
  intros Hl. unfold RawMem.dtor_at.
  erewrite bind_ok; [|by apply get_obj_ok].
  eexists. split; [done|]. done.
Qed.

(** C4, as the code has it. Move construction, in both drafts, returns
    with heap and trace untouched, gives the new object the address and
    capacity of the source and leaves the source with no memory (null
    address, capacity 0), so that destroying the source releases nothing.
    Move assignment between distinct objects exchanges the two: the
    receiver gets the address and capacity of the source and the source gets
    those of the receiver; in [part_000] for every receiver, in [vector.h]
    for a receiver that holds no memory. So the moved-from object holds no
    memory exactly when the receiver held none. *)
Theorem RawMemory_move_contract s (this other : loc) r o :
  this ≠ other ->
  objs s !! this = Some r ->
  objs s !! other = Some o ->
  (forall ctor_move,
     ctor_move = VectorH.RawMemory_ctor_move \/ ctor_move = Part000.RawMemory_ctor_move ->
     exists s' new,
       ctor_move other s = Ok new s' /\
       objs s !! new = None /\
       heap s' = heap s /\ trace s' = trace s /\
       objs s' !! new = Some o /\
       objs s' !! other = Some no_memory /\
       exists s'', RawMem.dtor_at other s' = Ok tt s'' /\
                   heap s'' = heap s' /\ trace s'' = trace s') /\
  (exists s',
     Part000.RawMemory_move_assign this other s = Ok tt s' /\
     heap s' = heap s /\ trace s' = trace s /\
     objs s' !! this = Some o /\ objs s' !! other = Some r) /\
  (buffer_ r = None ->
   exists s',
     VectorH.RawMemory_move_assign this other s = Ok tt s' /\
     heap s' = heap s /\ trace s' = trace s /\
     objs s' !! this = Some o /\ objs s' !! other = Some r).
Proof.
  intros Hne Hr Ho.
  set (new := fresh (dom (objs s))).
  assert (Hfresh : objs s !! new = None).
  { apply not_elem_of_dom. apply is_fresh. }
  assert (Hnew : new ≠ other) by congruence.
  split; [|split].
  - intros ctor_move [-> | ->].
    + unfold VectorH.RawMemory_ctor_move.
      erewrite bind_ok; [|by apply get_obj_ok].
      rewrite RawMemory_eta. rewrite bind_unfold. unfold new_obj. fold new.
      rewrite bind_unfold. simpl.
      eexists _, new. split; [done|]. simpl.
      rewrite lookup_insert_eq, lookup_insert_ne, lookup_insert_eq by done.
      do 5 (split; [done|]).
      refine (dtor_at_no_memory {| heap := heap s; objs := _; trace := trace s |} other _).
      simpl. by rewrite lookup_insert_eq.
    + unfold Part000.RawMemory_ctor_move. rewrite bind_unfold. unfold new_obj. fold new.
      rewrite bind_unfold.
      erewrite Swap_at_distinct; cycle 1.
      { simpl. apply lookup_insert_eq. }
      { simpl. rewrite lookup_insert_ne by done. exact Ho. }
      rewrite ret_unfold. simpl.
      eexists _, new. split; [done|]. simpl.
      rewrite lookup_insert_eq, lookup_insert_ne, lookup_insert_eq by done.
      do 5 (split; [done|]).
      refine (dtor_at_no_memory {| heap := heap s; objs := _; trace := trace s |} other _).
      simpl. rewrite lookup_insert_ne, lookup_insert_eq by done. done.
  - unfold Part000.RawMemory_move_assign.
    destruct (Nat.eqb_spec this other); [done|]. simpl.
    rewrite (Swap_at_distinct _ _ _ _ _ Hr Ho).
    eexists. split; [done|]. simpl.
    rewrite lookup_insert_eq, lookup_insert_ne, lookup_insert_eq by done. done.
  - intros Hnull. unfold VectorH.RawMemory_move_assign.
    destruct (Nat.eqb_spec this other); [done|]. simpl.
    erewrite bind_ok; [|by apply get_obj_ok].
    rewrite Hnull. simpl. rewrite bind_unfold, ret_unfold.
    rewrite (Swap_at_distinct _ _ _ _ _ Hr Ho).
    eexists. split; [done|]. simpl.
    rewrite lookup_insert_eq, lookup_insert_ne, lookup_insert_eq by done. done.
Qed.
End RawMoves.

Section PopBackEmpty.
Context {T : Type} {elem : Element T} {env : Faults T}.
Implicit Types (s : State T Vector) (v : Vector).

(** C2, the draft [vector.h]: on a vector of size 0, [PopBack] computes
    the index [size_ - 1], which wraps around to [2^64 - 1], and runs the
    destructor on that slot, which lies outside every block: the behaviour
    is undefined. *)
Theorem VectorH_PopBack_empty_undefined s (this : loc) v :
  objs s !! this = Some v ->
  owns (heap s) v [] ->
  VectorH.PopBack this s = Undefined.
Proof.
  intros Hobj (Hsz & Hcap & Hreg). simpl in Hsz. pose proof max_size_le as Hms.
  unfold VectorH.PopBack.
  erewrite bind_ok; [|by eapply get_data_ok].
  erewrite bind_ok; [|by eapply get_size_ok].
  rewrite Hsz. rewrite bind_unfold.
  unfold destroy_at, load, read_slot. rewrite !bind_unfold.
  unfold slot_at, RawMem.at_. cbn [p_base p_off].
  destruct (buffer_ (data_ v)) as [a|]; [|done].
  simpl in Hreg. rewrite Hreg.
  change (wrap (Z.of_nat 0 - 1)) with 18446744073709551615. simpl (0 <=? _).
  rewrite lookup_ge_None_2; [done|].
  unfold block_of. simpl. rewrite length_replicate.
  pose proof max_size_le as Hms2. unfold PTRDIFF_MAX in Hms2. lia.
Qed.

(** The draft [part_000] tests [size_ > 0] first: on a vector of size 0,
    [PopBack] returns at once and the state is as before. *)
Lemma Part000_PopBack_empty_noop s (this : loc) v :
  objs s !! this = Some v ->
  size_ v = 0 ->
  Part000.PopBack this s = Ok tt s.
Proof.
  intros Hobj Hsz. unfold Part000.PopBack.
  erewrite bind_ok; [|by eapply get_size_ok].
  by rewrite Hsz.
Qed.
End PopBackEmpty.

(* ===================================================================== *)
(** * [EmplaceBack], completing and failing *)
(* ===================================================================== *)

Section EmplaceBackSpec.
Context {T : Type} {elem : Element T} {env : Faults T}.
Implicit Types (s : State T Vector) (v : Vector) (xs : list T).

Lemma release_fresh (h : gmap addr (list (option T))) blk blk' :
  release (update_region (<[fresh (dom h) := blk]> h) (Some (fresh (dom h))) blk')
          (Some (fresh (dom h))) = h.
Proof.
  simpl. rewrite insert_insert_eq. rewrite delete_insert_eq.
  apply delete_id. apply not_elem_of_dom. apply is_fresh.
Qed.

Lemma release_fresh_update (h : gmap addr (list (option T))) b X bv blk :
  bv ≠ Some (fresh (dom h)) ->
  release (update_region
             (update_region (<[fresh (dom h) := b]> h) (Some (fresh (dom h))) X) bv blk)
          (Some (fresh (dom h))) = update_region h bv blk.
Proof.
  intros Hne. set (a := fresh (dom h)).
  assert (Hfresh : h !! a = None) by (apply not_elem_of_dom, is_fresh).
  rewrite (update_commute _ (Some a) bv) by done.
  cbn [release update_region]. rewrite delete_insert_eq.
  destruct bv as [a0|]; cbn [update_region].
  - assert (a0 ≠ a) by (intros ->; by apply Hne).
    rewrite delete_insert_ne by done. rewrite delete_insert_eq.
    by rewrite delete_id.
  - rewrite delete_insert_eq. by apply delete_id.
Qed.

(** [EmplaceBack] on a well-formed vector never has undefined behaviour.
    When it returns, the vector has the old elements followed by the new
    one, and the capacity has grown to [max(1, 2 * capacity)] if the vector
    was full and is unchanged otherwise. When it throws, the object is as
    before and the heap is the one before but for the elements [xs1]
    already relocated, which are as a move or a copy leaves them: the heap
    is as before altogether if [T] has a copy constructor or a [noexcept]
    move constructor. Either nothing at all has happened ([operator new] or
    an in-place construction threw), or the new block was released empty
    (the constructor of the new element threw), or the relocation threw and
    the new block was released while the new element was still alive in
    it. *)
Lemma EmplaceBack_spec s this v xs args :
  objs s !! this = Some v ->
  owns (heap s) v xs ->
  post (Vec.EmplaceBack this args s)
    (fun r s' => exists v',
       objs s' = <[this := v']> (objs s) /\
       owns (heap s') v' (xs ++ [op_value (ctor_of args)]) /\
       capacity_ (data_ v') =
         (if size_ v =? capacity_ (data_ v)
          then Z.max 1 (2 * capacity_ (data_ v)) else capacity_ (data_ v)) /\
       r = RawMem.at_ (data_ v') (size_ v) /\
       (forall b blk, b ≠ buffer_ (data_ v) ->
          region (heap s) b = Some blk -> region (heap s') b = Some blk) /\
       (if size_ v =? capacity_ (data_ v)
        then exists a',
          heap s !! a' = None /\
          buffer_ (data_ v') = Some a' /\
          trace s' = trace s
            ++ EvAllocate (Z.max 1 (2 * capacity_ (data_ v))) a'
            :: EvConstruct (ctor_of args) (op_value (ctor_of args))
            :: relocation_events xs ++ (EvDestroy <$> relocated_sources xs)
            ++ release_events (buffer_ (data_ v)) []
        else
          data_ v' = data_ v /\
          trace s' = trace s
            ++ [EvConstruct (ctor_of args) (op_value (ctor_of args))]))
    (fun s' =>
       objs s' = objs s /\
       (is_copy_constructible = true \/ is_nothrow_move_constructible = true ->
        heap s' = heap s) /\
       exists xs1 xs2,
         xs = xs1 ++ xs2 /\
         heap s' = update_region (heap s) (buffer_ (data_ v))
                     (block_of (relocated_sources xs1 ++ xs2) (capacity_ (data_ v))) /\
         (s' = s \/
          (exists a' k,
             trace s' = trace s ++ [EvAllocate k a'; EvDeallocate a' []]) \/
          (exists a' k,
             trace s' = trace s
               ++ EvAllocate k a'
               :: EvConstruct (ctor_of args) (op_value (ctor_of args))
               :: relocation_events xs1 ++ (EvDestroy <$> xs1)
               ++ [EvDeallocate a' [op_value (ctor_of args)]])) /\
         ((size_ v = capacity_ (data_ v) /\
           (PTRDIFF_MAX <? Z.max 1 (2 * size_ v) * sizeof)
           || alloc_throws (trace s) (Z.max 1 (2 * size_ v) * sizeof) = true) \/
          exists tr op, throws_now tr op = true)).
Proof.
  intros Hobj Hown. pose proof Hown as (Hsz & Hcap & Hreg).
  pose proof max_size_le as Hms.
  set (x := op_value (ctor_of args)).
  assert (Hsame : heap s = update_region (heap s) (buffer_ (data_ v))
                    (block_of (relocated_sources [] ++ xs) (capacity_ (data_ v)))).
  { rewrite relocated_sources_nil. symmetry. by apply update_id. }
  unfold Vec.EmplaceBack.
  erewrite bind_ok; [|by eapply get_size_ok].
  erewrite bind_ok; [|by eapply Capacity_ok].
  erewrite bind_ok; [|by eapply get_data_ok].
  destruct (Z.eqb_spec (size_ v) (capacity_ (data_ v))) as [Hfull|Hroom].
  - (* the vector is full: a new block *)
    apply post_bind. apply post_bind. rewrite grown_max by lia.
    rewrite ctor_unfold by (first [lia | apply grown_bytes; lia]).
    set (k := Z.max 1 (2 * size_ v)).
    destruct (Z.eqb_spec k 0); [lia|].
    destruct (_ || _) eqn:Halloc; cbn [post].
    { split; [done|]. split; [done|]. exists [], xs. auto 6. }
    set (a' := fresh (dom (heap s))).
    set (s1 := upd s _ _).
    assert (Hne : buffer_ (data_ v) ≠ Some a') by (by eapply fresh_not_region).
    set (B := replicate (Z.to_nat k - length xs - 1) (None : option T)).
    assert (Hnew : replicate (Z.to_nat k) (None : option T)
              = replicate (length xs) None ++ None :: B).
    { subst B. rewrite <- replicate_add_S. f_equal. lia. }
    apply post_bind. apply post_on_unwind. apply post_bind.
    erewrite (construct_at_middle s1 _ (replicate (length xs) None) B);
      cbn [RawMem.plus p_base p_off].
    2:{ subst s1. cbn [upd heap region buffer_]. by rewrite lookup_insert_eq, Hnew. }
    2:{ rewrite length_replicate. lia. }
    destruct (throws_now (trace s1) (ctor_of args)) eqn:Hctor; cbn [post].
    + (* the constructor of the new element throws *)
      erewrite dtor_region; cbn [buffer_].
      2:{ subst s1. cbn [upd heap region buffer_]. by rewrite lookup_insert_eq. }
      cbn [post]. subst s1. rewrite upd_upd. cbn [upd objs heap trace].
      split; [done|].
      assert (Hh : delete a' (<[a' := replicate (Z.to_nat k) None]> (heap s)) = heap s).
      { rewrite delete_insert_eq. apply delete_id.
        apply not_elem_of_dom. apply is_fresh. }
      cbn [release]. rewrite Hh.
      split; [done|].
      exists [], xs. split; [done|]. split; [exact Hsame|].
      split; [|by eauto].
      right. left. exists a', k. simpl. by rewrite live_None.
    + fold x. set (s2 := upd s1 _ _).
      apply post_bind.
      eapply post_mono.
      * eapply (relocate_n_spec s2 _ _ _ xs [] _ [] (Some x :: B));
          cbn [RawMem.GetAddress p_base p_off].
        -- subst s2 s1. cbn [upd heap].
           rewrite region_update_ne by done.
           change (region (<[a':=?b]> (heap s)) ?y)
             with (region (update_region (heap s) (Some a') b) y).
           rewrite region_update_ne by done. exact Hreg.
        -- done.
        -- subst s2. cbn [upd heap]. by rewrite region_update_eq.
        -- done.
        -- done.
        -- done.
      * intros _ s3 ->. cbn [post].
        set (h3 := update_region _ _ _).
        erewrite destroy_n_ok with (xs := relocated_sources xs) (A := []);
          cbn [RawMem.GetAddress p_base p_off upd heap].
        2:{ subst h3. rewrite region_update_ne by done.
            rewrite region_update_eq; [done|].
            intros Hn. destruct (owns_null _ _ _ Hown Hn) as [-> Hc0]. rewrite Hc0.
            unfold relocated_sources. by destruct relocates_by_move. }
        2: done.
        2: by rewrite relocated_sources_length.
        cbn [post]. rewrite upd_upd.
        set (s4 := upd s2 _ _).
        cbn [RawMem.Swap].
        erewrite bind_ok; [|by eapply set_data_ok].
        erewrite dtor_region; cbn [buffer_ with_obj heap].
        2:{ subst s4 h3. cbn [upd heap]. rewrite region_update_eq; [done|].
            intros Hn. destruct (owns_null _ _ _ Hown Hn) as [-> Hc0].
            rewrite relocated_sources_length, Hc0. done. }
        cbn [post].
        erewrite bind_ok; [|by eapply set_size_ok; cbn [upd with_obj objs];
                               apply lookup_insert_eq].
        cbn [data_ size_].
        erewrite bind_ok; [|by eapply get_data_ok; cbn [upd with_obj objs];
                               apply lookup_insert_eq].
        erewrite bind_ok; [|by eapply get_size_ok; cbn [upd with_obj objs];
                               apply lookup_insert_eq].
        rewrite ret_unfold. cbn [post data_ size_].
        eexists. cbn [upd with_obj objs heap trace]. rewrite insert_insert_eq.
        split; [reflexivity|]. cbn [data_ capacity_ size_ buffer_].
        split; [|split; [|split; [|split]]].
        -- split; [|split]; cbn [data_ capacity_ size_ buffer_].
           ++ rewrite wrap_small by lia. rewrite length_app. simpl. lia.
           ++ rewrite wrap_small by lia. apply orb_false_elim in Halloc as [Hmax _].
              apply Z.ltb_ge, max_size_fits in Hmax. lia.
           ++ subst s4 h3 s2 s1. cbn [upd heap].
              rewrite region_release_ne by done.
              rewrite region_update_ne by done.
              rewrite region_update_eq by done.
              f_equal. unfold block_of. rewrite fmap_app, <- app_assoc. simpl.
              do 3 f_equal. subst B. rewrite length_app. simpl. lia.
        -- subst k. by rewrite Hfull.
        -- f_equal. rewrite (wrap_small (size_ v + 1)) by lia.
           rewrite wrap_small by lia. lia.
        -- intros b blk Hb Hblk.
           assert (Hba : Some a' ≠ b).
           { intros <-. by eapply (fresh_not_region (heap s) (Some a')). }
           assert (Hb' : buffer_ (data_ v) ≠ b) by done.
           subst s4 h3 s2 s1. cbn [upd heap RawMem.GetAddress p_base buffer_].
           rewrite region_release_ne by done.
           rewrite !region_update_ne by done.
           change (region (<[a':=?y]> (heap s)) b)
             with (region (update_region (heap s) (Some a') y) b).
           by rewrite region_update_ne.
        -- exists a'. split; [apply not_elem_of_dom, is_fresh|]. split; [done|].
           subst s4 s2 s1. cbn [upd trace]. rewrite <- !app_assoc. simpl.
           subst k. rewrite Hfull. do 5 f_equal.
           apply release_events_live.
           rewrite relocated_sources_length. by rewrite live_app, !live_None.
      * (* the relocation throws *)
        intros s3 (Ho & Hd3 & Hcopy & (xs1 & xs2 & Hxs & Hblk & Htr) & Ht). cbn [post].
        cbn [RawMem.GetAddress p_base buffer_] in Hd3, Hblk.
        erewrite dtor_region; cbn [buffer_].
        2:{ rewrite Hd3. subst s2. cbn [upd heap]. by rewrite region_update_eq. }
        cbn [post upd objs heap trace].
        split; [by rewrite Ho|]. split.
        -- intros Hc. rewrite (Hcopy Hc). subst s2 s1. cbn [upd heap].
           apply release_fresh.
        -- exists xs1, xs2. split; [done|]. split.
           ++ rewrite Hblk. subst s2 s1. cbn [upd heap buffer_].
              subst a'. rewrite release_fresh_update by done.
              f_equal. unfold block_of. simpl. do 3 f_equal.
              rewrite length_app, relocated_sources_length, Hxs, length_app. done.
           ++ split; [|by right].
              right. right. exists a', k. rewrite Htr. subst s2 s1.
              cbn [upd trace]. rewrite <- !app_assoc. simpl.
              rewrite live_app, live_None. simpl. subst B. by rewrite live_None.
  - (* there is room: construction in place *)
    apply post_bind.
    set (B := replicate (Z.to_nat (capacity_ (data_ v)) - length xs - 1) (None : option T)).
    assert (Hblk : block_of xs (capacity_ (data_ v)) = (Some <$> xs) ++ None :: B).
    { unfold block_of. f_equal. subst B.
      replace (Z.to_nat (capacity_ (data_ v)) - length xs)%nat
        with (S (Z.to_nat (capacity_ (data_ v)) - length xs - 1))%nat at 1 by lia.
      done. }
    erewrite (construct_at_middle s _ (Some <$> xs) B);
      cbn [RawMem.plus p_base p_off].
    2:{ by rewrite Hreg, Hblk. }
    2:{ rewrite length_fmap. lia. }
    destruct (throws_now (trace s) (ctor_of args)) eqn:Hctor; cbn [post].
    { split; [done|]. split; [done|]. exists [], xs. eauto 8. }
    fold x.
    erewrite bind_ok; [|by eapply set_size_ok].
    erewrite bind_ok; [|by eapply get_data_ok; cbn [upd with_obj objs];
                           apply lookup_insert_eq].
    erewrite bind_ok; [|by eapply get_size_ok; cbn [upd with_obj objs];
                           apply lookup_insert_eq].
    rewrite ret_unfold. cbn [post data_ size_].
    eexists. cbn [upd with_obj objs heap trace].
    split; [reflexivity|]. cbn [data_ capacity_ size_ buffer_].
    split; [|split; [|split; [|split]]].
    + split; [|split]; cbn [data_ capacity_ size_ buffer_].
      * rewrite wrap_small by lia. rewrite length_app. simpl. lia.
      * rewrite wrap_small by lia. lia.
      * rewrite region_update_eq.
        -- f_equal. unfold block_of. rewrite fmap_app, <- app_assoc. simpl.
           do 3 f_equal. subst B. rewrite length_app. simpl. lia.
        -- intros Hn. destruct (owns_null _ _ _ Hown Hn) as [-> Hc0].
           simpl in *. lia.
    + done.
    + f_equal. rewrite (wrap_small (size_ v + 1)) by lia.
           rewrite wrap_small by lia. lia.
    + intros b blk' Hb Hb'. by rewrite region_update_ne.
    + done.
Qed.
End EmplaceBackSpec.

(* ===================================================================== *)
(** * Concrete inputs *)
(* ===================================================================== *)

(** A type with a copy constructor and a move constructor that is not
    [noexcept], so that relocation copies; values are integers, of four
    bytes. *)
Definition copied_element : Element Z :=
  {| sizeof := 4;
     is_nothrow_move_constructible := false;
     is_copy_constructible := true;
     value_init := 0;
     moved_from := fun v => v;
     sizeof_range := ltac:(unfold PTRDIFF_MAX; lia) |}.

(** The environment in which copy-constructing from the value [bad] throws
    and nothing else does. *)
Definition copy_of_throws (bad : Z) : Faults Z :=
  {| elem_throws := fun _ op =>
       match op with
       | OpCopyCtor v => v =? bad
       | _ => false
       end;
     alloc_throws := fun _ _ => false |}.

(** A type with a move constructor that is not [noexcept] and no copy
    constructor, so that relocation moves and may throw; values are
    integers, of four bytes, and a moved-from object holds [0]. *)
Definition moved_element : Element Z :=
  {| sizeof := 4;
     is_nothrow_move_constructible := false;
     is_copy_constructible := false;
     value_init := 0;
     moved_from := fun _ => 0;
     sizeof_range := ltac:(unfold PTRDIFF_MAX; lia) |}.

(** The environment in which move-constructing from the value [bad] throws
    and nothing else does. *)
Definition move_of_throws (bad : Z) : Faults Z :=
  {| elem_throws := fun _ op =>
       match op with
       | OpMoveCtor v => v =? bad
       | _ => false
       end;
     alloc_throws := fun _ _ => false |}.


(** A vector object with block [a], capacity [cap] and size [size]. *)
Definition vector_at (a : addr) (cap size : Z) : Vector :=
  {| data_ := {| buffer_ := Some a; capacity_ := cap |}; size_ := size |}.

(** One full vector [7] at location 0. *)
Definition state_one_full : State Z Vector :=
  {| heap := {[ 0%nat := [Some 7] ]};
     objs := {[ 0%nat := vector_at 0%nat 1 1 ]};
     trace := [] |}.

(** One full vector [5, 7] at location 0. *)
Definition state_two_full : State Z Vector :=
  {| heap := {[ 0%nat := [Some 5; Some 7] ]};
     objs := {[ 0%nat := vector_at 0%nat 2 2 ]};
     trace := [] |}.

(** Two vectors: [1] at location 0 and [2] at location 1. *)
Definition state_two_vectors : State Z Vector :=
  {| heap := {[ 0%nat := [Some 1]; 1%nat := [Some 2] ]};
     objs := {[ 0%nat := vector_at 0%nat 1 1; 1%nat := vector_at 1%nat 1 1 ]};
     trace := [] |}.

(** Two [RawMemory] objects: one slot at location 0, two slots at location 1. *)
Definition state_two_raw : State Z RawMemory :=
  {| heap := {[ 0%nat := [None]; 1%nat := [None; None] ]};
     objs := {[ 0%nat := {| buffer_ := Some 0%nat; capacity_ := 1 |};
                1%nat := {| buffer_ := Some 1%nat; capacity_ := 2 |} ]};
     trace := [] |}.

(** The invariant at a concrete vector is settled by evaluation. *)
Ltac owns_by_evaluation :=
  unfold owns; simpl; split; [reflexivity|]; split; [|reflexivity];
  split; apply Z.leb_le; vm_compute; reflexivity.

Section EmplaceBackFailure.
Context {T : Type} {elem : Element T} {env : Faults T}.
Implicit Types (s : State T Vector) (v : Vector) (xs : list T).

(** C1. On a full, well-formed vector holding [xs], when [EmplaceBack]
    throws (whether [operator new], the constructor of the new element or
    the relocation of an element threw), the object is as before, so
    [Size()] and [Capacity()] are unchanged; the heap has the blocks it had
    before, so the new storage has been released; and the vector is
    well-formed with as many elements as before: those relocated before
    the failure, [xs1], are as the relocation leaves its sources (moved-from
    when it moves, untouched when it copies) and the others are untouched.
    If [T] has a copy constructor or a [noexcept] move constructor the heap
    is the one before the call, so the vector holds [xs]. *)
Theorem EmplaceBack_failure_contract s s' this v xs (args : Args T) :
  objs s !! this = Some v ->
  owns (heap s) v xs ->
  size_ v = capacity_ (data_ v) ->
  Vec.EmplaceBack this args s = Throw s' ->
  objs s' = objs s /\
  dom (heap s') = dom (heap s) /\
  (exists xs1 xs2,
     xs = xs1 ++ xs2 /\
     owns (heap s') v (relocated_sources xs1 ++ xs2)) /\
  (is_copy_constructible = true \/ is_nothrow_move_constructible = true ->
   heap s' = heap s /\ owns (heap s') v xs).
Proof.
  intros Hobj Hown Hfull Hthrow.
  pose proof (EmplaceBack_spec s this v xs args Hobj Hown) as Hp.
  rewrite Hthrow in Hp. cbn [post] in Hp.
  destruct Hp as (Ho & Hcopy & xs1 & xs2 & Hxs & Hheap & _).
  assert (Hlen : length (relocated_sources xs1 ++ xs2) = length xs).
  { by rewrite length_app, relocated_sources_length, Hxs, length_app. }
  split; [done|]. split; [|split].
  - rewrite Hheap. exact (dom_update_region _ _ _ _ Hown).
  - exists xs1, xs2. split; [done|]. rewrite Hheap. by apply (owns_update _ _ xs).
  - intros Hc. rewrite (Hcopy Hc). done.
Qed.
End EmplaceBackFailure.

Section EmplaceBackLeak.
(** The new element is not destroyed when the relocation in [EmplaceBack]
    throws. On the full vector [7] whose element throws when copied,
    [EmplaceBack(8)] throws, leaves the vector as it was, and releases the
    new block with [8] alive in it: the trace has the construction of [8]
    and no destruction. *)
Lemma EmplaceBack_relocation_failure_run :
  Vec.EmplaceBack (Element0 := copied_element) (Faults0 := copy_of_throws 7)
      0%nat (Values 8) state_one_full
    = Throw {| heap := heap state_one_full;
               objs := objs state_one_full;
               trace := [EvAllocate 2 1%nat;
                         EvConstruct (OpArgsCtor 8) 8;
                         EvDeallocate 1%nat [8]] |}.
Proof. vm_compute. reflexivity. Qed.
End EmplaceBackLeak.

Section InsertVersusEmplace.
(** C9. In [part_000] both [Insert] overloads are [Emplace] with the value
    forwarded, and in [vector.h] the copying [Insert] is, statement for
    statement, [Emplace] of a [const T&]: the same function of the state,
    whatever the element type and the environment. The moving [Insert] of
    [vector.h] is not. On the full vector [5, 7], whose element [7] throws
    when copied, inserting [9] before the [7] throws in both; [Emplace]
    destroys the [5] already copied into the new block and the new element
    before the block is released, [Insert] destroys the new element only and
    releases the block with the copy of [5] still alive in it. *)
Theorem Insert_versus_Emplace :
  (forall (T : Type) (elem : Element T) (env : Faults T) this pos (value : T),
     Part000.Insert this pos value = Part000.Emplace this pos (Lvalue value) /\
     Part000.Insert_rvalue this pos value = Part000.Emplace this pos (Rvalue value) /\
     VectorH.Insert this pos value = VectorH.Emplace this pos (Lvalue value)) /\
  let pos := {| p_base := Some 0%nat; p_off := 1 |} in
  VectorH.Emplace (Element0 := copied_element) (Faults0 := copy_of_throws 7)
      0%nat pos (Rvalue 9) state_two_full
    = Throw {| heap := heap state_two_full;
               objs := objs state_two_full;
               trace := [EvAllocate 4 1%nat;
                         EvConstruct (OpMoveCtor 9) 9;
                         EvConstruct (OpCopyCtor 5) 5;
                         EvDestroy 5;
                         EvDestroy 9;
                         EvDeallocate 1%nat []] |} /\
  VectorH.Insert_rvalue (Element0 := copied_element) (Faults0 := copy_of_throws 7)
      0%nat pos 9 state_two_full
    = Throw {| heap := heap state_two_full;
               objs := objs state_two_full;
               trace := [EvAllocate 4 1%nat;
                         EvConstruct (OpMoveCtor 9) 9;
                         EvConstruct (OpCopyCtor 5) 5;
                         EvDestroy 9;
                         EvDeallocate 1%nat [5]] |}.
Proof.
  split.
  - intros. repeat split; reflexivity.
  - cbv zeta. split; vm_compute; reflexivity.
Qed.
End InsertVersusEmplace.

Section Counterexamples.
#[local] Existing Instance int_element.

(** C1 as stated fails: the element values can change. The full vector
    [5, 7] has elements of a type without copy constructor whose move
    constructor may throw, and moving the [7] throws. [EmplaceBack(8)] moves
    the [5] into the new block, fails on the [7] and propagates the failure;
    the vector then holds a moved-from object and the [7], not [5, 7]. *)
Lemma EmplaceBack_failure_changes_elements :
  let s := state_two_full in
  let v := vector_at 0%nat 2 2 in
  objs s !! 0%nat = Some v /\
  owns (Element0 := moved_element) (heap s) v [5; 7] /\
  size_ v = capacity_ (data_ v) /\
  exists s',
    Vec.EmplaceBack (Element0 := moved_element) (Faults0 := move_of_throws 7)
      0%nat (Values 8) s = Throw s' /\
    objs s' !! 0%nat = Some v /\
    owns (Element0 := moved_element) (heap s') v [0; 7] /\
    ~ owns (Element0 := moved_element) (heap s') v [5; 7].
Proof.
  cbv zeta. split; [done|]. split.
  { owns_by_evaluation. }
  split; [done|].
  eexists. split; [vm_compute; reflexivity|].
  split; [done|]. split.
  - owns_by_evaluation.
  - intros (_ & _ & Hr). vm_compute in Hr. discriminate Hr.
Qed.

(** C3 as stated fails: after move-assigning the vector [2] to the vector
    [1], two distinct well-formed vectors, the source is not empty; it holds
    the block and the one element the receiver had. *)
Lemma move_assign_source_not_empty :
  let s := state_two_vectors in
  (0 ≠ 1)%nat /\
  objs s !! 0%nat = Some (vector_at 0%nat 1 1) /\ owns (heap s) (vector_at 0%nat 1 1) [1] /\
  objs s !! 1%nat = Some (vector_at 1%nat 1 1) /\ owns (heap s) (vector_at 1%nat 1 1) [2] /\
  exists s' r',
    Vec.move_assign 0%nat 1%nat s = Ok tt s' /\
    objs s' !! 1%nat = Some r' /\
    size_ r' = 1 /\ size_ r' ≠ 0 /\ owns (heap s') r' [1].
Proof.
  cbv zeta. split; [done|]. split; [done|]. split.
  { owns_by_evaluation. }
  split; [done|]. split.
  { owns_by_evaluation. }
  eexists _, (vector_at 0%nat 1 1). split; [vm_compute; reflexivity|].
  split; [done|]. split; [done|]. split; [done|].
  owns_by_evaluation.
Qed.

(** C4 as stated fails: after move-assigning a [RawMemory] holding two
    slots to one holding one slot (the draft [part_000]), the moved-from
    object holds the receiver's block (address 0, capacity 1), and
    destroying it releases that block. *)
Lemma RawMemory_move_assign_source_keeps_memory :
  let s := state_two_raw in
  exists s' s'',
    Part000.RawMemory_move_assign 0%nat 1%nat s = Ok tt s' /\
    objs s' !! 0%nat = Some {| buffer_ := Some 1%nat; capacity_ := 2 |} /\
    objs s' !! 1%nat = Some {| buffer_ := Some 0%nat; capacity_ := 1 |} /\
    RawMem.dtor_at 1%nat s' = Ok tt s'' /\
    heap s'' ≠ heap s' /\
    trace s'' = trace s' ++ [EvDeallocate 0%nat []].
Proof.
  cbv zeta. eexists _, _.
  split; [vm_compute; reflexivity|].
  split; [done|]. split; [done|].
  split; [vm_compute; reflexivity|].
  split; [|done].
  intros Heq. apply (f_equal (fun h => h !! 0%nat)) in Heq. done.
Qed.



End Counterexamples.

(* ===================================================================== *)
(** * Copy assignment *)
(* ===================================================================== *)

Section CopyAssignLogic.
Context {T : Type} {elem : Element T} {env : Faults T}.
Implicit Types (s : State T Vector) (v r : Vector) (xs ys : list T).


End CopyAssignLogic.

Section CopyAssign.
Context {T : Type} {elem : Element T} {env : Faults T}.
Implicit Types (s : State T Vector) (v r : Vector) (xs ys : list T).












End CopyAssign.

(* ===================================================================== *)
(** * Construction and destruction *)
(* ===================================================================== *)

Section Lifetime.
Context {T : Type} {elem : Element T} {env : Faults T}.
Implicit Types (s : State T Vector) (v : Vector) (xs ys : list T).

(** The event of the allocation that gave the block [b] of [n] slots;
    [nullptr] comes from no allocation. *)
Definition allocation_events (n : Z) (b : option addr) : list (Event T) :=
  match b with
  | Some a => [EvAllocate n a]
  | None => []
  end.

(** The blocks of [h] are all in [h'], unchanged. *)
Definition blocks_kept (h h' : gmap addr (list (option T))) : Prop :=
  forall a blk, h !! a = Some blk -> h' !! a = Some blk.

Lemma blocks_kept_fresh (h : gmap addr (list (option T))) blk :
  blocks_kept h (<[fresh (dom h) := blk]> h).
Proof.
  intros a blk' Ha. rewrite lookup_insert_ne; [done|].
  intros <-. apply (is_fresh (dom h)). apply elem_of_dom. eauto.
Qed.

Lemma delete_fresh (h : gmap addr (list (option T))) blk :
  delete (fresh (dom h)) (<[fresh (dom h) := blk]> h) = h.
Proof.
  rewrite delete_insert_eq. apply delete_id. apply not_elem_of_dom, is_fresh.
Qed.

(** [Vector(size_t n)]. *)
Lemma ctor_sized_spec s n :
  0 <= n ->
  n * sizeof < size_mod ->
  post (Vec.ctor_sized n s)
    (fun this s' => exists b,
       let v := {| data_ := {| buffer_ := b; capacity_ := n |}; size_ := n |} in
       objs s !! this = None /\
       objs s' = <[this := v]> (objs s) /\
       owns (heap s') v (replicate (Z.to_nat n) value_init) /\
       (n = 0 <-> b = None) /\
       region (heap s) b = (if n =? 0 then Some [] else None) /\
       heap s' = update_region (heap s) b
                   (block_of (replicate (Z.to_nat n) value_init) n) /\
       trace s' = trace s ++ allocation_events n b
                    ++ replicate (Z.to_nat n) (EvConstruct OpValueInit value_init))
    (fun s' =>
       heap s' = heap s /\ objs s' = objs s /\
       (s' = s \/
        exists a (j : nat),
          (j < Z.to_nat n)%nat /\
          trace s' = trace s ++ EvAllocate n a
                       :: replicate j (EvConstruct OpValueInit value_init)
                       ++ replicate j (EvDestroy value_init)
                       ++ [EvDeallocate a []])).
Proof.
  intros Hn Hbytes. unfold Vec.ctor_sized. apply post_bind.
  rewrite ctor_unfold by done. pose proof max_size_pos as Hmp.
  destruct (Z.eqb_spec n 0) as [->|Hn0].
  - (* no elements: no block *)
    cbn [post]. apply post_bind. apply post_on_unwind.
    cbn [RawMem.GetAddress buffer_]. unfold uninitialized_value_construct_n.
    simpl. unfold new_obj. simpl. exists None. simpl.
    split; [apply not_elem_of_dom, is_fresh|]. split; [done|].
    split; [unfold owns; simpl; split; [done|]; split; [lia|done]|].
    split; [done|]. split; [done|]. split; [done|]. by rewrite app_nil_r.
  - destruct (_ || _) eqn:Halloc; cbn [post]; [by auto|].
    apply orb_false_elim in Halloc as [Hmax _].
    apply Z.ltb_ge, max_size_fits in Hmax.
    set (a := fresh (dom (heap s))).
    set (s1 := upd s _ _).
    apply post_bind. apply post_on_unwind.
    eapply post_mono.
    + eapply (uninitialized_value_construct_n_spec s1 _ n (Z.to_nat n) [] []);
        cbn [RawMem.GetAddress p_base p_off buffer_].
      * subst s1. cbn [upd heap region]. rewrite lookup_insert_eq.
        simpl. by rewrite app_nil_r.
      * done.
      * lia.
    + intros _ s2 ->. cbn [post RawMem.GetAddress p_base buffer_].
      unfold new_obj. cbn [post upd heap objs trace]. exists (Some a).
      cbn [update_region region allocation_events].
      split; [apply not_elem_of_dom, is_fresh|]. split; [done|].
      assert (Hblk : [] ++ (Some <$> replicate (Z.to_nat n) value_init) ++ []
                = block_of (replicate (Z.to_nat n) (value_init : T)) n).
      { unfold block_of. simpl. f_equal.
        rewrite length_replicate, Nat.sub_diag. done. }
      split; [|split; [|split; [|split]]].
      * split; [|split]; cbn [size_ data_ capacity_ buffer_ region].
        -- rewrite length_replicate. lia.
        -- lia.
        -- subst s1. cbn [upd heap]. rewrite lookup_insert_eq. by rewrite Hblk.
      * split; [lia|done].
      * apply not_elem_of_dom, is_fresh.
      * subst s1. cbn [upd heap]. rewrite insert_insert_eq. by rewrite Hblk.
      * subst s1. cbn [upd trace]. by rewrite <- app_assoc.
    + intros s2 (j & Hj & Ht & ->). cbn [post].
      erewrite dtor_region; cbn [buffer_].
      2:{ subst s1. cbn [upd heap region]. by rewrite lookup_insert_eq. }
      cbn [post upd heap objs trace release release_events].
      split; [subst s1; cbn [upd heap]; apply delete_fresh|].
      split; [done|]. right. exists a, j. split; [done|].
      subst s1. cbn [upd trace]. rewrite live_None, fmap_replicate.
      by rewrite <- !app_assoc.
Qed.

(** [Vector(const Vector& other)]. *)
Lemma ctor_copy_spec s other o ys :
  objs s !! other = Some o ->
  owns (heap s) o ys ->
  post (Vec.ctor_copy other s)
    (fun this s' => exists b,
       let v := {| data_ := {| buffer_ := b; capacity_ := size_ o |};
                   size_ := size_ o |} in
       objs s !! this = None /\
       objs s' = <[this := v]> (objs s) /\
       owns (heap s') v ys /\
       (ys = [] <-> b = None) /\
       region (heap s) b = (if size_ o =? 0 then Some [] else None) /\
       heap s' = update_region (heap s) b (Some <$> ys) /\
       trace s' = trace s ++ allocation_events (size_ o) b ++ copy_events ys)
    (fun s' =>
       heap s' = heap s /\ objs s' = objs s /\
       (s' = s \/
        exists a xs1 x xs2,
          ys = xs1 ++ x :: xs2 /\
          trace s' = trace s ++ EvAllocate (size_ o) a
                       :: copy_events xs1 ++ (EvDestroy <$> xs1)
                       ++ [EvDeallocate a []])).
Proof.
  intros Hobj Hown. pose proof Hown as (Hsz & Hcap & Hreg). pose proof max_size_le as Hms.
  unfold Vec.ctor_copy. erewrite bind_ok; [|by eapply get_obj_ok].
  apply post_bind. rewrite ctor_unfold by (first [lia | apply held_bytes; lia]).
  pose proof max_size_pos as Hmp.
  destruct (Z.eqb_spec (size_ o) 0) as [H0|H0].
  - assert (ys = []) as -> by (destruct ys; [done|simpl in Hsz; lia]).
    cbn [post]. apply post_bind. apply post_on_unwind.
    unfold uninitialized_copy_n. rewrite H0. simpl.
    unfold new_obj. simpl. exists None. simpl.
    split; [apply not_elem_of_dom, is_fresh|]. split; [done|].
    split; [unfold owns; simpl; split; [done|]; split; [lia|done]|].
    split; [done|]. split; [done|]. split; [done|]. by rewrite app_nil_r.
  - destruct (_ || _) eqn:Halloc; cbn [post]; [by auto|].
    apply orb_false_elim in Halloc as [Hmax _]. apply Z.ltb_ge in Hmax.
    set (a := fresh (dom (heap s))).
    set (s1 := upd s _ _).
    assert (Hoa : buffer_ (data_ o) ≠ Some a) by (by eapply fresh_not_region).
    apply post_bind. apply post_on_unwind.
    eapply post_mono.
    + eapply (uninitialized_copy_n_spec s1 _ _ _ ys []
                (replicate (Z.to_nat (capacity_ (data_ o)) - length ys) None) [] []);
        cbn [RawMem.GetAddress p_base p_off buffer_].
      * subst s1. cbn [upd heap].
        change (region (<[a:=?b]> (heap s)) ?y)
          with (region (update_region (heap s) (Some a) b) y).
        rewrite region_update_ne by done. exact Hreg.
      * done.
      * subst s1. cbn [upd heap region]. rewrite lookup_insert_eq.
        simpl. rewrite app_nil_r. do 2 f_equal. lia.
      * done.
      * done.
      * by intros _.
    + intros _ s2 ->. cbn [post RawMem.GetAddress p_base buffer_].
      unfold new_obj. cbn [post upd heap objs trace]. exists (Some a).
      cbn [update_region region allocation_events].
      split; [apply not_elem_of_dom, is_fresh|]. split; [done|].
      split; [|split; [|split; [|split]]].
      * split; [|split]; cbn [size_ data_ capacity_ buffer_ region].
        -- done.
        -- lia.
        -- subst s1. cbn [upd heap]. rewrite lookup_insert_eq.
           unfold block_of. simpl. rewrite app_nil_r.
           replace (Z.to_nat (size_ o) - length ys)%nat with 0%nat by lia.
           simpl. by rewrite app_nil_r.
      * split; [|done]. intros ->. simpl in Hsz. lia.
      * apply not_elem_of_dom, is_fresh.
      * subst s1. cbn [upd heap]. rewrite insert_insert_eq.
        simpl. by rewrite app_nil_r.
      * subst s1. cbn [upd trace]. by rewrite <- app_assoc.
    + intros s2 (xs1 & x & xs2 & Hys & Ht & ->). cbn [post].
      erewrite dtor_region; cbn [buffer_ RawMem.GetAddress p_base].
      2:{ subst s1. cbn [upd heap region]. by rewrite lookup_insert_eq. }
      cbn [post upd heap objs trace release release_events update_region].
      split; [subst s1; cbn [upd heap]; apply delete_fresh|].
      split; [done|]. right. exists a, xs1, x, xs2. split; [done|].
      subst s1. cbn [upd trace]. simpl.
      rewrite live_None. by rewrite <- !app_assoc.
Qed.

(** [~Vector()] and the destructor of the member [data_]. *)
Lemma dtor_spec s this v xs :
  objs s !! this = Some v ->
  owns (heap s) v xs ->
  Vec.dtor this s =
    Ok tt {| heap := release (heap s) (buffer_ (data_ v));
             objs := delete this (objs s);
             trace := trace s ++ (EvDestroy <$> xs)
                        ++ release_events (buffer_ (data_ v)) [] |}.
Proof.
  intros Hobj Hown. pose proof Hown as (Hsz & Hcap & Hreg). pose proof max_size_le as Hms.
  unfold Vec.dtor. erewrite bind_ok; [|by eapply get_obj_ok].
  erewrite bind_ok; cycle 1.
  { eapply (destroy_n_ok xs _ _ _ []); cbn [RawMem.GetAddress p_base p_off];
      [exact Hreg|done|done]. }
  cbn [RawMem.GetAddress p_base].
  erewrite bind_ok; cycle 1.
  { eapply dtor_region. cbn [upd heap]. rewrite region_update_eq; [done|].
    intros Hnull. destruct (owns_null _ _ _ Hown Hnull) as [-> Hc0].
    simpl. by rewrite Hc0. }
  unfold drop_obj. cbn [upd heap objs trace]. f_equal. f_equal.
  - destruct (buffer_ (data_ v)); simpl; [|done]. by rewrite delete_insert_eq.
  - rewrite <- app_assoc. do 2 f_equal. apply release_events_live.
    simpl. by rewrite live_app, !live_None.
Qed.
End Lifetime.

(* ===================================================================== *)
(** * Element access *)
(* ===================================================================== *)

Section Access.
Context {T : Type} {elem : Element T} {env : Faults T}.
Implicit Types (s : State T Vector) (v : Vector) (xs : list T).

(** The [i]-th slot of the block of a well-formed vector holds the [i]-th
    element. *)
Lemma load_element s v xs (i : nat) x :
  owns (heap s) v xs ->
  xs !! i = Some x ->
  (load (ptr_add (RawMem.GetAddress (data_ v)) (Z.of_nat i)) : M T Vector T) s = Ok x s.
Proof.
  intros (Hsz & Hcap & Hreg) Hx. pose proof max_size_le as Hms.
  apply list_elem_of_split_length in Hx as (A & B & -> & ->).
  eapply (load_middle s _ (Some <$> A) x
            ((Some <$> B) ++ replicate (Z.to_nat (capacity_ (data_ v))
                                        - length (A ++ x :: B)) None)).
  - cbn [ptr_add RawMem.GetAddress p_base]. rewrite Hreg. unfold block_of.
    rewrite fmap_app, <- app_assoc. done.
  - cbn [ptr_add RawMem.GetAddress p_off]. rewrite length_fmap. lia.
Qed.

Lemma subscript_in_range s this v xs (i : nat) x :
  objs s !! this = Some v ->
  owns (heap s) v xs ->
  xs !! i = Some x ->
  Vec.subscript this (Z.of_nat i) s
    = Ok (ptr_add (RawMem.GetAddress (data_ v)) (Z.of_nat i)) s.
Proof.
  intros Hobj (Hsz & Hcap & Hreg) Hx. apply lookup_lt_Some in Hx. pose proof max_size_le as Hms.
  unfold Vec.subscript. erewrite bind_ok; [|by eapply get_size_ok].
  unfold assert. rewrite bind_unfold.
  destruct (Z.ltb_spec (Z.of_nat i) (size_ v)); [|lia].
  erewrite bind_ok; [|by eapply get_data_ok]. done.
Qed.

Lemma subscript_out_of_range s this v (i : Z) :
  objs s !! this = Some v ->
  size_ v <= i ->
  Vec.subscript this i s = Abort.
Proof.
  intros Hobj Hi. unfold Vec.subscript.
  erewrite bind_ok; [|by eapply get_size_ok].
  unfold assert. rewrite bind_unfold.
  by destruct (Z.ltb_spec i (size_ v)); [lia|].
Qed.

Lemma read_from_spec s this v xs (n : nat) : forall (i : nat),
  objs s !! this = Some v ->
  owns (heap s) v xs ->
  (i + n <= length xs)%nat ->
  read_from this (Z.of_nat i) n s = Ok (take n (drop i xs)) s.
Proof.
  induction n as [|n IH]; intros i Hobj Hown Hlen; simpl.
  - done.
  - destruct (lookup_lt_is_Some_2 xs i) as [x Hx]; [lia|].
    erewrite bind_ok; [|by eapply subscript_in_range].
    erewrite bind_ok; [|by eapply load_element].
    replace (Z.of_nat i + 1) with (Z.of_nat (S i)) by lia.
    erewrite bind_ok; [|apply IH; [done|done|lia]].
    rewrite ret_unfold. do 2 f_equal.
    rewrite (drop_S _ _ _ Hx). done.
Qed.
End Access.

(* ===================================================================== *)
(** * [Swap] *)
(* ===================================================================== *)

Section SwapLogic.
Context {T : Type} {elem : Element T} {env : Faults T}.
Implicit Types (s : State T Vector) (v o : Vector).

Lemma Swap_self s this v :
  objs s !! this = Some v -> Vec.Swap this this s = Ok tt s.
Proof.
  intros Hv. rewrite (Swap_distinct _ _ _ _ _ Hv Hv). rewrite !Vector_eta.
  destruct s as [h os tr]. simpl in *. do 2 f_equal.
  rewrite insert_insert_eq. by apply insert_id.
Qed.

Lemma Swap_twice s this other v o s' :
  objs s !! this = Some v ->
  objs s !! other = Some o ->
  Vec.Swap this other s = Ok tt s' ->
  Vec.Swap this other s' = Ok tt s.
Proof.
  intros Hv Ho. destruct (decide (this = other)) as [->|Hne].
  - rewrite (Swap_self _ _ _ Hv). intros [= <-]. by apply (Swap_self _ _ v).
  - rewrite (Swap_distinct _ _ _ _ _ Hv Ho). rewrite !Vector_eta. intros [= <-].
    erewrite Swap_distinct; cycle 1.
    { simpl. apply lookup_insert_eq. }
    { simpl. rewrite lookup_insert_ne by done. apply lookup_insert_eq. }
    rewrite !Vector_eta. destruct s as [h os tr]. simpl in *. do 2 f_equal.
    apply map_eq. intros l. rewrite !lookup_insert.
    repeat case_decide; congruence.
Qed.
End SwapLogic.

(* ===================================================================== *)
(** * [RawMemory]: allocation and release *)
(* ===================================================================== *)

Section RawLifetime.
Context {T : Type} {elem : Element T} {env : Faults T} {O : Type}.
Implicit Types (s : State T O).

End RawLifetime.

(* ===================================================================== *)
(** * Appending and removing at the end *)
(* ===================================================================== *)

Section Append.
Context {T : Type} {elem : Element T} {env : Faults T}.
Implicit Types (s : State T Vector) (v : Vector) (xs : list T).

Lemma block_of_snoc xs x cap :
  Z.of_nat (length xs) < cap ->
  block_of xs cap
    = (Some <$> xs) ++ None :: replicate (Z.to_nat cap - length xs - 1) None /\
  block_of (xs ++ [x]) cap
    = (Some <$> xs) ++ Some x :: replicate (Z.to_nat cap - length xs - 1) None.
Proof.
  intros Hlt. unfold block_of. split.
  - f_equal.
    replace (Z.to_nat cap - length xs)%nat
      with (S (Z.to_nat cap - length xs - 1))%nat at 1 by lia.
    done.
  - rewrite fmap_app, <- app_assoc. simpl. do 3 f_equal.
    rewrite length_app. simpl. lia.
Qed.

(** [EmplaceBack] on a vector with spare capacity: the new element is
    built in the first free slot of the block the vector has. *)
Lemma EmplaceBack_in_place s this v xs args :
  objs s !! this = Some v ->
  owns (heap s) v xs ->
  size_ v < capacity_ (data_ v) ->
  Vec.EmplaceBack this args s =
    if throws_now (trace s) (ctor_of args) then Throw s
    else Ok (RawMem.at_ (data_ v) (size_ v))
            {| heap := update_region (heap s) (buffer_ (data_ v))
                         (block_of (xs ++ [op_value (ctor_of args)])
                                   (capacity_ (data_ v)));
               objs := <[this := {| data_ := data_ v; size_ := size_ v + 1 |}]> (objs s);
               trace := trace s
                          ++ [EvConstruct (ctor_of args) (op_value (ctor_of args))] |}.
Proof.
  intros Hobj Hown Hroom. pose proof Hown as (Hsz & Hcap & Hreg). pose proof max_size_le as Hms.
  destruct (block_of_snoc xs (op_value (ctor_of args)) (capacity_ (data_ v)))
    as [Hb1 Hb2]; [lia|].
  unfold Vec.EmplaceBack.
  erewrite bind_ok; [|by eapply get_size_ok].
  erewrite bind_ok; [|by eapply Capacity_ok].
  erewrite bind_ok; [|by eapply get_data_ok].
  destruct (Z.eqb_spec (size_ v) (capacity_ (data_ v))); [lia|].
  rewrite bind_unfold.
  erewrite (construct_at_middle s _ (Some <$> xs));
    cbn [RawMem.plus p_base p_off].
  2:{ by rewrite Hreg, Hb1. }
  2:{ rewrite length_fmap. lia. }
  destruct (throws_now (trace s) (ctor_of args)); [done|].
  erewrite bind_ok; [|by eapply set_size_ok].
  erewrite bind_ok; [|by eapply get_data_ok; cbn [upd with_obj objs];
                         apply lookup_insert_eq].
  erewrite bind_ok; [|by eapply get_size_ok; cbn [upd with_obj objs];
                         apply lookup_insert_eq].
  rewrite ret_unfold. cbn [data_ size_ upd with_obj heap objs trace].
  rewrite (wrap_small (size_ v + 1)) by lia.
  rewrite wrap_small by lia. rewrite Hb2.
  do 2 f_equal. f_equal. lia.
Qed.

(** After [++size_] has run, the object is there to be read. *)
Lemma set_size_inv s this n s' :
  Vec.set_size this n s = Ok tt s' ->
  exists v, objs s !! this = Some v /\
            s' = with_obj s this {| data_ := data_ v; size_ := n |}.
Proof.
  unfold Vec.set_size. rewrite bind_unfold.
  destruct (get_obj this s) as [v s1| | |] eqn:E; try done.
  apply get_obj_inv in E as [-> Hv]. intros [= <-]. eauto.
Qed.

(** The [PushBack] overloads of [vector.h] are [EmplaceBack] written out
    again, without the reference it returns. *)
Lemma PushBack_with_EmplaceBack (this : loc) (args : Args T) s :
  VectorH.PushBack_with this (ctor_of args) s
  = (Vec.EmplaceBack this args ;; mret tt) s.
Proof.
  unfold VectorH.PushBack_with, Vec.EmplaceBack.
  rewrite !bind_unfold.
  destruct (Vec.get_size this s) as [size s1| | |]; try done.
  rewrite !bind_unfold.
  destruct (Vec.Capacity this s1) as [cap s2| | |]; try done.
  rewrite !bind_unfold.
  destruct (Vec.get_data this s2) as [data s3| | |]; try done.
  rewrite !bind_unfold.
  match goal with
  | |- match ?m with _ => _ end = _ => destruct m as [[] s4| | |]
  end; try done.
  rewrite !bind_unfold.
  destruct (Vec.set_size this (wrap (size + 1)) s4) as [[] s5| | |] eqn:Hset;
    try done.
  apply set_size_inv in Hset as (v & Hv & ->).
  erewrite bind_ok; [|by eapply get_data_ok; cbn [with_obj objs];
                         apply lookup_insert_eq].
  erewrite bind_ok; [|by eapply get_size_ok; cbn [with_obj objs];
                         apply lookup_insert_eq].
  done.
Qed.

(** [PopBack] on a vector with a last element [x], in both drafts. *)
Lemma PopBack_last s this v xs x :
  objs s !! this = Some v ->
  owns (heap s) v (xs ++ [x]) ->
  let s' := {| heap := update_region (heap s) (buffer_ (data_ v))
                         (block_of xs (capacity_ (data_ v)));
               objs := <[this := {| data_ := data_ v; size_ := size_ v - 1 |}]> (objs s);
               trace := trace s ++ [EvDestroy x] |} in
  VectorH.PopBack this s = Ok tt s' /\ Part000.PopBack this s = Ok tt s'.
Proof.
  intros Hobj Hown. pose proof Hown as (Hsz & Hcap & Hreg). pose proof max_size_le as Hms.
  rewrite length_app in Hsz. simpl in Hsz.
  destruct (block_of_snoc xs x (capacity_ (data_ v))) as [Hb1 Hb2]; [lia|].
  assert (Hdestroy :
    (destroy_at (RawMem.at_ (data_ v) (wrap (size_ v - 1))) : M T Vector unit) s
    = Ok tt (upd s (update_region (heap s) (buffer_ (data_ v))
                      (block_of xs (capacity_ (data_ v)))) [EvDestroy x])).
  { rewrite Hb1.
    erewrite (destroy_at_middle s _ (Some <$> xs) x); cbn [RawMem.at_ p_base p_off].
    - done.
    - by rewrite Hreg, Hb2.
    - rewrite wrap_small by lia. rewrite length_fmap. lia. }
  cbv zeta. split.
  - unfold VectorH.PopBack.
    erewrite bind_ok; [|by eapply get_data_ok].
    erewrite bind_ok; [|by eapply get_size_ok].
    erewrite bind_ok; [|exact Hdestroy].
    erewrite set_size_ok; [|exact Hobj].
    rewrite wrap_small by lia. done.
  - unfold Part000.PopBack.
    erewrite bind_ok; [|by eapply get_size_ok].
    destruct (Z.ltb_spec 0 (size_ v)); [|lia].
    erewrite bind_ok; [|by eapply get_data_ok].
    erewrite bind_ok; [|exact Hdestroy].
    erewrite set_size_ok; [|exact Hobj].
    rewrite wrap_small by lia. done.
Qed.
End Append.

(* ===================================================================== *)
(** * Shifting elements inside a block *)
(* ===================================================================== *)

Section Shifting.
Context {T : Type} {elem : Element T} {env : Faults T} {O : Type}.
Implicit Types (s : State T O) (p : Ptr).

(** Move assignment to the slot just before the source. *)
Lemma move_assign_at_left s p src A d y B :
  region (heap s) (p_base p) = Some (A ++ Some d :: Some y :: B) ->
  p_base src = p_base p ->
  p_off p = Z.of_nat (length A) ->
  p_off src = Z.of_nat (length A) + 1 ->
  move_assign_at p src s =
    if throws_now (trace s) (OpMoveAssign d y) then Throw s
    else Ok tt (upd s (update_region (heap s) (p_base p)
                         (A ++ Some y :: Some (moved_from y) :: B))
                      [EvAssign (OpMoveAssign d y) y]).
Proof.
  intros Hr Hb Hp Hsrc. unfold move_assign_at.
  erewrite bind_ok; cycle 1.
  { eapply (load_middle s src (A ++ [Some d]) y B).
    - rewrite Hb, Hr. by rewrite <- app_assoc.
    - rewrite length_app. simpl. lia. }
  erewrite bind_ok; [|by eapply (load_middle s p A d (Some y :: B))].
  rewrite bind_unfold, assign_unfold.
  destruct (throws_now (trace s) (OpMoveAssign d y)); [done|].
  erewrite bind_ok; cycle 1.
  { eapply (write_slot_middle _ p A (Some d) (Some y :: B)); [exact Hr|done]. }
  rewrite upd_upd.
  erewrite (write_slot_middle _ src (A ++ [Some y]) (Some y) B); cycle 1.
  { cbn [upd heap]. rewrite Hb. rewrite region_update_eq.
    - by rewrite <- app_assoc.
    - intros Hn. rewrite Hn in Hr. by destruct A. }
  { rewrite length_app. simpl. lia. }
  rewrite upd_upd. cbn [upd heap]. rewrite Hb, update_update.
  by rewrite <- (app_assoc A).
Qed.

(** Move assignment to the slot just after the source. *)
Lemma move_assign_at_right s p src A y d B :
  region (heap s) (p_base p) = Some (A ++ Some y :: Some d :: B) ->
  p_base src = p_base p ->
  p_off src = Z.of_nat (length A) ->
  p_off p = Z.of_nat (length A) + 1 ->
  move_assign_at p src s =
    if throws_now (trace s) (OpMoveAssign d y) then Throw s
    else Ok tt (upd s (update_region (heap s) (p_base p)
                         (A ++ Some (moved_from y) :: Some y :: B))
                      [EvAssign (OpMoveAssign d y) y]).
Proof.
  intros Hr Hb Hsrc Hp. unfold move_assign_at.
  erewrite bind_ok; cycle 1.
  { eapply (load_middle s src A y (Some d :: B)); [by rewrite Hb|done]. }
  erewrite bind_ok; cycle 1.
  { eapply (load_middle s p (A ++ [Some y]) d B).
    - rewrite Hr. by rewrite <- app_assoc.
    - rewrite length_app. simpl. lia. }
  rewrite bind_unfold, assign_unfold.
  destruct (throws_now (trace s) (OpMoveAssign d y)); [done|].
  erewrite bind_ok; cycle 1.
  { eapply (write_slot_middle _ p (A ++ [Some y]) (Some d) B).
    - cbn [upd heap]. rewrite Hr. by rewrite <- app_assoc.
    - rewrite length_app. simpl. lia. }
  rewrite upd_upd.
  erewrite (write_slot_middle _ src A (Some y) (Some y :: B)); cycle 1.
  { cbn [upd heap]. rewrite Hb. rewrite region_update_eq.
    - by rewrite <- app_assoc.
    - intros Hn. rewrite Hn in Hr. by destruct A. }
  { done. }
  rewrite upd_upd. cbn [upd heap]. rewrite Hb, update_update.
  done.
Qed.

(** The events of a run of move assignments in which each target is the
    source of the one before: the first target has the value [d]. *)
Fixpoint shift_events (d : T) (ys : list T) : list (Event T) :=
  match ys with
  | [] => []
  | y :: ys' => EvAssign (OpMoveAssign d y) y :: shift_events (moved_from y) ys'
  end.

(** The value left in the slot the run has moved from last. *)
Fixpoint shift_rest (d : T) (ys : list T) : T :=
  match ys with
  | [] => d
  | y :: ys' => shift_rest (moved_from y) ys'
  end.

Lemma shift_events_app d ys zs :
  shift_events d (ys ++ zs) = shift_events d ys ++ shift_events (shift_rest d ys) zs.
Proof. revert d. induction ys as [|y ys IH]; intros d; simpl; [done|]. by rewrite IH. Qed.

Lemma shift_rest_app d ys zs :
  shift_rest d (ys ++ zs) = shift_rest (shift_rest d ys) zs.
Proof. revert d. induction ys as [|y ys IH]; intros d; simpl; [done|]. by rewrite IH. Qed.

(** [std::move(first, last, d_first)] with [d_first] one slot before
    [first]: every object of the run moves one slot down, and the last slot
    of the run is left moved-from. *)
Lemma shift_down_range (ys : list T) : forall s first d_first j A d B,
  region (heap s) (p_base d_first) = Some (A ++ Some d :: (Some <$> ys) ++ B) ->
  p_base first = p_base d_first ->
  p_off d_first + j = Z.of_nat (length A) ->
  p_off first + j = Z.of_nat (length A) + 1 ->
  post (for_range j (length ys) (fun i =>
          move_assign_at (ptr_add d_first i) (ptr_add first i)) s)
    (fun _ s' =>
       s' = upd s (update_region (heap s) (p_base d_first)
                     (A ++ (Some <$> ys) ++ Some (shift_rest d ys) :: B))
                  (shift_events d ys))
    (fun s' => exists ys1 y ys2,
       ys = ys1 ++ y :: ys2 /\
       throws_now (trace s ++ shift_events d ys1)
                  (OpMoveAssign (shift_rest d ys1) y) = true /\
       s' = upd s (update_region (heap s) (p_base d_first)
                     (A ++ (Some <$> ys1) ++ Some (shift_rest d ys1)
                        :: (Some <$> y :: ys2) ++ B))
                  (shift_events d ys1)).
Proof.
  induction ys as [|y ys IH]; intros s first d_first j A d B Hr Hb Hd Hf.
  - simpl. simpl in Hr. rewrite (update_id _ _ _ Hr). by rewrite upd_id.
  - cbn [length for_range]. apply post_bind.
    erewrite (move_assign_at_left s _ _ A d y ((Some <$> ys) ++ B));
      cbn [ptr_add p_base p_off]; [|exact Hr|done|lia|lia].
    destruct (throws_now (trace s) (OpMoveAssign d y)) eqn:Hthrow; cbn [post].
    + exists [], y, ys. split; [done|]. split; [by rewrite app_nil_r|].
      simpl. simpl in Hr. rewrite (update_id _ _ _ Hr). by rewrite upd_id.
    + set (s1 := upd s _ _).
      assert (Hnull : p_base d_first = None ->
                A ++ Some y :: Some (moved_from y) :: (Some <$> ys) ++ B = []).
      { intros Hn. rewrite Hn in Hr. by destruct A. }
      eapply post_mono.
      * apply (IH s1 first d_first (j + 1) (A ++ [Some y]) (moved_from y) B).
        -- subst s1. cbn [upd heap]. rewrite region_update_eq by done.
           by rewrite <- app_assoc.
        -- done.
        -- rewrite length_app. simpl. lia.
        -- rewrite length_app. simpl. lia.
      * intros _ s' ->. subst s1. rewrite upd_upd. cbn [upd heap].
        rewrite update_update. simpl. by rewrite <- app_assoc.
      * intros s' (ys1 & z & ys2 & -> & Ht & ->).
        exists (y :: ys1), z, ys2. split; [done|]. split.
        -- subst s1. cbn [upd trace] in Ht. by rewrite <- app_assoc in Ht.
        -- subst s1. rewrite upd_upd. cbn [upd heap].
           rewrite update_update. simpl. by rewrite <- app_assoc.
Qed.

(** [std::move(first, last, d_first)] as [Erase] calls it. *)
Lemma std_move_down s first last d_first A d ys B :
  region (heap s) (p_base d_first) = Some (A ++ Some d :: (Some <$> ys) ++ B) ->
  p_base first = p_base d_first ->
  p_base last = p_base d_first ->
  p_off d_first = Z.of_nat (length A) ->
  p_off first = Z.of_nat (length A) + 1 ->
  p_off last = p_off first + Z.of_nat (length ys) ->
  p_off last <= PTRDIFF_MAX ->
  post (std_move first last d_first s)
    (fun _ s' =>
       s' = upd s (update_region (heap s) (p_base d_first)
                     (A ++ (Some <$> ys) ++ Some (shift_rest d ys) :: B))
                  (shift_events d ys))
    (fun s' => exists ys1 y ys2,
       ys = ys1 ++ y :: ys2 /\
       throws_now (trace s ++ shift_events d ys1)
                  (OpMoveAssign (shift_rest d ys1) y) = true /\
       s' = upd s (update_region (heap s) (p_base d_first)
                     (A ++ (Some <$> ys1) ++ Some (shift_rest d ys1)
                        :: (Some <$> y :: ys2) ++ B))
                  (shift_events d ys1)).
Proof.
  intros Hr Hf Hl Hd Hfo Hlo Hmax. unfold std_move.
  erewrite (bind_ok _ _ _ (length ys)); [|apply range_length_ok; congruence].
  apply (shift_down_range ys s first d_first 0 A d B); [done|done|lia|lia].
Qed.

(** The run [std::move_backward] goes through when its target range lies
    one slot above its source: every object of [ys] moves one slot up,
    last first, and the first slot of the run is left moved-from. The
    events are those of shifting the reversed run. *)
Definition back_rest (d : T) (ys : list T) : T :=
  match ys with
  | [] => d
  | y :: _ => moved_from y
  end.

Lemma back_rest_snoc d ys y : back_rest d (ys ++ [y]) = back_rest (moved_from y) ys.
Proof. by destruct ys. Qed.

Lemma shift_up_range (ys : list T) : forall s last d_last k A d B,
  region (heap s) (p_base d_last) = Some (A ++ (Some <$> ys) ++ Some d :: B) ->
  p_base last = p_base d_last ->
  p_off d_last - k = Z.of_nat (length A + length ys) ->
  p_off last - k = Z.of_nat (length A + length ys) - 1 ->
  post (for_range k (length ys) (fun i =>
          move_assign_at (ptr_add d_last (- i)) (ptr_add last (- i))) s)
    (fun _ s' =>
       s' = upd s (update_region (heap s) (p_base d_last)
                     (A ++ Some (back_rest d ys) :: (Some <$> ys) ++ B))
                  (shift_events d (rev ys)))
    (fun s' => objs s' = objs s /\ exists tr op, throws_now tr op = true).
Proof.
  induction ys as [|y ys IH] using rev_ind; intros s last d_last k A d B Hr Hb Hd Hl.
  - simpl. simpl in Hr. rewrite (update_id _ _ _ Hr). by rewrite upd_id.
  - rewrite length_app in *. cbn [length] in *.
    replace (length ys + 1)%nat with (S (length ys)) by lia.
    cbn [for_range]. apply post_bind.
    assert (Hr' : region (heap s) (p_base d_last)
              = Some ((A ++ (Some <$> ys)) ++ Some y :: Some d :: B)).
    { rewrite Hr. rewrite fmap_app, <- !app_assoc. done. }
    erewrite (move_assign_at_right s _ _ (A ++ (Some <$> ys)) y d B);
      cbn [ptr_add p_base p_off]; [|exact Hr'|done| |].
    2,3: rewrite length_app, length_fmap; lia.
    destruct (throws_now (trace s) (OpMoveAssign d y)) eqn:Hthrow; cbn [post].
    + split; [done|]. eauto.
    + set (s1 := upd s _ _).
      assert (Hnull : p_base d_last = None ->
                (A ++ (Some <$> ys)) ++ Some (moved_from y) :: Some y :: B = []).
      { intros Hn. rewrite Hn in Hr. by destruct A, ys. }
      eapply post_mono.
      * apply (IH s1 last d_last (k + 1) A (moved_from y) (Some y :: B)).
        -- subst s1. cbn [upd heap]. rewrite region_update_eq by done.
           by rewrite <- app_assoc.
        -- done.
        -- lia.
        -- lia.
      * intros _ s' ->. subst s1. rewrite upd_upd. cbn [upd heap].
        rewrite update_update. rewrite rev_app_distr. simpl.
        rewrite back_rest_snoc. rewrite fmap_app, <- !app_assoc. done.
      * intros s' [Ho Ht]. split; [|done]. by rewrite Ho.
Qed.

(** [std::move_backward(first, last, d_last)] as [Emplace] calls it. *)
Lemma std_move_backward_up s first last d_last A ys d B :
  region (heap s) (p_base d_last) = Some (A ++ (Some <$> ys) ++ Some d :: B) ->
  p_base first = p_base d_last ->
  p_base last = p_base d_last ->
  p_off first = Z.of_nat (length A) ->
  p_off last = Z.of_nat (length A + length ys) ->
  p_off d_last = p_off last + 1 ->
  p_off last <= PTRDIFF_MAX ->
  post (std_move_backward first last d_last s)
    (fun _ s' =>
       s' = upd s (update_region (heap s) (p_base d_last)
                     (A ++ Some (back_rest d ys) :: (Some <$> ys) ++ B))
                  (shift_events d (rev ys)))
    (fun s' => objs s' = objs s /\ exists tr op, throws_now tr op = true).
Proof.
  intros Hr Hf Hl Hfo Hlo Hd Hmax. unfold std_move_backward.
  erewrite (bind_ok _ _ _ (length ys));
    [|apply range_length_ok; [congruence|lia]].
  apply (shift_up_range ys s last d_last 1 A d B); [done|done|lia|lia].
Qed.
End Shifting.

(* ===================================================================== *)
(** * Positions: the [assert] of [part_000], and [Erase] *)
(* ===================================================================== *)

Section Positions.
Context {T : Type} {elem : Element T} {env : Faults T}.
Implicit Types (s : State T Vector) (v : Vector) (xs ys : list T).

(** The [assert] that opens [Emplace] and [Erase] in [part_000], for a
    position in the block of the vector: it passes exactly for the
    positions of the elements. *)
Lemma assert_valid_pos_spec s this v (pos : Ptr) :
  objs s !! this = Some v ->
  p_base pos = buffer_ (data_ v) ->
  Part000.assert_valid_pos this pos s =
    if (0 <=? p_off pos) && (p_off pos <? size_ v) then Ok tt s else Abort.
Proof.
  intros Hobj Hbase. unfold Part000.assert_valid_pos, Vec.begin_, Vec.end_.
  erewrite bind_ok; cycle 1.
  { erewrite bind_ok; [|by eapply get_data_ok]. done. }
  unfold ptr_le, ptr_lt. cbn [RawMem.GetAddress ptr_add p_base p_off].
  rewrite bool_decide_eq_true_2 by done. rewrite bind_unfold, ret_unfold.
  destruct (0 <=? p_off pos); [|done]. cbn [andb].
  erewrite bind_ok; cycle 1.
  { erewrite bind_ok; [|by eapply get_data_ok].
    erewrite bind_ok; [|by eapply get_size_ok]. done. }
  cbn [RawMem.GetAddress ptr_add p_base p_off].
  rewrite bool_decide_eq_true_2 by done. rewrite bind_unfold, ret_unfold.
  rewrite Z.add_0_l. unfold assert. by destruct (p_off pos <? size_ v).
Qed.

(** The block of a vector, split at an element. *)
Lemma block_of_middle (A : list T) x ys cap :
  block_of (A ++ x :: ys) cap
  = (Some <$> A) ++ Some x :: (Some <$> ys)
      ++ replicate (Z.to_nat cap - length (A ++ x :: ys)) None.
Proof. unfold block_of. rewrite fmap_app, <- app_assoc. done. Qed.

(** The statements of [Erase] on the position of the element [x]: the
    elements behind it move one slot down, by move assignment, and the last
    slot, left moved-from, is destroyed by [PopBack]. *)
Lemma Erase_body_spec (PopBack : loc -> M T Vector unit) s this v A x ys :
  PopBack = VectorH.PopBack \/ PopBack = Part000.PopBack ->
  objs s !! this = Some v ->
  owns (heap s) v (A ++ x :: ys) ->
  let pos := ptr_add (RawMem.GetAddress (data_ v)) (Z.of_nat (length A)) in
  let v' := {| data_ := data_ v; size_ := size_ v - 1 |} in
  post (VecCommon.Erase_body PopBack this pos s)
    (fun r s' =>
       r = pos /\
       objs s' = <[this := v']> (objs s) /\
       owns (heap s') v' (A ++ ys) /\
       heap s' = update_region (heap s) (buffer_ (data_ v))
                   (block_of (A ++ ys) (capacity_ (data_ v))) /\
       trace s' = trace s ++ shift_events x ys ++ [EvDestroy (shift_rest x ys)])
    (fun s' =>
       objs s' = objs s /\
       exists ys1 y ys2,
         ys = ys1 ++ y :: ys2 /\
         throws_now (trace s ++ shift_events x ys1)
                    (OpMoveAssign (shift_rest x ys1) y) = true /\
         owns (heap s') v (A ++ ys1 ++ shift_rest x ys1 :: y :: ys2) /\
         trace s' = trace s ++ shift_events x ys1).
Proof.
  intros HPop Hobj Hown pos v'. pose proof Hown as (Hsz & Hcap & Hreg). pose proof max_size_le as Hms.
  rewrite length_app in Hsz. cbn [length] in Hsz.
  set (F := replicate (Z.to_nat (capacity_ (data_ v)) - length (A ++ x :: ys))
                      (None : option T)).
  assert (Hlen : forall (zs1 zs2 : list T) z,
            (length zs1 + length zs2 = length ys)%nat ->
            length (A ++ zs1 ++ z :: zs2) = length (A ++ x :: ys)).
  { intros zs1 zs2 z Hz. rewrite !length_app. simpl. lia. }
  unfold VecCommon.Erase_body.
  erewrite bind_ok; [|by eapply get_data_ok].
  unfold ptr_diff. subst pos. cbn [ptr_add RawMem.GetAddress p_base p_off].
  rewrite bool_decide_eq_true_2 by done. rewrite bind_unfold, ret_unfold.
  replace (0 + Z.of_nat (length A) - 0) with (Z.of_nat (length A)) by lia.
  rewrite (wrap_small (Z.of_nat (length A))) by lia.
  erewrite bind_ok; [|by eapply get_size_ok].
  apply post_bind.
  eapply post_mono.
  - eapply (std_move_down s _ _ _ (Some <$> A) x ys F);
      cbn [RawMem.plus p_base p_off].
    + rewrite Hreg. f_equal. apply block_of_middle.
    + done.
    + done.
    + by rewrite length_fmap.
    + rewrite wrap_small by lia. rewrite length_fmap. lia.
    + rewrite wrap_small by lia. lia.
    + lia.
  - intros _ s1 ->. cbn [post RawMem.plus p_base].
    set (s1 := upd s _ _).
    assert (Hown1 : owns (heap s1) v ((A ++ ys) ++ [shift_rest x ys])).
    { split; [|split; [done|]].
      - rewrite <- app_assoc, Hlen; [|simpl; lia].
        rewrite length_app. simpl. lia.
      - subst s1. cbn [upd heap]. rewrite region_update_eq.
        + f_equal. unfold block_of. rewrite !fmap_app, <- !app_assoc. simpl.
          do 3 f_equal. subst F. f_equal.
          by rewrite <- (Hlen ys [] (shift_rest x ys)) by (simpl; lia).
        + intros Hn. rewrite Hn in Hreg. simpl in Hreg. by destruct A. }
    destruct (PopBack_last s1 this v (A ++ ys) (shift_rest x ys) Hobj Hown1)
      as [HpopV HpopP].
    apply post_bind.
    assert (Hpop : PopBack this s1 = VectorH.PopBack this s1).
    { destruct HPop as [->| ->]; [done|]. by rewrite HpopP, HpopV. }
    rewrite Hpop, HpopV. cbn [post].
    erewrite bind_ok; [|by eapply get_data_ok; cbn [objs]; apply lookup_insert_eq].
    rewrite ret_unfold. cbn [post data_ heap objs trace].
    subst s1. cbn [upd heap objs trace]. rewrite update_update.
    split; [done|]. split; [done|]. split; [|split; [done|]].
    + subst v'. split; [|split]; cbn [size_ data_ capacity_ buffer_].
      * rewrite length_app. lia.
      * lia.
      * rewrite region_update_eq; [done|].
        intros Hn. rewrite Hn in Hreg. simpl in Hreg. by destruct A.
    + by rewrite <- app_assoc.
  - intros s1 (ys1 & y & ys2 & -> & Ht & ->). cbn [upd objs heap trace].
    split; [done|]. exists ys1, y, ys2. split; [done|]. split; [done|].
    split; [|done].
    split; [|split; [done|]].
    + rewrite Hlen; [|rewrite length_app; simpl; lia].
      rewrite length_app. simpl. lia.
    + cbn [RawMem.plus p_base]. rewrite region_update_eq.
      * f_equal. unfold block_of. rewrite !fmap_app, <- !app_assoc. simpl.
        do 5 f_equal. subst F. f_equal.
        by rewrite (Hlen ys1 (y :: ys2) (shift_rest x ys1))
          by (rewrite length_app; simpl; lia).
      * intros Hn. rewrite Hn in Hreg. simpl in Hreg. by destruct A.
Qed.

(** [Erase(end())] in [vector.h]: the run to move is [end() + 1, end()),
    which is no valid range. *)
Lemma VectorH_Erase_end s this v xs :
  objs s !! this = Some v ->
  owns (heap s) v xs ->
  VectorH.Erase this (ptr_add (RawMem.GetAddress (data_ v)) (size_ v)) s = Undefined.
Proof.
  intros Hobj (Hsz & Hcap & Hreg). pose proof max_size_le as Hms.
  unfold VectorH.Erase, VecCommon.Erase_body.
  erewrite bind_ok; [|by eapply get_data_ok].
  unfold ptr_diff. cbn [ptr_add RawMem.GetAddress p_base p_off].
  rewrite bool_decide_eq_true_2 by done. rewrite bind_unfold, ret_unfold.
  replace (0 + size_ v - 0) with (size_ v) by lia.
  rewrite (wrap_small (size_ v)) by lia.
  erewrite bind_ok; [|by eapply get_size_ok].
  rewrite bind_unfold. unfold std_move. rewrite bind_unfold.
  rewrite range_length_inverted; [done|done|].
  cbn [RawMem.plus p_off]. rewrite (wrap_small (size_ v + 1)) by lia. lia.
Qed.
End Positions.

(* ===================================================================== *)
(** * [Emplace] *)
(* ===================================================================== *)

Section EmplaceLogic.
Context {T : Type} {elem : Element T} {env : Faults T}.
Implicit Types (s : State T Vector) (v : Vector) (xs ys : list T).

(** Move construction into the free slot just behind the source. *)
Lemma move_construct_at_next s (p src : Ptr) P l F :
  region (heap s) (p_base p) = Some (P ++ Some l :: None :: F) ->
  p_base src = p_base p ->
  p_off src = Z.of_nat (length P) ->
  p_off p = Z.of_nat (length P) + 1 ->
  (move_construct_at p src : M T Vector unit) s =
    if throws_now (trace s) (OpMoveCtor l) then Throw s
    else Ok tt (upd s (update_region (heap s) (p_base p)
                         (P ++ Some (moved_from l) :: Some l :: F))
                      [EvConstruct (OpMoveCtor l) l]).
Proof.
  intros Hr Hb Hsrc Hp. unfold move_construct_at.
  erewrite bind_ok; cycle 1.
  { eapply (load_middle s src P l (None :: F)); [by rewrite Hb|done]. }
  rewrite bind_unfold.
  erewrite (construct_at_middle s p (P ++ [Some l]) F); cycle 1.
  { rewrite Hr. by rewrite <- app_assoc. }
  { rewrite length_app. simpl. lia. }
  destruct (throws_now (trace s) (OpMoveCtor l)); [done|].
  erewrite (write_slot_middle _ src P (Some l) (Some l :: F)); cycle 1.
  { cbn [upd heap op_value]. rewrite Hb. rewrite region_update_eq.
    - by rewrite <- app_assoc.
    - intros Hn. rewrite Hn in Hr. by destruct P. }
  { done. }
  rewrite upd_upd. cbn [upd heap]. rewrite Hb, update_update. done.
Qed.

(** Move assignment from a local object. *)
Lemma move_assign_from_middle s (p : Ptr) A d B x :
  region (heap s) (p_base p) = Some (A ++ Some d :: B) ->
  p_off p = Z.of_nat (length A) ->
  (move_assign_from p x : M T Vector unit) s =
    if throws_now (trace s) (OpMoveAssign d x) then Throw s
    else Ok tt (upd s (update_region (heap s) (p_base p) (A ++ Some x :: B))
                      [EvAssign (OpMoveAssign d x) x]).
Proof.
  intros Hr Hp. unfold move_assign_from.
  erewrite bind_ok; [|by eapply load_middle].
  rewrite bind_unfold, assign_unfold.
  destruct (throws_now (trace s) (OpMoveAssign d x)); [done|].
  erewrite write_slot_middle; [|exact Hr|exact Hp].
  by rewrite upd_upd.
Qed.

(** The events of [Emplace] in place, before the position of [B ++ [l]]:
    the temporary, the move of the last element into the free slot, the
    shift of the others, the assignment of the temporary, and the
    destruction of the temporary. *)
Definition emplace_in_place_events (args : Args T) (B : list T) (l : T)
  : list (Event T) :=
  let x := op_value (ctor_of args) in
  EvConstruct (ctor_of args) x
  :: EvConstruct (OpMoveCtor l) l
  :: shift_events (moved_from l) (rev B)
  ++ [EvAssign (OpMoveAssign (back_rest (moved_from l) B) x) x;
      EvDestroy (moved_from x)].

(** [Emplace] with spare capacity, at the position of an element: the
    vector holds [A ++ B ++ [l]] and the position is that of the first
    element behind [A]. *)
Lemma Emplace_body_in_place s this v A B l args :
  objs s !! this = Some v ->
  owns (heap s) v (A ++ B ++ [l]) ->
  size_ v < capacity_ (data_ v) ->
  let pos := ptr_add (RawMem.GetAddress (data_ v)) (Z.of_nat (length A)) in
  let x := op_value (ctor_of args) in
  let v' := {| data_ := data_ v; size_ := size_ v + 1 |} in
  post (VecCommon.Emplace_body this pos args s)
    (fun r s' =>
       r = pos /\
       objs s' = <[this := v']> (objs s) /\
       owns (heap s') v' (A ++ x :: B ++ [l]) /\
       heap s' = update_region (heap s) (buffer_ (data_ v))
                   (block_of (A ++ x :: B ++ [l]) (capacity_ (data_ v))) /\
       trace s' = trace s ++ emplace_in_place_events args B l)
    (fun s' => objs s' = objs s /\ exists tr op, throws_now tr op = true).
Proof.
  intros Hobj Hown Hroom pos x v'. pose proof Hown as (Hsz & Hcap & Hreg). pose proof max_size_le as Hms.
  rewrite !length_app in Hsz. cbn [length] in Hsz.
  set (F := replicate (Z.to_nat (capacity_ (data_ v)) - length (A ++ B ++ [l]) - 1)
                      (None : option T)).
  assert (Hblock : block_of (A ++ B ++ [l]) (capacity_ (data_ v))
            = ((Some <$> A) ++ (Some <$> B)) ++ Some l :: None :: F).
  { unfold block_of. rewrite !fmap_app, <- !app_assoc. simpl. do 3 f_equal.
    subst F.
    replace (Z.to_nat (capacity_ (data_ v)) - length (A ++ B ++ [l]))%nat
      with (S (Z.to_nat (capacity_ (data_ v)) - length (A ++ B ++ [l]) - 1))%nat
      at 1; [done|].
    rewrite !length_app. simpl. lia. }
  assert (Hnull : forall (P Q : list (option T)) (y : option T),
            buffer_ (data_ v) = None -> P ++ y :: Q = []).
  { intros P Q y Hn. rewrite Hn in Hreg. simpl in Hreg. rewrite Hblock in Hreg.
    injection Hreg as Hreg. by destruct A, B. }
  unfold VecCommon.Emplace_body.
  erewrite bind_ok; [|by eapply get_data_ok].
  unfold ptr_diff. subst pos. cbn [ptr_add RawMem.GetAddress p_base p_off].
  rewrite bool_decide_eq_true_2 by done. rewrite bind_unfold, ret_unfold.
  replace (0 + Z.of_nat (length A) - 0) with (Z.of_nat (length A)) by lia.
  rewrite (wrap_small (Z.of_nat (length A))) by lia.
  erewrite bind_ok; [|by eapply get_size_ok].
  erewrite bind_ok; [|by eapply Capacity_ok].
  destruct (Z.eqb_spec (size_ v) (capacity_ (data_ v))); [lia|].
  apply post_bind. apply post_bind.
  rewrite construct_unfold.
  destruct (throws_now (trace s) (ctor_of args)) eqn:Hctor; cbn [post]; [by eauto|].
  fold x. set (s1 := upd s _ _).
  apply post_bind. apply post_on_unwind.
  apply post_bind.
  (* the last element moves into the free slot *)
  erewrite (move_construct_at_next s1 _ _ ((Some <$> A) ++ (Some <$> B)) l F);
    cbn [RawMem.plus RawMem.at_ p_base p_off]; cycle 1.
  { subst s1. cbn [upd heap]. by rewrite Hreg, Hblock. }
  { done. }
  { rewrite wrap_small by lia. rewrite length_app, !length_fmap. lia. }
  { rewrite length_app, !length_fmap. lia. }
  destruct (throws_now (trace s1) (OpMoveCtor l)) eqn:Hmove; cbn [post].
  { split; [done|]. eauto. }
  set (s2 := upd s1 _ _).
  apply post_bind.
  (* the others move one slot up *)
  eapply post_mono.
  - eapply (std_move_backward_up s2 _ _ _ (Some <$> A) B (moved_from l) (Some l :: F));
      cbn [RawMem.plus ptr_add p_base p_off].
    + subst s2. cbn [upd heap]. rewrite region_update_eq by apply Hnull.
      by rewrite <- app_assoc.
    + done.
    + done.
    + by rewrite length_fmap.
    + rewrite length_fmap. lia.
    + lia.
    + lia.
  - intros _ s3 ->. cbn [post RawMem.plus p_base].
    set (s3 := upd s2 _ _).
    (* the temporary is assigned to the slot left moved-from *)
    erewrite (move_assign_from_middle s3 _ (Some <$> A) (back_rest (moved_from l) B)
                ((Some <$> B) ++ Some l :: F) x);
      cbn [RawMem.at_ p_base p_off]; cycle 1.
    { subst s3. cbn [upd heap]. by rewrite region_update_eq by apply Hnull. }
    { by rewrite length_fmap. }
    destruct (throws_now (trace s3) _) eqn:Hassign; cbn [post].
    { split; [done|]. eauto. }
    unfold emit. cbn [post].
    erewrite bind_ok; [|by eapply set_size_ok].
    erewrite bind_ok; [|by eapply get_data_ok; cbn [with_obj objs];
                           apply lookup_insert_eq].
    rewrite ret_unfold. cbn [post data_ with_obj heap objs trace].
    rewrite wrap_small by lia.
    assert (Hfinal : (Some <$> A) ++ Some x :: (Some <$> B) ++ Some l :: F
              = block_of (A ++ x :: B ++ [l]) (capacity_ (data_ v))).
    { unfold block_of. rewrite !fmap_app, <- !app_assoc. simpl.
      rewrite !fmap_app, <- !app_assoc. simpl. do 5 f_equal.
      subst F. rewrite !length_app. simpl. rewrite ?length_app. simpl. lia. }
    subst s3 s2 s1. cbn [upd heap objs trace]. rewrite !update_update, Hfinal.
    split; [done|]. split; [done|]. split; [|split; [done|]].
    + subst v'. split; [|split]; cbn [size_ data_ capacity_ buffer_].
      * rewrite !length_app. simpl. rewrite ?length_app. simpl. lia.
      * lia.
      * rewrite region_update_eq; [done|]. rewrite <- Hfinal. apply Hnull.
    + unfold emplace_in_place_events. fold x.
      by rewrite <- !app_assoc.
  - intros s3 [Ho Ht]. cbn [post]. split; [|done]. by rewrite Ho.
Qed.
End EmplaceLogic.

Section EmplaceGrowth.
Context {T : Type} {elem : Element T} {env : Faults T}.
Implicit Types (s : State T Vector) (v : Vector) (xs ys : list T).

Lemma post_and {A} (r : Result T Vector A) Q Q' E E' :
  post r Q E -> post r Q' E' ->
  post r (fun a s => Q a s /\ Q' a s) (fun s => E s /\ E' s).
Proof. destruct r; simpl; auto. Qed.

(** A relocation throws only if the move constructor of [T] is not
    [noexcept]. *)
Lemma relocate_n_throws s first n d_first xs sA sB dA dB :
  region (heap s) (p_base first) = Some (sA ++ (Some <$> xs) ++ sB) ->
  p_off first = Z.of_nat (length sA) ->
  region (heap s) (p_base d_first) = Some (dA ++ replicate (length xs) None ++ dB) ->
  p_off d_first = Z.of_nat (length dA) ->
  n = Z.of_nat (length xs) ->
  p_base first ≠ p_base d_first ->
  post (Vec.relocate_n first n d_first s)
    (fun _ _ => True)
    (fun _ => is_nothrow_move_constructible = false).
Proof.
  intros Hs Hso Hd Hdo Hn Hne. unfold Vec.relocate_n.
  destruct (is_nothrow_move_constructible || negb is_copy_constructible) eqn:Hmv.
  - eapply post_mono.
    + by eapply uninitialized_move_n_spec.
    + done.
    + intros s' (xs1 & x & xs2 & _ & Ht & _). unfold throws_now in Ht.
      by destruct is_nothrow_move_constructible.
  - eapply post_mono.
    + eapply uninitialized_copy_n_spec; done.
    + done.
    + intros s' _. by apply orb_false_elim in Hmv as [-> _].
Qed.

Lemma relocated_sources_copy xs :
  is_copy_constructible = true ->
  is_nothrow_move_constructible = false ->
  relocated_sources xs = xs.
Proof. intros Hc Hn. unfold relocated_sources, relocates_by_move. by rewrite Hc, Hn. Qed.

Lemma relocated_sources_app xs ys :
  relocated_sources (xs ++ ys) = relocated_sources xs ++ relocated_sources ys.
Proof.
  unfold relocated_sources. destruct relocates_by_move; [apply fmap_app|done].
Qed.

(** The two relocations of [Emplace] are written once per branch of the
    [if constexpr]; each branch is the relocation that [Reserve] and
    [EmplaceBack] run. *)
Lemma relocate_twice (f d f' d' : Ptr) (n n' : Z) (h h' : M T Vector unit) :
  (if is_nothrow_move_constructible || negb is_copy_constructible
   then on_unwind (uninitialized_move_n f n d) h;;
        on_unwind (uninitialized_move_n f' n' d') h'
   else on_unwind (uninitialized_copy_n f n d) h;;
        on_unwind (uninitialized_copy_n f' n' d') h')
  = (on_unwind (Vec.relocate_n f n d) h;;
     on_unwind (Vec.relocate_n f' n' d') h').
Proof. unfold Vec.relocate_n. by destruct (_ || _). Qed.

(** Releasing the block that was allocated last gives the heap before, if
    nothing else has changed since. *)
Lemma release_over_fresh (h h' : gmap addr (list (option T))) :
  (forall a, a ≠ fresh (dom h) -> h' !! a = h !! a) ->
  release h' (Some (fresh (dom h))) = h.
Proof.
  intros Hsame. apply map_eq. intros a. simpl.
  destruct (decide (a = fresh (dom h))) as [->|Hne].
  - rewrite lookup_delete_eq. symmetry. apply not_elem_of_dom, is_fresh.
  - rewrite lookup_delete_ne by done. by apply Hsame.
Qed.

(** [Emplace] on a full vector holding [A ++ B], at the position behind
    [A] (which is [end()] if [B] is empty). *)
Lemma Emplace_body_grow s this v A B args :
  objs s !! this = Some v ->
  owns (heap s) v (A ++ B) ->
  size_ v = capacity_ (data_ v) ->
  let pos := ptr_add (RawMem.GetAddress (data_ v)) (Z.of_nat (length A)) in
  let x := op_value (ctor_of args) in
  let k := Z.max 1 (2 * size_ v) in
  post (VecCommon.Emplace_body this pos args s)
    (fun r s' => exists a',
       let v' := {| data_ := {| buffer_ := Some a'; capacity_ := k |};
                    size_ := size_ v + 1 |} in
       heap s !! a' = None /\
       r = {| p_base := Some a'; p_off := Z.of_nat (length A) |} /\
       objs s' = <[this := v']> (objs s) /\
       owns (heap s') v' (A ++ x :: B) /\
       (forall b blk, b ≠ buffer_ (data_ v) ->
          region (heap s) b = Some blk -> region (heap s') b = Some blk) /\
       trace s' = trace s
         ++ EvAllocate k a'
         :: EvConstruct (ctor_of args) x
         :: relocation_events A ++ relocation_events B
         ++ (EvDestroy <$> relocated_sources (A ++ B))
         ++ release_events (buffer_ (data_ v)) [])
    (fun s' =>
       objs s' = objs s /\
       (is_copy_constructible = true \/ is_nothrow_move_constructible = true ->
        heap s' = heap s) /\
       (((PTRDIFF_MAX <? k * sizeof) || alloc_throws (trace s) (k * sizeof) = true) \/
        exists tr op, throws_now tr op = true)).
Proof.
  intros Hobj Hown Hfull pos x k. pose proof Hown as (Hsz & Hcap & Hreg). pose proof max_size_le as Hms.
  rewrite length_app in Hsz.
  unfold VecCommon.Emplace_body.
  erewrite bind_ok; [|by eapply get_data_ok].
  unfold ptr_diff. subst pos. cbn [ptr_add RawMem.GetAddress p_base p_off].
  rewrite bool_decide_eq_true_2 by done. rewrite bind_unfold, ret_unfold.
  replace (0 + Z.of_nat (length A) - 0) with (Z.of_nat (length A)) by lia.
  rewrite (wrap_small (Z.of_nat (length A))) by lia.
  erewrite bind_ok; [|by eapply get_size_ok].
  erewrite bind_ok; [|by eapply Capacity_ok].
  rewrite <- Hfull, Z.eqb_refl.
  apply post_bind. apply post_bind. rewrite grown_max by lia.
  rewrite ctor_unfold by (first [lia | apply grown_bytes; lia]). fold k.
  destruct (Z.eqb_spec k 0); [lia|].
  destruct (_ || _) eqn:Halloc; cbn [post]; [by auto|].
  set (a' := fresh (dom (heap s))).
  set (s1 := upd s _ _).
  assert (Hne : buffer_ (data_ v) ≠ Some a') by (by eapply fresh_not_region).
  assert (Hother : forall a (h' : gmap addr (list (option T))) blk,
            a ≠ a' -> (<[a' := blk]> h') !! a = h' !! a).
  { intros a h' blk Ha. by rewrite lookup_insert_ne. }
  set (F := replicate (Z.to_nat (capacity_ (data_ v)) - length (A ++ B)) (None : option T)).
  set (G := replicate (Z.to_nat k - length A - length B - 1) (None : option T)).
  assert (Hold : block_of (A ++ B) (capacity_ (data_ v))
            = (Some <$> A) ++ (Some <$> B) ++ F).
  { unfold block_of. by rewrite fmap_app, <- app_assoc. }
  assert (Hnew : replicate (Z.to_nat k) (None : option T)
            = replicate (length A) None ++ None :: replicate (length B) None ++ G).
  { subst G. rewrite <- replicate_add. rewrite <- replicate_add_S. f_equal. lia. }
  apply post_bind. apply post_on_unwind. apply post_bind.
  erewrite (construct_at_middle s1 _ (replicate (length A) None)
              (replicate (length B) None ++ G));
    cbn [RawMem.plus p_base p_off].
  2:{ subst s1. cbn [upd heap region buffer_]. by rewrite lookup_insert_eq, Hnew. }
  2:{ by rewrite length_replicate. }
  destruct (throws_now (trace s1) (ctor_of args)) eqn:Hctor; cbn [post].
  { (* the constructor of the new element throws *)
    erewrite dtor_region; cbn [buffer_].
    2:{ subst s1. cbn [upd heap region buffer_]. by rewrite lookup_insert_eq. }
    cbn [post upd objs heap]. split; [done|]. split; [|by eauto].
    intros _. subst s1. cbn [upd heap]. apply release_over_fresh.
    intros a Ha. by apply Hother. }
  fold x. set (s2 := upd s1 _ _).
  apply post_bind. rewrite relocate_twice. apply post_bind.
  assert (Hreg2 : region (heap s2) (buffer_ (data_ v))
            = Some ([] ++ (Some <$> A) ++ (Some <$> B) ++ F)).
  { subst s2 s1. cbn [upd heap buffer_].
    rewrite region_update_ne by done.
    change (region (<[a':=?b]> (heap s)) ?y)
      with (region (update_region (heap s) (Some a') b) y).
    rewrite region_update_ne by done. by rewrite Hreg, Hold. }
  assert (Hnew2 : region (heap s2) (Some a')
            = Some ([] ++ replicate (length A) None
                       ++ Some x :: replicate (length B) None ++ G)).
  { subst s2. cbn [upd heap buffer_]. by rewrite region_update_eq. }
  (* the elements before the position *)
  apply post_on_unwind.
  eapply post_mono.
  - apply post_and.
    + eapply (relocate_n_spec s2 _ _ _ A [] _ [] _);
        cbn [RawMem.GetAddress p_base p_off buffer_]; [exact Hreg2|done|exact Hnew2|done|done|done].
    + eapply (relocate_n_throws s2 _ _ _ A [] _ [] _);
        cbn [RawMem.GetAddress p_base p_off buffer_]; [exact Hreg2|done|exact Hnew2|done|done|done].
  - intros _ s3 [-> _]. cbn [post RawMem.GetAddress p_base buffer_].
    set (s3 := upd s2 _ _).
    assert (Hreg3 : region (heap s3) (buffer_ (data_ v))
              = Some ((Some <$> relocated_sources A) ++ (Some <$> B) ++ F)).
    { subst s3. cbn [upd heap]. rewrite region_update_ne by done.
      rewrite region_update_eq; [done|].
      intros Hn. destruct (owns_null _ _ _ Hown Hn) as [Hnil Hc0].
      apply app_eq_nil in Hnil as [-> ->]. subst F. rewrite Hc0.
      by rewrite relocated_sources_nil. }
    assert (Hnew3 : region (heap s3) (Some a')
              = Some (((Some <$> A) ++ [Some x]) ++ replicate (length B) None ++ G)).
    { subst s3. cbn [upd heap]. rewrite region_update_eq by done.
      by rewrite <- !app_assoc. }
    (* the elements from the position on *)
    apply post_on_unwind.
    eapply post_mono.
    + apply post_and.
      * eapply (relocate_n_spec s3 _ _ _ B _ _ _ _);
          cbn [RawMem.plus p_base p_off buffer_];
          [exact Hreg3|by rewrite length_fmap, relocated_sources_length
          |exact Hnew3| | |done].
        -- rewrite wrap_small by lia. rewrite length_app, length_fmap. simpl. lia.
        -- rewrite wrap_small by lia. lia.
      * eapply (relocate_n_throws s3 _ _ _ B _ _ _ _);
          cbn [RawMem.plus p_base p_off buffer_];
          [exact Hreg3|by rewrite length_fmap, relocated_sources_length
          |exact Hnew3| | |done].
        -- rewrite wrap_small by lia. rewrite length_app, length_fmap. simpl. lia.
        -- rewrite wrap_small by lia. lia.
    + intros _ s4 [-> _]. cbn [post RawMem.plus p_base buffer_].
      set (h4 := update_region _ _ _).
      (* the old elements are destroyed, the blocks exchanged *)
      erewrite destroy_n_ok with (xs := relocated_sources (A ++ B)) (A := []);
        cbn [RawMem.GetAddress p_base p_off upd heap].
      2:{ subst h4. rewrite region_update_ne by done.
          rewrite region_update_eq.
          - rewrite relocated_sources_app, fmap_app, <- app_assoc. done.
          - intros Hn. destruct (owns_null _ _ _ Hown Hn) as [Hnil Hc0].
            apply app_eq_nil in Hnil as [-> ->]. subst F. rewrite Hc0.
            by rewrite relocated_sources_nil. }
      2: done.
      2: rewrite relocated_sources_length, length_app; lia.
      cbn [post]. rewrite upd_upd.
      set (s5 := upd s3 _ _).
      cbn [RawMem.Swap].
      erewrite bind_ok; [|by eapply set_data_ok].
      erewrite dtor_region; cbn [buffer_ with_obj heap].
      2:{ subst s5 h4. cbn [upd heap]. rewrite region_update_eq; [done|].
          intros Hn. destruct (owns_null _ _ _ Hown Hn) as [Hnil Hc0].
          rewrite relocated_sources_length, Hnil. subst F. rewrite Hc0. done. }
      cbn [post].
      erewrite bind_ok; [|by eapply set_size_ok; cbn [upd with_obj objs];
                             apply lookup_insert_eq].
      cbn [data_ size_].
      erewrite bind_ok; [|by eapply get_data_ok; cbn [upd with_obj objs];
                             apply lookup_insert_eq].
      rewrite ret_unfold. cbn [post data_ size_ RawMem.plus buffer_].
      exists a'. cbn [upd with_obj objs heap trace]. rewrite insert_insert_eq.
      rewrite wrap_small by lia.
      split; [apply not_elem_of_dom, is_fresh|]. split; [done|]. split; [done|].
      split; [|split].
      * split; [|split]; cbn [data_ capacity_ size_ buffer_].
        -- rewrite length_app. simpl. lia.
        -- apply orb_false_elim in Halloc as [Hmax _].
           apply Z.ltb_ge, max_size_fits in Hmax. lia.
        -- subst s5 h4 s3 s2 s1. cbn [upd heap].
           rewrite region_release_ne by done.
           rewrite region_update_ne by done.
           rewrite region_update_eq by done.
           f_equal. unfold block_of. rewrite !fmap_app, <- !app_assoc. simpl.
           do 3 f_equal. subst G.
           match goal with
           | |- replicate ?n _ = replicate ?m _ =>
               replace n with m by (rewrite ?length_app; simpl; lia)
           end.
           done.
      * intros b blk Hb Hblk.
        assert (Hba : Some a' ≠ b).
        { intros <-. by eapply (fresh_not_region (heap s) (Some a')). }
        assert (Hb' : buffer_ (data_ v) ≠ b) by done.
        subst s5 h4 s3 s2 s1. cbn [upd heap buffer_].
        rewrite region_release_ne by done.
        rewrite !region_update_ne by done.
        change (region (<[a':=?y]> (heap s)) b)
          with (region (update_region (heap s) (Some a') y) b).
        by rewrite region_update_ne.
      * subst s5 s3 s2 s1. cbn [upd trace]. rewrite <- !app_assoc. simpl.
        do 6 f_equal.
        apply release_events_live. subst F.
        by rewrite live_app, !live_None.
    + (* the second relocation throws *)
      intros s4 [(Ho & Hd4 & Hcopy & _ & Ht) Hnn]. cbn [post].
      cbn [RawMem.plus RawMem.GetAddress p_base buffer_] in Hd4.
      erewrite destroy_n_ok with (xs := A ++ [x]) (A := []);
        cbn [RawMem.GetAddress p_base p_off buffer_].
      2:{ rewrite Hd4, Hnew3. by rewrite fmap_app. }
      2: done.
      2:{ rewrite wrap_small by lia. rewrite length_app. simpl. lia. }
      cbn [post].
      erewrite dtor_region; cbn [buffer_].
      2:{ cbn [upd heap]. by rewrite region_update_eq. }
      cbn [post upd objs heap]. split; [by rewrite Ho|]. split; [|by right].
      intros Hc. destruct Hc as [Hc|Hc]; [|congruence].
      rewrite (Hcopy (or_introl Hc)).
      apply release_over_fresh. intros a Ha. simpl.
      rewrite lookup_insert_ne by done.
      subst s3. cbn [upd heap]. simpl. rewrite lookup_insert_ne by done.
      rewrite (relocated_sources_copy _ Hc Hnn).
      destruct (buffer_ (data_ v)) as [a0|] eqn:Hbuf; simpl.
      * destruct (decide (a = a0)) as [->|Ha0].
        -- rewrite lookup_insert_eq. simpl in Hreg. by rewrite Hreg, Hold.
        -- by rewrite !lookup_insert_ne by done.
      * by rewrite !lookup_insert_ne by done.
  - (* the first relocation throws *)
    intros s3 [(Ho & Hd3 & Hcopy & _ & Ht) Hnn]. cbn [post].
    cbn [RawMem.GetAddress p_base buffer_] in Hd3.
    erewrite (destroy_at_middle s3 _ (replicate (length A) None) x
                (replicate (length B) None ++ G));
      cbn [RawMem.at_ p_base p_off buffer_].
    2:{ by rewrite Hd3, Hnew2. }
    2:{ by rewrite length_replicate. }
    cbn [post].
    erewrite dtor_region; cbn [buffer_].
    2:{ cbn [upd heap]. by rewrite region_update_eq. }
    cbn [post upd objs heap]. split; [by rewrite Ho|]. split; [|by right].
    intros Hc. rewrite (Hcopy Hc).
    apply release_over_fresh. intros a Ha. simpl.
    rewrite lookup_insert_ne by done.
    subst s2 s1. cbn [upd heap]. simpl.
    by rewrite !lookup_insert_ne by done.
Qed.
End EmplaceGrowth.

(* ===================================================================== *)
(** * Further properties of the code *)
(* ===================================================================== *)

Section LifetimeProperties.
Context {T : Type} {elem : Element T} {env : Faults T}.
Implicit Types (s : State T Vector) (v : Vector) (xs ys : list T).

(** X1. [Vector(n)], for [n] whose byte count [n * sizeof(T)] [size_t] can
    hold, never has undefined behaviour. When it returns, the new object
    has size and capacity [n] and holds [n] value-initialised elements; the
    blocks that were there are untouched; the trace shows at most one
    allocation (none if [n = 0], when the buffer is null and the heap is as
    before) and exactly [n] value constructions. When it throws ([operator
    new] or a constructor of [T]), heap and objects are as before: the
    elements already built have been destroyed and the block released. *)
Theorem Vector_sized_constructor s n :
  0 <= n ->
  n * sizeof < size_mod ->
  post (Vec.ctor_sized n s)
    (fun this s' => exists v,
       objs s !! this = None /\
       objs s' = <[this := v]> (objs s) /\
       size_ v = n /\ capacity_ (data_ v) = n /\
       owns (heap s') v (replicate (Z.to_nat n) value_init) /\
       blocks_kept (heap s) (heap s') /\
       (n = 0 -> buffer_ (data_ v) = None /\ heap s' = heap s) /\
       trace s' = trace s ++ allocation_events n (buffer_ (data_ v))
                    ++ replicate (Z.to_nat n) (EvConstruct OpValueInit value_init))
    (fun s' => heap s' = heap s /\ objs s' = objs s).
Proof.
  intros Hn Hbytes. eapply post_mono; [by apply ctor_sized_spec| |].
  - intros this s' (b & Hnew & Hobjs & Hown & Hb & Hfresh & Hheap & Htrace).
    eexists. split; [done|]. split; [done|]. cbn [size_ data_ capacity_ buffer_].
    split; [done|]. split; [done|]. split; [done|]. split; [|split; [|done]].
    + rewrite Hheap. unfold blocks_kept. destruct b as [a|]; simpl; [|done].
      intros a0 blk Ha0. rewrite lookup_insert_ne; [done|].
      intros <-. simpl in Hfresh.
      destruct (Z.eqb_spec n 0) as [H0|H0]; [|congruence].
      destruct Hb as [Hb _]. by specialize (Hb H0).
    + intros H0. destruct Hb as [Hb _]. rewrite (Hb H0) in *. done.
  - intros s' (Hh & Ho & _). done.
Qed.

(** X2. [Vector(const Vector& other)] on a well-formed source never has
    undefined behaviour. When it returns, the new object holds copies of
    the elements of the source, in order, in a block of its own whose
    capacity is the size of the source (not its capacity); the source and
    every other block are untouched; the trace shows at most one allocation
    and one copy construction per element. When it throws, heap and objects
    are as before. *)
Theorem Vector_copy_constructor s (other : loc) o ys :
  objs s !! other = Some o ->
  owns (heap s) o ys ->
  post (Vec.ctor_copy other s)
    (fun this s' => exists v,
       objs s !! this = None /\
       objs s' = <[this := v]> (objs s) /\
       size_ v = size_ o /\ capacity_ (data_ v) = size_ o /\
       owns (heap s') v ys /\
       owns (heap s') o ys /\
       (ys ≠ [] -> buffer_ (data_ v) ≠ buffer_ (data_ o)) /\
       blocks_kept (heap s) (heap s') /\
       trace s' = trace s ++ allocation_events (size_ o) (buffer_ (data_ v))
                    ++ copy_events ys)
    (fun s' => heap s' = heap s /\ objs s' = objs s).
Proof.
  intros Hobj Hown. pose proof Hown as (Hsz & Hcap & Hreg). pose proof max_size_le as Hms.
  eapply post_mono; [by eapply ctor_copy_spec| |].
  - intros this s' (b & Hnew & Hobjs & Hv & Hb & Hfresh & Hheap & Htrace).
    assert (Hkept : blocks_kept (heap s) (heap s')).
    { rewrite Hheap. unfold blocks_kept. destruct b as [a|]; simpl; [|done].
      intros a0 blk Ha0. rewrite lookup_insert_ne; [done|].
      intros <-. simpl in Hfresh.
      destruct (Z.eqb_spec (size_ o) 0) as [H0|H0]; [|congruence].
      destruct Hb as [Hb _]. destruct ys; [by specialize (Hb eq_refl)|simpl in Hsz; lia]. }
    eexists. split; [done|]. split; [done|]. cbn [size_ data_ capacity_ buffer_].
    split; [done|]. split; [done|]. split; [done|].
    split; [|split; [|split; [done|done]]].
    + split; [done|]. split; [done|].
      destruct (buffer_ (data_ o)) as [a|]; simpl in *; [|done].
      by apply Hkept.
    + intros Hys Heq. rewrite <- Heq in Hreg.
      destruct b as [a|]; simpl in *.
      * destruct (Z.eqb_spec (size_ o) 0) as [H0|H0]; [|congruence].
        destruct ys; [done|simpl in Hsz; lia].
      * destruct Hb as [_ Hb]. by apply Hys, Hb.
  - intros s' (Hh & Ho & _). done.
Qed.

(** X3. [~Vector()] on a well-formed vector returns; it destroys every
    element exactly once, first to last, then releases the block with
    nothing alive in it (no release for a null buffer), and the object is
    gone. *)
Theorem Vector_destructor s (this : loc) v xs :
  objs s !! this = Some v ->
  owns (heap s) v xs ->
  Vec.dtor this s =
    Ok tt {| heap := release (heap s) (buffer_ (data_ v));
             objs := delete this (objs s);
             trace := trace s ++ (EvDestroy <$> xs)
                        ++ release_events (buffer_ (data_ v)) [] |}.
Proof. apply dtor_spec. Qed.

(** X4. A vector that is constructed (with [n] elements, for [n] whose
    byte count [n * sizeof(T)] [size_t] can hold, or as a copy of a
    well-formed vector) and then destroyed leaves heap and objects exactly
    as they were, whether the constructor returns or throws; when it
    returns, the trace shows as many destructions as constructions and the
    release of what was allocated. *)
Theorem Vector_lifetime_balanced s n (other : loc) o ys :
  0 <= n ->
  n * sizeof < size_mod ->
  objs s !! other = Some o ->
  owns (heap s) o ys ->
  post ((this ← Vec.ctor_sized n; Vec.dtor this) s)
    (fun _ s' =>
       heap s' = heap s /\ objs s' = objs s /\
       exists b,
         trace s' = trace s ++ allocation_events n b
           ++ replicate (Z.to_nat n) (EvConstruct OpValueInit value_init)
           ++ replicate (Z.to_nat n) (EvDestroy value_init)
           ++ release_events b [])
    (fun s' => heap s' = heap s /\ objs s' = objs s) /\
  post ((this ← Vec.ctor_copy other; Vec.dtor this) s)
    (fun _ s' =>
       heap s' = heap s /\ objs s' = objs s /\
       exists b,
         trace s' = trace s ++ allocation_events (size_ o) b
           ++ copy_events ys ++ (EvDestroy <$> ys) ++ release_events b [])
    (fun s' => heap s' = heap s /\ objs s' = objs s).
Proof.
  intros Hn Hbytes Hobj Hown.
  assert (Hback : forall (h : gmap addr (list (option T))) b blk,
            region h b = None \/ b = None ->
            release (update_region h b blk) b = h).
  { intros h [a|] blk [Hr|Hr]; simpl in *; try done.
    rewrite delete_insert_eq. by apply delete_id. }
  split.
  - apply post_bind. eapply post_mono; [by apply ctor_sized_spec| |].
    + intros this s' (b & Hnew & Hobjs & Hv & Hb & Hfresh & Hheap & Htrace).
      erewrite dtor_spec; [|by rewrite Hobjs, lookup_insert_eq|exact Hv].
      cbn [post heap objs trace data_ buffer_].
      split; [|split].
      * rewrite Hheap. apply Hback.
        destruct (Z.eqb_spec n 0) as [H0|H0]; [right; by apply Hb|by left].
      * rewrite Hobjs, delete_insert_eq. by apply delete_id.
      * exists b. rewrite Htrace, fmap_replicate. by rewrite <- !app_assoc.
    + intros s' (Hh & Ho & _). done.
  - apply post_bind. eapply post_mono; [by eapply ctor_copy_spec| |].
    + intros this s' (b & Hnew & Hobjs & Hv & Hb & Hfresh & Hheap & Htrace).
      erewrite dtor_spec; [|by rewrite Hobjs, lookup_insert_eq|exact Hv].
      cbn [post heap objs trace data_ buffer_].
      split; [|split].
      * rewrite Hheap. apply Hback.
        destruct (Z.eqb_spec (size_ o) 0) as [H0|H0]; [right|by left].
        apply Hb. destruct Hown as (Hsz & _).
        destruct ys; [done|simpl in Hsz; lia].
      * rewrite Hobjs, delete_insert_eq. by apply delete_id.
      * exists b. rewrite Htrace. by rewrite <- !app_assoc.
    + intros s' (Hh & Ho & _). done.
Qed.
End LifetimeProperties.

Section AccessProperties.
Context {T : Type} {elem : Element T} {env : Faults T}.
Implicit Types (s : State T Vector) (v : Vector) (xs : list T).

(** X5. On a well-formed vector holding [xs]: [v[i]] with [i < Size()]
    returns, without changing anything, the address [begin() + i], at which
    the [i]-th element of [xs] lives; [v[i]] with [i >= Size()] fails its
    [assert]; [end() - begin()] is [Size()]; and reading [Size()],
    [Capacity()] and [v[0]], ..., [v[Size() - 1]] gives the size, the
    capacity and exactly [xs]. *)
Theorem element_access s (this : loc) v xs :
  objs s !! this = Some v ->
  owns (heap s) v xs ->
  (forall (i : nat) x,
     xs !! i = Some x ->
     exists p,
       Vec.subscript this (Z.of_nat i) s = Ok p s /\
       (first ← Vec.begin_ this; mret (ptr_add first (Z.of_nat i))) s = Ok p s /\
       (load p : M T Vector T) s = Ok x s) /\
  (forall i, size_ v <= i -> Vec.subscript this i s = Abort) /\
  (first ← Vec.begin_ this; last ← Vec.end_ this; ptr_diff last first) s
    = Ok (size_ v) s /\
  observe this s = Ok (size_ v, capacity_ (data_ v), xs) s.
Proof.
  intros Hobj Hown. pose proof Hown as (Hsz & Hcap & Hreg). pose proof max_size_le as Hms.
  split; [|split; [|split]].
  - intros i x Hx. eexists. split; [by eapply subscript_in_range|]. split.
    + unfold Vec.begin_. erewrite bind_ok; cycle 1.
      { erewrite bind_ok; [|by eapply get_data_ok]. done. }
      done.
    + by eapply load_element.
  - intros i Hi. by eapply subscript_out_of_range.
  - unfold Vec.begin_, Vec.end_.
    erewrite bind_ok; cycle 1.
    { erewrite bind_ok; [|by eapply get_data_ok]. done. }
    erewrite bind_ok; cycle 1.
    { erewrite bind_ok; [|by eapply get_data_ok].
      erewrite bind_ok; [|by eapply get_size_ok]. done. }
    unfold ptr_diff. cbn [ptr_add RawMem.GetAddress p_base p_off].
    rewrite bool_decide_eq_true_2 by done. rewrite ret_unfold.
    replace (0 + size_ v - 0) with (size_ v) by lia.
    by rewrite wrap_small by lia.
  - unfold observe, Vec.Size.
    erewrite bind_ok; [|by eapply get_size_ok].
    erewrite bind_ok; [|by eapply Capacity_ok].
    erewrite bind_ok; cycle 1.
    { apply (read_from_spec s this v xs (Z.to_nat (size_ v)) 0%nat); [done|done|lia]. }
    rewrite ret_unfold. do 2 f_equal. rewrite drop_0.
    apply take_ge. lia.
Qed.
End AccessProperties.

Section SwapProperties.
Context {T : Type} {elem : Element T} {env : Faults T}.
Implicit Types (s : State T Vector) (v o : Vector) (xs ys : list T).

(** X6. [Swap] on two vectors returns with heap and trace untouched:
    nothing is allocated and no element is constructed, assigned or
    destroyed. Each of the two objects is afterwards exactly what the other
    was, every other object is as before, and swapping again restores the
    state. [Swap] of a vector with itself changes nothing. *)
Theorem Swap_exchanges s (this other : loc) v o :
  objs s !! this = Some v ->
  objs s !! other = Some o ->
  (exists s',
     Vec.Swap this other s = Ok tt s' /\
     heap s' = heap s /\ trace s' = trace s /\
     objs s' !! this = Some o /\
     objs s' !! other = Some v /\
     (forall l, l ≠ this -> l ≠ other -> objs s' !! l = objs s !! l) /\
     Vec.Swap this other s' = Ok tt s) /\
  Vec.Swap this this s = Ok tt s.
Proof.
  intros Hv Ho. split; [|by eapply Swap_self].
  destruct (decide (this = other)) as [->|Hne].
  - assert (o = v) as -> by congruence.
    exists s. rewrite (Swap_self _ _ _ Hv). done.
  - pose proof (Swap_distinct _ _ _ _ _ Hv Ho) as Hrun. rewrite !Vector_eta in Hrun.
    eexists. split; [exact Hrun|]. cbn [heap objs trace].
    split; [done|]. split; [done|].
    split; [apply lookup_insert_eq|].
    split; [by rewrite lookup_insert_ne, lookup_insert_eq|].
    split; [intros l H1 H2; by rewrite !lookup_insert_ne|].
    by eapply Swap_twice.
Qed.
End SwapProperties.

Section AppendProperties.
Context {T : Type} {elem : Element T} {env : Faults T}.
Implicit Types (s : State T Vector) (v : Vector) (xs : list T).

(** X7. [EmplaceBack] on a well-formed vector holding [xs] never has
    undefined behaviour. When it returns, the vector holds [xs] followed by
    the new element, its size is one more, its capacity is not less than
    before, the reference returned is the address of the new element (the
    last one), every other object and every block but the vector's own is
    untouched. When it throws, the object is as before. It does return
    when nothing throws and the bytes of twice the size (at least one
    slot) can be allocated. *)
Theorem EmplaceBack_appends s (this : loc) v xs (args : Args T) :
  objs s !! this = Some v ->
  owns (heap s) v xs ->
  let x := op_value (ctor_of args) in
  post (Vec.EmplaceBack this args s)
    (fun r s' => exists v',
       objs s' = <[this := v']> (objs s) /\
       owns (heap s') v' (xs ++ [x]) /\
       size_ v' = size_ v + 1 /\
       capacity_ (data_ v) <= capacity_ (data_ v') /\
       r = ptr_add (RawMem.GetAddress (data_ v')) (size_ v) /\
       (load r : M T Vector T) s' = Ok x s' /\
       (forall b blk, b ≠ buffer_ (data_ v) ->
          region (heap s) b = Some blk -> region (heap s') b = Some blk))
    (fun s' => objs s' = objs s) /\
  (Z.max 1 (2 * size_ v) * sizeof <= PTRDIFF_MAX ->
   (forall tr n, alloc_throws tr n = false) ->
   elements_never_throw ->
   exists r s', Vec.EmplaceBack this args s = Ok r s').
Proof.
  intros Hobj Hown x. pose proof Hown as (Hsz & Hcap & Hreg). pose proof max_size_le as Hms.
  pose proof (EmplaceBack_spec s this v xs args Hobj Hown) as Hp.
  split.
  - eapply post_mono; [exact Hp| |].
    + intros r s' (v' & Hobjs & Hown' & Hcap' & Hr & Hframe & _).
      exists v'. pose proof Hown' as (Hsz' & _ & _).
      rewrite length_app in Hsz'. simpl in Hsz'.
      split; [done|]. split; [done|]. split; [lia|]. split; [|split; [|split; [|done]]].
      * rewrite Hcap'. destruct (size_ v =? capacity_ (data_ v)); lia.
      * rewrite Hr. unfold RawMem.at_, ptr_add, RawMem.GetAddress. simpl. done.
      * rewrite Hr.
        replace (RawMem.at_ (data_ v') (size_ v))
          with (ptr_add (RawMem.GetAddress (data_ v')) (Z.of_nat (length xs))).
        -- eapply load_element; [exact Hown'|].
           rewrite lookup_app_r by done. by rewrite Nat.sub_diag.
        -- unfold RawMem.at_, ptr_add, RawMem.GetAddress. simpl. by rewrite Hsz.
    + intros s' (Ho & _). done.
  - intros Hmax Halloc Hquiet.
    destruct (Vec.EmplaceBack this args s) as [r s'|s'| |]; simpl in Hp; try done.
    + by exists r, s'.
    + destruct Hp as (_ & _ & _ & _ & _ & _ & _ & [[_ Hf]|(tr & op & Hf)]).
      * rewrite Halloc, orb_false_r in Hf. apply Z.ltb_lt in Hf. lia.
      * by rewrite throws_now_quiet in Hf.
Qed.

(** X8. [EmplaceBack] on a vector with spare capacity ([Size() <
    Capacity()]) allocates nothing and relocates nothing: it runs the one
    constructor of the new element, in the first free slot of the block the
    vector already has, so the addresses of the elements stay as they were.
    If that constructor throws, the whole state is as before. *)
Theorem EmplaceBack_with_spare_capacity s (this : loc) v xs (args : Args T) :
  objs s !! this = Some v ->
  owns (heap s) v xs ->
  size_ v < capacity_ (data_ v) ->
  Vec.EmplaceBack this args s =
    if throws_now (trace s) (ctor_of args) then Throw s
    else Ok (RawMem.at_ (data_ v) (size_ v))
            {| heap := update_region (heap s) (buffer_ (data_ v))
                         (block_of (xs ++ [op_value (ctor_of args)])
                                   (capacity_ (data_ v)));
               objs := <[this := {| data_ := data_ v; size_ := size_ v + 1 |}]> (objs s);
               trace := trace s
                          ++ [EvConstruct (ctor_of args) (op_value (ctor_of args))] |}.
Proof. apply EmplaceBack_in_place. Qed.

(** X9. The four [PushBack] overloads are [EmplaceBack] without the
    reference it returns: in [vector.h], where the code is written out
    again, as in [part_000], where they call it. On every state, the
    copying overloads of the two drafts give the same outcome, and so do
    the moving ones. *)
Theorem PushBack_is_EmplaceBack (this : loc) (value : T) s :
  VectorH.PushBack this value s = (Vec.EmplaceBack this (Lvalue value);; mret tt) s /\
  VectorH.PushBack_rvalue this value s
    = (Vec.EmplaceBack this (Rvalue value);; mret tt) s /\
  Part000.PushBack this value s = VectorH.PushBack this value s /\
  Part000.PushBack_rvalue this value s = VectorH.PushBack_rvalue this value s.
Proof.
  pose proof (PushBack_with_EmplaceBack this (Lvalue value) s) as HL.
  pose proof (PushBack_with_EmplaceBack this (Rvalue value) s) as HR.
  unfold VectorH.PushBack, VectorH.PushBack_rvalue,
    Part000.PushBack, Part000.PushBack_rvalue.
  cbn [ctor_of] in HL, HR. rewrite HL, HR. done.
Qed.

(** X10. [PopBack] on a non-empty well-formed vector returns, in both
    drafts with the same state: the last element is destroyed, and nothing
    else happens; the vector keeps its block and capacity and holds the
    elements before the last. *)
Theorem PopBack_removes_last s (this : loc) v xs x :
  objs s !! this = Some v ->
  owns (heap s) v (xs ++ [x]) ->
  let v' := {| data_ := data_ v; size_ := size_ v - 1 |} in
  exists s',
    VectorH.PopBack this s = Ok tt s' /\
    Part000.PopBack this s = Ok tt s' /\
    objs s' = <[this := v']> (objs s) /\
    owns (heap s') v' xs /\
    trace s' = trace s ++ [EvDestroy x].
Proof.
  intros Hobj Hown v'. pose proof Hown as (Hsz & Hcap & Hreg). pose proof max_size_le as Hms.
  rewrite length_app in Hsz. simpl in Hsz.
  destruct (PopBack_last s this v xs x Hobj Hown) as [HV HP].
  eexists. split; [exact HV|]. split; [exact HP|]. cbn [heap objs trace].
  split; [done|]. split; [|done].
  subst v'. split; [|split]; cbn [size_ data_ capacity_ buffer_].
  - lia.
  - lia.
  - apply region_update_eq. intros Hn.
    rewrite Hn in Hreg. simpl in Hreg. by destruct xs.
Qed.

(** X11. [EmplaceBack] followed by [PopBack] (of either draft) never has
    undefined behaviour, and when both return the vector holds the elements
    it held before, with the size it had and a capacity not less than
    before. *)
Theorem EmplaceBack_PopBack_round_trip s (this : loc) v xs (args : Args T)
    (PopBack : loc -> M T Vector unit) :
  PopBack = VectorH.PopBack \/ PopBack = Part000.PopBack ->
  objs s !! this = Some v ->
  owns (heap s) v xs ->
  post ((Vec.EmplaceBack this args;; PopBack this) s)
    (fun _ s' => exists v',
       objs s' = <[this := v']> (objs s) /\
       owns (heap s') v' xs /\
       size_ v' = size_ v /\
       capacity_ (data_ v) <= capacity_ (data_ v'))
    (fun s' => objs s' = objs s).
Proof.
  intros HPop Hobj Hown. pose proof Hown as (Hsz & Hcap & Hreg). pose proof max_size_le as Hms.
  apply post_bind.
  eapply post_mono; [exact (EmplaceBack_spec s this v xs args Hobj Hown)| |].
  - intros r s' (v' & Hobjs & Hown' & Hcap' & _).
    pose proof Hown' as (Hsz' & Hcap2 & Hreg').
    rewrite length_app in Hsz'. simpl in Hsz'.
    assert (Hobj' : objs s' !! this = Some v') by (by rewrite Hobjs, lookup_insert_eq).
    destruct (PopBack_last s' this v' xs _ Hobj' Hown') as [HV HP].
    assert (Hrun : PopBack this s' = VectorH.PopBack this s').
    { destruct HPop as [->| ->]; [done|]. by rewrite HP, HV. }
    rewrite Hrun, HV. cbn [post heap objs trace].
    eexists. rewrite Hobjs, insert_insert_eq. split; [done|].
    cbn [size_ data_ capacity_ buffer_].
    split; [|split].
    + split; [|split]; cbn [size_ data_ capacity_ buffer_].
      * lia.
      * lia.
      * apply region_update_eq. intros Hn.
        rewrite Hn in Hreg'. simpl in Hreg'. by destruct xs.
    + lia.
    + rewrite Hcap'. destruct (size_ v =? capacity_ (data_ v)); lia.
  - intros s' (Ho & _). done.
Qed.





End AppendProperties.

Section RawMemoryProperties.
Context {T : Type} {elem : Element T} {env : Faults T} {O : Type}.
Implicit Types (s : State T O).

End RawMemoryProperties.

Section PositionProperties.
Context {T : Type} {elem : Element T} {env : Faults T}.
Implicit Types (s : State T Vector) (v : Vector) (xs ys : list T).

Lemma assert_valid_pos_ok s this v (i : nat) :
  objs s !! this = Some v ->
  Z.of_nat i < size_ v ->
  Part000.assert_valid_pos this
    (ptr_add (RawMem.GetAddress (data_ v)) (Z.of_nat i)) s = Ok tt s.
Proof.
  intros Hobj Hi. rewrite (assert_valid_pos_spec s this v) by done.
  cbn [ptr_add RawMem.GetAddress p_off].
  destruct (Z.leb_spec 0 (0 + Z.of_nat i)); [|lia].
  by destruct (Z.ltb_spec (0 + Z.of_nat i) (size_ v)); [|lia].
Qed.

(** The copying [Insert] of [vector.h] is the code of [Emplace] of a
    [const T&], statement for statement. *)
Lemma VectorH_Insert_Emplace (this : loc) (pos : Ptr) (value : T) :
  VectorH.Insert this pos value = VectorH.Emplace this pos (Lvalue value).
Proof. reflexivity. Qed.

(** The moving [Insert] of [vector.h] differs from [Emplace] of a [T&&]
    in the growing branch only. *)
Lemma VectorH_Insert_rvalue_in_place s this v (pos : Ptr) (value : T) :
  objs s !! this = Some v ->
  size_ v ≠ capacity_ (data_ v) ->
  VectorH.Insert_rvalue this pos value s = VectorH.Emplace this pos (Rvalue value) s.
Proof.
  intros Hobj Hroom.
  unfold VectorH.Insert_rvalue, VectorH.Emplace, VecCommon.Emplace_body.
  erewrite !(bind_ok (Vec.get_data this)); [|by eapply get_data_ok..].
  rewrite !bind_unfold.
  destruct (ptr_diff pos (RawMem.GetAddress (data_ v)) s) as [index s0| | |] eqn:Hd;
    try done.
  apply ptr_diff_inv in Hd as ->.
  erewrite !(bind_ok (Vec.get_size this)); [|by eapply get_size_ok..].
  erewrite !(bind_ok (Vec.Capacity this)); [|by eapply Capacity_ok..].
  by destruct (Z.eqb_spec (size_ v) (capacity_ (data_ v))).
Qed.

(** [Erase] at the position of an element, in both drafts. *)
Lemma Erase_spec s (this : loc) v (A : list T) x ys
    (Erase : loc -> Ptr -> M T Vector Ptr) :
  Erase = VectorH.Erase \/ Erase = Part000.Erase ->
  objs s !! this = Some v ->
  owns (heap s) v (A ++ x :: ys) ->
  let pos := ptr_add (RawMem.GetAddress (data_ v)) (Z.of_nat (length A)) in
  let v' := {| data_ := data_ v; size_ := size_ v - 1 |} in
  post (Erase this pos s)
    (fun r s' =>
       r = pos /\
       objs s' = <[this := v']> (objs s) /\
       owns (heap s') v' (A ++ ys) /\
       heap s' = update_region (heap s) (buffer_ (data_ v))
                   (block_of (A ++ ys) (capacity_ (data_ v))) /\
       trace s' = trace s ++ shift_events x ys ++ [EvDestroy (shift_rest x ys)])
    (fun s' =>
       objs s' = objs s /\
       exists ys1 y ys2,
         ys = ys1 ++ y :: ys2 /\
         throws_now (trace s ++ shift_events x ys1)
                    (OpMoveAssign (shift_rest x ys1) y) = true /\
         owns (heap s') v (A ++ ys1 ++ shift_rest x ys1 :: y :: ys2) /\
         trace s' = trace s ++ shift_events x ys1).
Proof.
  intros HErase Hobj Hown pos v'. pose proof Hown as (Hsz & _ & _).
  rewrite length_app in Hsz. simpl in Hsz.
  destruct HErase as [->| ->].
  - unfold VectorH.Erase. apply Erase_body_spec; auto.
  - unfold Part000.Erase. rewrite bind_unfold.
    subst pos. rewrite (assert_valid_pos_ok s this v) by (done || lia).
    apply Erase_body_spec; auto.
Qed.

(** X14. [Erase] at the position of an element, in both drafts, never has
    undefined behaviour. When it returns, that element is gone and the
    others are in the order they had; size is one less, block and capacity
    are as before; the iterator returned is the position given, now that of
    the next element. Each element behind the position was move-assigned
    one slot down, and the last slot, left moved-from, was destroyed: that
    is all that happened. When a move assignment throws, the object is as
    before and the vector holds as many elements as before: those already
    shifted, the moved-from one, and the rest. *)
Theorem Erase_removes_element s (this : loc) v (A : list T) x ys
    (Erase : loc -> Ptr -> M T Vector Ptr) :
  Erase = VectorH.Erase \/ Erase = Part000.Erase ->
  objs s !! this = Some v ->
  owns (heap s) v (A ++ x :: ys) ->
  let pos := ptr_add (RawMem.GetAddress (data_ v)) (Z.of_nat (length A)) in
  let v' := {| data_ := data_ v; size_ := size_ v - 1 |} in
  post (Erase this pos s)
    (fun r s' =>
       r = pos /\
       objs s' = <[this := v']> (objs s) /\
       owns (heap s') v' (A ++ ys) /\
       heap s' = update_region (heap s) (buffer_ (data_ v))
                   (block_of (A ++ ys) (capacity_ (data_ v))) /\
       trace s' = trace s ++ shift_events x ys ++ [EvDestroy (shift_rest x ys)])
    (fun s' =>
       objs s' = objs s /\
       exists ys1 y ys2,
         ys = ys1 ++ y :: ys2 /\
         throws_now (trace s ++ shift_events x ys1)
                    (OpMoveAssign (shift_rest x ys1) y) = true /\
         owns (heap s') v (A ++ ys1 ++ shift_rest x ys1 :: y :: ys2) /\
         trace s' = trace s ++ shift_events x ys1).
Proof. apply Erase_spec. Qed.

(** X15. In [part_000], [Emplace], both [Insert] overloads and [Erase]
    open with [assert(pos >= begin() && pos < end())]: for a position in
    the block of the vector that is not the position of an element, the
    assertion fails. So does [end()], so that nothing can be inserted at
    the end, nor into an empty vector. *)
Theorem Part000_position_asserted s (this : loc) v (pos : Ptr)
    (args : Args T) (value : T) :
  objs s !! this = Some v ->
  p_base pos = buffer_ (data_ v) ->
  ~ (0 <= p_off pos < size_ v) ->
  Part000.Emplace this pos args s = Abort /\
  Part000.Insert this pos value s = Abort /\
  Part000.Insert_rvalue this pos value s = Abort /\
  Part000.Erase this pos s = Abort.
Proof.
  intros Hobj Hbase Hout.
  assert (Hassert : Part000.assert_valid_pos this pos s = Abort).
  { rewrite (assert_valid_pos_spec s this v) by done.
    destruct (Z.leb_spec 0 (p_off pos)); [|done].
    by destruct (Z.ltb_spec (p_off pos) (size_ v)); [lia|]. }
  unfold Part000.Insert, Part000.Insert_rvalue, Part000.Emplace, Part000.Erase.
  rewrite !bind_unfold, Hassert. done.
Qed.

(** X16. In [vector.h], [Erase(end())] on a well-formed vector is
    undefined behaviour: nothing checks the position, and the run of
    elements to move down begins one slot behind [end()], where no object
    lives, and ends at [end()]: it is no valid range. *)
Theorem VectorH_Erase_end_undefined s (this : loc) v xs :
  objs s !! this = Some v ->
  owns (heap s) v xs ->
  (last ← Vec.end_ this; VectorH.Erase this last) s = Undefined.
Proof.
  intros Hobj Hown. unfold Vec.end_.
  erewrite bind_ok; cycle 1.
  { erewrite bind_ok; [|by eapply get_data_ok].
    erewrite bind_ok; [|by eapply get_size_ok]. done. }
  by eapply VectorH_Erase_end.
Qed.

(** The functions that insert one element built from [args] at [pos]:
    [Emplace] of either draft, and the [Insert] overloads that are it. *)
Definition inserts_like_Emplace (this : loc) (pos : Ptr) (args : Args T)
    (insert : M T Vector Ptr) : Prop :=
  insert = VectorH.Emplace this pos args \/
  insert = Part000.Emplace this pos args \/
  (exists value, args = Lvalue value /\
     (insert = VectorH.Insert this pos value \/
      insert = Part000.Insert this pos value)) \/
  (exists value, args = Rvalue value /\
     insert = Part000.Insert_rvalue this pos value).

Lemma inserts_like_Emplace_body s this v (i : nat) args insert :
  inserts_like_Emplace this
    (ptr_add (RawMem.GetAddress (data_ v)) (Z.of_nat i)) args insert ->
  objs s !! this = Some v ->
  Z.of_nat i < size_ v \/ insert = VectorH.Emplace this
    (ptr_add (RawMem.GetAddress (data_ v)) (Z.of_nat i)) args ->
  insert s = VecCommon.Emplace_body this
               (ptr_add (RawMem.GetAddress (data_ v)) (Z.of_nat i)) args s.
Proof.
  intros Hins Hobj Hpos.
  assert (HP : Z.of_nat i < size_ v ->
            Part000.Emplace this
              (ptr_add (RawMem.GetAddress (data_ v)) (Z.of_nat i)) args s
            = VecCommon.Emplace_body this
                (ptr_add (RawMem.GetAddress (data_ v)) (Z.of_nat i)) args s).
  { intros Hi. unfold Part000.Emplace. rewrite bind_unfold.
    by rewrite (assert_valid_pos_ok s this v). }
  destruct Hpos as [Hi| ->]; [|done].
  destruct Hins as [->|[->|[(value & -> & [->| ->])|(value & -> & ->)]]].
  - done.
  - by apply HP.
  - by rewrite VectorH_Insert_Emplace.
  - by apply HP.
  - by apply HP.
Qed.

(** X17. Inserting with spare capacity at the position of an element, by
    [Emplace] of either draft, the copying [Insert] of either draft or any
    [Insert] of [part_000], or by the moving [Insert] of [vector.h]: no
    undefined behaviour. When the call returns, the new element stands at
    the position given, the elements before it are untouched, those from
    the position on follow in their order; the vector keeps its block and
    capacity, its size is one more, and the iterator returned is the
    position given. The new element is first built as a temporary; the last
    element is move-constructed into the free slot, the others are
    move-assigned one slot up, last first, the temporary is move-assigned
    to the position and then destroyed. When something throws, the object
    is as before. *)
Theorem Emplace_in_place_inserts s (this : loc) v (A B : list T) l
    (args : Args T) (insert : M T Vector Ptr) :
  objs s !! this = Some v ->
  owns (heap s) v (A ++ B ++ [l]) ->
  size_ v < capacity_ (data_ v) ->
  let pos := ptr_add (RawMem.GetAddress (data_ v)) (Z.of_nat (length A)) in
  let x := op_value (ctor_of args) in
  let v' := {| data_ := data_ v; size_ := size_ v + 1 |} in
  inserts_like_Emplace this pos args insert \/
  (exists value, args = Rvalue value /\
     insert = VectorH.Insert_rvalue this pos value) ->
  post (insert s)
    (fun r s' =>
       r = pos /\
       objs s' = <[this := v']> (objs s) /\
       owns (heap s') v' (A ++ x :: B ++ [l]) /\
       heap s' = update_region (heap s) (buffer_ (data_ v))
                   (block_of (A ++ x :: B ++ [l]) (capacity_ (data_ v))) /\
       trace s' = trace s ++ emplace_in_place_events args B l)
    (fun s' => objs s' = objs s /\ exists tr op, throws_now tr op = true).
Proof.
  intros Hobj Hown Hroom pos x v' Hins. pose proof Hown as (Hsz & _ & _).
  rewrite !length_app in Hsz. simpl in Hsz.
  assert (Hrun : insert s = VecCommon.Emplace_body this pos args s).
  { destruct Hins as [Hins|(value & -> & ->)].
    - apply (inserts_like_Emplace_body s this v (length A)); [done|done|left; lia].
    - rewrite (VectorH_Insert_rvalue_in_place s this v) by (done || lia). done. }
  rewrite Hrun. by apply Emplace_body_in_place.
Qed.

(** X18. Inserting into a full vector holding [A ++ B], at the position
    behind [A], by [Emplace] of [vector.h] (also at [end()], where [B] is
    empty) or, at the position of an element, by [Emplace] of [part_000],
    the copying [Insert] of either draft or the moving [Insert] of
    [part_000]: no undefined behaviour. When the call returns, the vector
    has a new block of capacity [max(1, 2 * size)], at an address unused
    before, holding [A], the new element, [B]; the iterator returned
    points at the new element in the new block; every other block is
    untouched; the trace shows the allocation, the construction of the new
    element, the relocation of [A] and of [B], the destruction of the
    originals and the release of the old block. When the call throws, the
    object is as before, and so is the whole heap if [T] has a copy
    constructor or a [noexcept] move constructor. *)
Theorem Emplace_growth_inserts s (this : loc) v (A B : list T)
    (args : Args T) (insert : M T Vector Ptr) :
  objs s !! this = Some v ->
  owns (heap s) v (A ++ B) ->
  size_ v = capacity_ (data_ v) ->
  let pos := ptr_add (RawMem.GetAddress (data_ v)) (Z.of_nat (length A)) in
  let x := op_value (ctor_of args) in
  let k := Z.max 1 (2 * size_ v) in
  inserts_like_Emplace this pos args insert ->
  B ≠ [] \/ insert = VectorH.Emplace this pos args ->
  post (insert s)
    (fun r s' => exists a',
       let v' := {| data_ := {| buffer_ := Some a'; capacity_ := k |};
                    size_ := size_ v + 1 |} in
       heap s !! a' = None /\
       r = {| p_base := Some a'; p_off := Z.of_nat (length A) |} /\
       objs s' = <[this := v']> (objs s) /\
       owns (heap s') v' (A ++ x :: B) /\
       (forall b blk, b ≠ buffer_ (data_ v) ->
          region (heap s) b = Some blk -> region (heap s') b = Some blk) /\
       trace s' = trace s
         ++ EvAllocate k a'
         :: EvConstruct (ctor_of args) x
         :: relocation_events A ++ relocation_events B
         ++ (EvDestroy <$> relocated_sources (A ++ B))
         ++ release_events (buffer_ (data_ v)) [])
    (fun s' =>
       objs s' = objs s /\
       (is_copy_constructible = true \/ is_nothrow_move_constructible = true ->
        heap s' = heap s) /\
       (((PTRDIFF_MAX <? k * sizeof) || alloc_throws (trace s) (k * sizeof) = true) \/
        exists tr op, throws_now tr op = true)).
Proof.
  intros Hobj Hown Hfull pos x k Hins Hpos. pose proof Hown as (Hsz & _ & _).
  rewrite !length_app in Hsz.
  assert (Hrun : insert s = VecCommon.Emplace_body this pos args s).
  { apply (inserts_like_Emplace_body s this v (length A)); [done|done|].
    destruct Hpos as [HB|HV]; [left|by right].
    destruct B; [done|simpl in Hsz; lia]. }
  rewrite Hrun. by apply Emplace_body_grow.
Qed.

(** [Emplace] at the position of an element, with or without growth: what
    the two branches have in common. *)
Lemma Emplace_body_inserts s this v A b B args :
  objs s !! this = Some v ->
  owns (heap s) v (A ++ b :: B) ->
  let pos := ptr_add (RawMem.GetAddress (data_ v)) (Z.of_nat (length A)) in
  let x := op_value (ctor_of args) in
  post (VecCommon.Emplace_body this pos args s)
    (fun r s' => exists v',
       objs s' = <[this := v']> (objs s) /\
       owns (heap s') v' (A ++ x :: b :: B) /\
       r = ptr_add (RawMem.GetAddress (data_ v')) (Z.of_nat (length A)))
    (fun s' => objs s' = objs s).
Proof.
  intros Hobj Hown pos x. pose proof Hown as (Hsz & Hcap & _). pose proof max_size_le as Hms.
  destruct (Z.eq_dec (size_ v) (capacity_ (data_ v))) as [Hfull|Hroom].
  - eapply post_mono.
    + by apply (Emplace_body_grow s this v A (b :: B) args).
    + intros r s' (a' & _ & Hr & Hobjs & Hown' & _).
      eexists. split; [exact Hobjs|]. split; [exact Hown'|].
      rewrite Hr. unfold ptr_add, RawMem.GetAddress. simpl. done.
    + intros s' (Ho & _). done.
  - destruct (exists_last (l := b :: B)) as (B' & l & HB); [done|].
    rewrite HB in Hown |- *.
    eapply post_mono.
    + apply (Emplace_body_in_place s this v A B' l args); [done|done|lia].
    + intros r s' (Hr & Hobjs & Hown' & _).
      eexists. split; [exact Hobjs|]. split; [exact Hown'|]. done.
    + intros s' (Ho & _). done.
Qed.

(** X19. Inserting an element at the position of an element and erasing
    at the iterator returned, with the [Emplace] and [Erase] of either
    draft, never has undefined behaviour, and when both return the vector
    holds exactly the elements it held, in their order, with the size it
    had; the iterator [Erase] returns is the position of the same element
    as before. *)
Theorem Emplace_then_Erase_restores s (this : loc) v (A : list T) b B
    (args : Args T)
    (Emplace : loc -> Ptr -> Args T -> M T Vector Ptr)
    (Erase : loc -> Ptr -> M T Vector Ptr) :
  (Emplace = VectorH.Emplace /\ Erase = VectorH.Erase) \/
  (Emplace = Part000.Emplace /\ Erase = Part000.Erase) ->
  objs s !! this = Some v ->
  owns (heap s) v (A ++ b :: B) ->
  let pos := ptr_add (RawMem.GetAddress (data_ v)) (Z.of_nat (length A)) in
  post ((p ← Emplace this pos args; Erase this p) s)
    (fun r s' => exists v',
       objs s' = <[this := v']> (objs s) /\
       owns (heap s') v' (A ++ b :: B) /\
       size_ v' = size_ v /\
       r = ptr_add (RawMem.GetAddress (data_ v')) (Z.of_nat (length A)))
    (fun s' => exists v',
       objs s' = <[this := v']> (objs s) /\
       size_ v <= size_ v' <= size_ v + 1).
Proof.
  intros Hdraft Hobj Hown pos. pose proof Hown as (Hsz & Hcap & _). pose proof max_size_le as Hms.
  rewrite length_app in Hsz. simpl in Hsz.
  assert (Hself : objs s = <[this := v]> (objs s)) by (by rewrite insert_id).
  assert (HE : Emplace this pos args s = VecCommon.Emplace_body this pos args s).
  { destruct Hdraft as [[-> _]|[-> _]]; [done|].
    unfold Part000.Emplace. rewrite bind_unfold. subst pos.
    by rewrite (assert_valid_pos_ok s this v) by (done || lia). }
  apply post_bind. rewrite HE.
  eapply post_mono; [by apply (Emplace_body_inserts s this v A b B args)| |].
  - intros r s' (v' & Hobjs & Hown' & ->).
    assert (Hobj' : objs s' !! this = Some v') by (by rewrite Hobjs, lookup_insert_eq).
    pose proof Hown' as (Hsz' & _ & _).
    rewrite length_app in Hsz'. simpl in Hsz'.
    eapply post_mono.
    + apply (Erase_spec s' this v' A (op_value (ctor_of args)) (b :: B) Erase);
        [|done|done].
      destruct Hdraft as [[_ ->]|[_ ->]]; auto.
    + intros r s'' (-> & Hobjs'' & Hown'' & _).
      eexists. rewrite Hobjs'', Hobjs, insert_insert_eq.
      split; [done|]. split; [exact Hown''|]. cbn [size_ data_]. split; [lia|done].
    + intros s'' (Ho & _). exists v'. rewrite Ho. split; [done|]. lia.
  - intros s' Ho. exists v. rewrite Ho. split; [done|]. lia.
Qed.
End PositionProperties.

Section EmplaceAtEnd.
Context {T : Type} {elem : Element T} {env : Faults T}.
Implicit Types (s : State T Vector) (v : Vector) (xs ys : list T).

(** The outcome is undefined behaviour, or an exception that leaves a
    state satisfying [E]. *)
Definition undefined_or_throws {A} (r : Result T Vector A)
    (E : State T Vector -> Prop) : Prop :=
  match r with
  | Undefined => True
  | Throw s => E s
  | _ => False
  end.

Lemma undefined_or_throws_bind {A B} (m : M T Vector A) (k : A -> M T Vector B) s E :
  match m s with
  | Ok a s1 => undefined_or_throws (k a s1) E
  | Throw s1 => E s1
  | Abort => False
  | Undefined => True
  end ->
  undefined_or_throws ((m ≫= k) s) E.
Proof. rewrite bind_unfold. by destruct (m s). Qed.

Lemma undefined_or_throws_first {A B} (m : M T Vector A) (k : A -> M T Vector B) s E :
  undefined_or_throws (m s) E -> undefined_or_throws ((m ≫= k) s) E.
Proof. rewrite bind_unfold. by destruct (m s). Qed.

Lemma undefined_or_throws_on_unwind {A} (m : M T Vector A) h s E :
  undefined_or_throws (m s) (fun s1 => exists s2, h s1 = Ok tt s2 /\ E s2) ->
  undefined_or_throws (on_unwind m h s) E.
Proof.
  unfold on_unwind. destruct (m s) as [| s1 | |]; simpl; try done.
  by intros (s2 & -> & HE).
Qed.

(** An address before the start of a block or behind its end designates
    no slot. *)
Lemma load_outside s (p : Ptr) blk :
  region (heap s) (p_base p) = Some blk ->
  p_off p < 0 \/ Z.of_nat (length blk) <= p_off p ->
  (load p : M T Vector T) s = Undefined.
Proof.
  intros Hreg Hout.
  unfold load, read_slot. rewrite bind_unfold. unfold slot_at.
  destruct (p_base p) as [a|]; [|done].
  simpl in Hreg. rewrite Hreg.
  destruct (Z.leb_spec 0 (p_off p)); [|done].
  rewrite lookup_ge_None_2; [done|]. lia.
Qed.

(** What can stop [Emplace] at [end()] before its shift: the constructor
    of the new element, or the move construction of the last element. *)
Definition throws_before_shift s xs (args : Args T) : Prop :=
  throws_now (trace s) (ctor_of args) = true \/
  exists l,
    last xs = Some l /\
    throws_now (trace s ++ [EvConstruct (ctor_of args) (op_value (ctor_of args))])
               (OpMoveCtor l) = true.

(** [Emplace] at [end()] of a vector with spare capacity, in [vector.h]:
    the range handed to [std::move_backward] is [end(), end() - 1). *)
Lemma Emplace_body_at_end s this v xs args :
  objs s !! this = Some v ->
  owns (heap s) v xs ->
  size_ v < capacity_ (data_ v) ->
  undefined_or_throws
    (VecCommon.Emplace_body this
       (ptr_add (RawMem.GetAddress (data_ v)) (size_ v)) args s)
    (fun s' => objs s' = objs s /\ throws_before_shift s xs args).
Proof.
  intros Hobj Hown Hroom. pose proof Hown as (Hsz & Hcap & Hreg).
  pose proof max_size_le as Hms.
  unfold VecCommon.Emplace_body.
  erewrite bind_ok; [|by eapply get_data_ok].
  unfold ptr_diff. cbn [ptr_add RawMem.GetAddress p_base p_off].
  rewrite bool_decide_eq_true_2 by done. rewrite bind_unfold, ret_unfold.
  replace (0 + size_ v - 0) with (size_ v) by lia.
  rewrite (wrap_small (size_ v)) by lia.
  erewrite bind_ok; [|by eapply get_size_ok].
  erewrite bind_ok; [|by eapply Capacity_ok].
  destruct (Z.eqb_spec (size_ v) (capacity_ (data_ v))); [lia|].
  apply undefined_or_throws_first. apply undefined_or_throws_bind.
  rewrite construct_unfold.
  destruct (throws_now (trace s) (ctor_of args)) eqn:Hctor.
  { split; [done|by left]. }
  set (s1 := upd s _ _).
  apply undefined_or_throws_first. apply undefined_or_throws_on_unwind.
  destruct (decide (xs = [])) as [->|Hxs].
  - (* no element: the source of the first move is the slot at [2^64 - 1] *)
    simpl in Hsz. rewrite Hsz.
    apply undefined_or_throws_first. unfold move_construct_at.
    apply undefined_or_throws_first.
    rewrite (load_outside s1 _ (block_of [] (capacity_ (data_ v)))); [done|done|].
    right. cbn [RawMem.at_ p_off].
    change (wrap (Z.of_nat 0 - 1)) with 18446744073709551615.
    unfold block_of. simpl. rewrite length_replicate.
    unfold PTRDIFF_MAX in Hms. lia.
  - destruct (exists_last Hxs) as (ys & l & ->).
    rewrite length_app in Hsz. simpl in Hsz.
    set (F := replicate (Z.to_nat (capacity_ (data_ v)) - length (ys ++ [l]) - 1)
                        (None : option T)).
    assert (Hblock : block_of (ys ++ [l]) (capacity_ (data_ v))
              = (Some <$> ys) ++ Some l :: None :: F).
    { unfold block_of. rewrite fmap_app, <- app_assoc. simpl. do 2 f_equal.
      subst F.
      replace (Z.to_nat (capacity_ (data_ v)) - length (ys ++ [l]))%nat
        with (S (Z.to_nat (capacity_ (data_ v)) - length (ys ++ [l]) - 1))%nat
        at 1; [done|].
      rewrite length_app. simpl. lia. }
    apply undefined_or_throws_bind.
    erewrite (move_construct_at_next s1 _ _ (Some <$> ys) l F);
      cbn [RawMem.plus RawMem.at_ p_base p_off]; cycle 1.
    { subst s1. cbn [upd heap]. by rewrite Hreg, Hblock. }
    { done. }
    { rewrite wrap_small by lia. rewrite length_fmap. lia. }
    { rewrite length_fmap. lia. }
    destruct (throws_now (trace s1) (OpMoveCtor l)) eqn:Hmove.
    { eexists. split; [reflexivity|]. split; [done|].
      right. exists l. split; [apply last_snoc|exact Hmove]. }
    (* the range of [move_backward] ends before it begins *)
    apply undefined_or_throws_first. unfold std_move_backward.
    apply undefined_or_throws_first.
    rewrite range_length_inverted; [done|done|].
    cbn [RawMem.plus ptr_add p_off]. lia.
Qed.

(** X20. In [vector.h], inserting at [end()] of a vector with spare
    capacity ([Size() < Capacity()]), whether by [Emplace] or by either
    [Insert], is undefined behaviour unless the constructor of the new
    element or the move construction of the last element throws first (the
    object is then as before): the in-place branch hands
    [std::move_backward] the range from the position to [end() - 1], which
    ends before it begins, and on an empty vector it first reads
    [data_[size_ - 1]] with the index wrapped around to [2^64 - 1], outside
    the block. In particular the call is undefined whenever no
    operation of [T] throws. (On a full vector the growing branch is taken
    and the element is appended.) *)
Theorem VectorH_insert_at_end_with_room s (this : loc) v xs (args : Args T)
    (insert : M T Vector Ptr) :
  objs s !! this = Some v ->
  owns (heap s) v xs ->
  size_ v < capacity_ (data_ v) ->
  let pos := ptr_add (RawMem.GetAddress (data_ v)) (size_ v) in
  insert = VectorH.Emplace this pos args \/
  (exists value, args = Lvalue value /\ insert = VectorH.Insert this pos value) \/
  (exists value, args = Rvalue value /\
     insert = VectorH.Insert_rvalue this pos value) ->
  (last ← Vec.end_ this; mret last) s = Ok pos s /\
  (insert s = Undefined \/
   exists s',
     insert s = Throw s' /\ objs s' = objs s /\ throws_before_shift s xs args) /\
  (elements_never_throw -> insert s = Undefined).
Proof.
  intros Hobj Hown Hroom pos Hins.
  pose proof (Emplace_body_at_end s this v xs args Hobj Hown Hroom) as Hut.
  assert (Heq : insert s = VecCommon.Emplace_body this pos args s).
  { destruct Hins as [->|[(value & -> & ->)|(value & -> & ->)]].
    - done.
    - by rewrite VectorH_Insert_Emplace.
    - rewrite (VectorH_Insert_rvalue_in_place s this v) by (done || lia). done. }
  fold pos in Hut. rewrite <- Heq in Hut.
  split; [|split].
  - unfold Vec.end_.
    erewrite bind_ok; cycle 1.
    { erewrite bind_ok; [|by eapply get_data_ok].
      erewrite bind_ok; [|by eapply get_size_ok]. done. }
    done.
  - destruct (insert s) as [| s' | |]; simpl in Hut; try done; [|by left].
    right. exists s'. by destruct Hut.
  - intros Hquiet.
    destruct (insert s) as [| s' | |]; simpl in Hut; try done.
    destruct Hut as [_ [Hf|(l & _ & Hf)]]; by rewrite throws_now_quiet in Hf.
Qed.
End EmplaceAtEnd.

(* ===================================================================== *)
(** * The growth policy *)
(* ===================================================================== *)

Section InsertRvalueGrowth.
Context {T : Type} {elem : Element T} {env : Faults T}.
Implicit Types (s : State T Vector) (v : Vector).

(** One handler around two steps completes whenever the two steps, each
    under a handler of its own, complete. *)
Lemma on_unwind_joined (m1 m2 : M T Vector unit) h1 h2 h s s' :
  (on_unwind m1 h1;; on_unwind m2 h2) s = Ok tt s' ->
  on_unwind (m1;; m2) h s = Ok tt s'.
Proof.
  intros H. apply bind_ok_inv in H as ([] & s1 & H1 & H2).
  apply on_unwind_ok_inv in H1, H2. apply on_unwind_ok.
  by erewrite bind_ok.
Qed.

(** On a full vector, whenever [Emplace] of a [T&&] completes, the moving
    [Insert] of [vector.h] completes in the same state: the two differ in
    their handlers only. *)
Lemma VectorH_Insert_rvalue_grows_as_Emplace s this v (i : nat) value r s' :
  objs s !! this = Some v ->
  Z.of_nat i <= size_ v <= PTRDIFF_MAX ->
  size_ v = capacity_ (data_ v) ->
  VecCommon.Emplace_body this
    (ptr_add (RawMem.GetAddress (data_ v)) (Z.of_nat i)) (Rvalue value) s = Ok r s' ->
  VectorH.Insert_rvalue this
    (ptr_add (RawMem.GetAddress (data_ v)) (Z.of_nat i)) value s = Ok r s'.
Proof.
  intros Hobj Hi Hfull H.
  unfold VecCommon.Emplace_body in H. unfold VectorH.Insert_rvalue.
  erewrite bind_ok in H; [|by eapply get_data_ok].
  erewrite bind_ok; [|by eapply get_data_ok].
  unfold ptr_diff in *. cbn [ptr_add RawMem.GetAddress p_base p_off] in *.
  rewrite bool_decide_eq_true_2 in * by done.
  rewrite bind_unfold, ret_unfold in H. rewrite bind_unfold, ret_unfold.
  replace (0 + Z.of_nat i - 0) with (Z.of_nat i) in * by lia.
  rewrite (wrap_small (Z.of_nat i)) in * by lia.
  erewrite bind_ok in H; [|by eapply get_size_ok].
  erewrite bind_ok; [|by eapply get_size_ok].
  erewrite bind_ok in H; [|by eapply Capacity_ok].
  erewrite bind_ok; [|by eapply Capacity_ok].
  rewrite <- Hfull, Z.eqb_refl in *.
  apply bind_ok_inv in H as ([] & s1 & Hbranch & Hrest).
  erewrite bind_ok; [exact Hrest|].
  apply bind_ok_inv in Hbranch as (nd & s2 & Hctor & Hb).
  erewrite bind_ok; [|exact Hctor].
  apply bind_ok_inv in Hb as ([] & s3 & Hfill & Hb).
  erewrite bind_ok; [exact Hb|].
  apply on_unwind_ok_inv in Hfill. apply on_unwind_ok.
  apply bind_ok_inv in Hfill as ([] & s4 & Hc & Hfill).
  erewrite bind_ok; [|exact Hc].
  apply bind_ok_inv in Hfill as ([] & s5 & Hreloc & Hd).
  assert (Ho4 : objs s4 !! this = Some v).
  { rewrite (keeps_ok _ _ _ _ (keeps_construct_at _ _) Hc).
    by rewrite (keeps_ok _ _ _ _ (keeps_ctor _) Hctor). }
  unfold Vec.begin_.
  erewrite bind_ok; cycle 1.
  { erewrite bind_ok; [|by eapply get_data_ok]. done. }
  erewrite bind_ok; [exact Hd|].
  cbn [ptr_add RawMem.GetAddress RawMem.plus p_base p_off] in *.
  rewrite (wrap_small (Z.of_nat i + 1)) in Hreloc by lia.
  destruct (is_nothrow_move_constructible || negb is_copy_constructible);
    by eapply on_unwind_joined.
Qed.
End InsertRvalueGrowth.

Section GrowthPolicy.
#[local] Existing Instance int_element.
#[local] Existing Instance no_faults.

(** C6. Whenever an insertion takes place on a full vector (length equal
    to capacity) and completes, the capacity afterwards is exactly
    [max(1, 2 * old capacity)] and the size has grown by one; this holds for
    [EmplaceBack] and for the [PushBack], [Emplace] and [Insert] overloads
    of both drafts. And the insertion does complete when the grown block is
    allocatable and nothing throws: [EmplaceBack] and every [PushBack], and
    [Emplace] and every [Insert] of both drafts at the position of an
    element ([Emplace] of [vector.h] at [end()] too), after which the
    vector holds the old elements with the new one at the position. And on
    [int]s, in both drafts and for both overloads: starting empty, three
    [PushBack]s give sizes 1, 2, 3, capacities 0, 1, 2, 4 and elements
    [1, 2, 3]; [Insert(begin() + 1, 99)] gives [1, 99, 2, 3] of size 4;
    [Erase(begin())] gives [99, 2, 3] of size 3. *)
Theorem growth_policy :
  (forall (T : Type) (elem : Element T) (env : Faults T)
          (s s' : State T Vector) (this : loc) (v : Vector) (xs : list T),
     objs s !! this = Some v ->
     owns (heap s) v xs ->
     size_ v = capacity_ (data_ v) ->
     (forall args r, Vec.EmplaceBack this args s = Ok r s' -> grows_at this v s') /\
     (forall x r, VectorH.PushBack this x s = Ok r s' -> grows_at this v s') /\
     (forall x r, VectorH.PushBack_rvalue this x s = Ok r s' -> grows_at this v s') /\
     (forall x r, Part000.PushBack this x s = Ok r s' -> grows_at this v s') /\
     (forall x r, Part000.PushBack_rvalue this x s = Ok r s' -> grows_at this v s') /\
     (forall pos args r, VectorH.Emplace this pos args s = Ok r s' -> grows_at this v s') /\
     (forall pos args r, Part000.Emplace this pos args s = Ok r s' -> grows_at this v s') /\
     (forall pos x r, VectorH.Insert this pos x s = Ok r s' -> grows_at this v s') /\
     (forall pos x r, VectorH.Insert_rvalue this pos x s = Ok r s' -> grows_at this v s') /\
     (forall pos x r, Part000.Insert this pos x s = Ok r s' -> grows_at this v s') /\
     (forall pos x r, Part000.Insert_rvalue this pos x s = Ok r s' -> grows_at this v s')) /\
  (forall (T : Type) (elem : Element T) (env : Faults T)
          (s : State T Vector) (this : loc) (v : Vector) (A B : list T),
     objs s !! this = Some v ->
     owns (heap s) v (A ++ B) ->
     size_ v = capacity_ (data_ v) ->
     Z.max 1 (2 * capacity_ (data_ v)) * sizeof <= PTRDIFF_MAX ->
     (forall tr n, alloc_throws tr n = false) ->
     elements_never_throw ->
     let pos := ptr_add (RawMem.GetAddress (data_ v)) (Z.of_nat (length A)) in
     (forall args, exists r s',
        Vec.EmplaceBack this args s = Ok r s' /\ grows_at this v s') /\
     (forall x, exists s',
        VectorH.PushBack this x s = Ok tt s' /\ grows_at this v s') /\
     (forall x, exists s',
        VectorH.PushBack_rvalue this x s = Ok tt s' /\ grows_at this v s') /\
     (forall x, exists s',
        Part000.PushBack this x s = Ok tt s' /\ grows_at this v s') /\
     (forall x, exists s',
        Part000.PushBack_rvalue this x s = Ok tt s' /\ grows_at this v s') /\
     (forall args insert,
        inserts_like_Emplace this pos args insert \/
        (exists value, args = Rvalue value /\
           insert = VectorH.Insert_rvalue this pos value) ->
        B ≠ [] \/ insert = VectorH.Emplace this pos args ->
        exists r s' v',
          insert s = Ok r s' /\ grows_at this v s' /\
          objs s' !! this = Some v' /\
          owns (heap s') v' (A ++ op_value (ctor_of args) :: B))) /\
  let expected :=
    Some [(0, 0, []); (1, 1, [1]); (2, 2, [1; 2]); (3, 4, [1; 2; 3]);
          (4, 4, [1; 99; 2; 3]); (3, 4, [99; 2; 3])] in
  returned (scenario VectorH.PushBack VectorH.Insert VectorH.Erase
              1 2 3 99 empty_state) = expected /\
  returned (scenario VectorH.PushBack_rvalue VectorH.Insert_rvalue VectorH.Erase
              1 2 3 99 empty_state) = expected /\
  returned (scenario Part000.PushBack Part000.Insert Part000.Erase
              1 2 3 99 empty_state) = expected /\
  returned (scenario Part000.PushBack_rvalue Part000.Insert_rvalue Part000.Erase
              1 2 3 99 empty_state) = expected.
Proof.
  split; [|split].
  - intros T elem env s s' this v xs Hobj (Hsz & Hcap & _) Hfull.
    assert (Hb : 0 <= size_ v <= PTRDIFF_MAX) by (pose proof max_size_le; lia).
    repeat split; intros.
    + by eapply EmplaceBack_grows.
    + by eapply PushBack_with_grows.
    + by eapply PushBack_with_grows.
    + eapply Part000_PushBack_grows; eauto.
    + eapply Part000_PushBack_grows; eauto.
    + by eapply Emplace_body_grows.
    + by eapply Part000_Emplace_grows.
    + by eapply VectorH_Insert_grows.
    + by eapply VectorH_Insert_rvalue_grows.
    + by eapply Part000_Emplace_grows.
    + by eapply Part000_Emplace_grows.
  - intros T elem env s this v A B Hobj Hown Hfull Hmax Halloc Hquiet pos.
    pose proof Hown as (Hsz & Hcap & _). pose proof max_size_le as Hms.
    rewrite length_app in Hsz.
    assert (Hb : 0 <= size_ v <= PTRDIFF_MAX) by lia.
    assert (Hback : forall args, exists r s',
              Vec.EmplaceBack this args s = Ok r s' /\ grows_at this v s').
    { intros args.
      pose proof (EmplaceBack_spec s this v (A ++ B) args Hobj Hown) as Hp.
      destruct (Vec.EmplaceBack this args s) as [r s'|s'| |] eqn:Hrun;
        simpl in Hp; try done.
      - exists r, s'. split; [done|]. by eapply EmplaceBack_grows.
      - destruct Hp as (_ & _ & _ & _ & _ & _ & _ & [[_ Hf]|(tr & op & Hf)]).
        + rewrite Halloc, orb_false_r in Hf. apply Z.ltb_lt in Hf.
          rewrite Hfull in Hf. lia.
        + by rewrite throws_now_quiet in Hf. }
    split; [exact Hback|].
    split; [|split; [|split; [|split]]].
    + intros x. destruct (Hback (Lvalue x)) as (r & s' & Hrun & Hg).
      exists s'. split; [|done]. unfold VectorH.PushBack.
      rewrite (PushBack_with_EmplaceBack this (Lvalue x)).
      by rewrite bind_unfold, Hrun.
    + intros x. destruct (Hback (Rvalue x)) as (r & s' & Hrun & Hg).
      exists s'. split; [|done]. unfold VectorH.PushBack_rvalue.
      rewrite (PushBack_with_EmplaceBack this (Rvalue x)).
      by rewrite bind_unfold, Hrun.
    + intros x. destruct (Hback (Lvalue x)) as (r & s' & Hrun & Hg).
      exists s'. split; [|done]. unfold Part000.PushBack.
      by rewrite bind_unfold, Hrun.
    + intros x. destruct (Hback (Rvalue x)) as (r & s' & Hrun & Hg).
      exists s'. split; [|done]. unfold Part000.PushBack_rvalue.
      by rewrite bind_unfold, Hrun.
    + intros args insert Hins Hpos.
      pose proof (Emplace_body_grow s this v A B args Hobj Hown Hfull) as Hp.
      cbv zeta in Hp. fold pos in Hp.
      destruct (VecCommon.Emplace_body this pos args s) as [r s'|s'| |] eqn:Hrun;
        simpl in Hp; try done.
      2:{ destruct Hp as (_ & _ & [Hf|(tr & op & Hf)]).
          - rewrite Halloc, orb_false_r in Hf. apply Z.ltb_lt in Hf.
            rewrite Hfull in Hf. lia.
          - by rewrite throws_now_quiet in Hf. }
      destruct Hp as (a' & _ & _ & Hobjs & Hown' & _).
      assert (Hsame : insert s = Ok r s').
      { destruct Hins as [Hlike|(value & -> & ->)].
        - rewrite (inserts_like_Emplace_body s this v (length A) args insert);
            [exact Hrun|exact Hlike|exact Hobj|].
          destruct Hpos as [HB|HV]; [left|by right].
          destruct B; [done|simpl in Hsz; lia].
        - apply (VectorH_Insert_rvalue_grows_as_Emplace s this v (length A));
            [done|lia|done|exact Hrun]. }
      eexists r, s', _. split; [exact Hsame|]. split; [|split; [|exact Hown']].
      * eexists. rewrite Hobjs, lookup_insert_eq. by rewrite Hfull.
      * by rewrite Hobjs, lookup_insert_eq.
  - cbv zeta. repeat split; vm_compute; reflexivity.
Qed.
End GrowthPolicy.

(* ===================================================================== *)
(** * The theorems at concrete inputs *)
(* ===================================================================== *)

(** The elements of the vectors below are [int]s. *)
#[local] Existing Instance int_element.

Lemma owns_two_full : owns (Element0 := int_element) (heap state_two_full) (vector_at 0%nat 2 2) [5; 7].
Proof.
  owns_by_evaluation.
Defined.

Lemma owns_one_full : owns (Element0 := int_element) (heap state_one_full) (vector_at 0%nat 1 1) [7].
Proof.
  owns_by_evaluation.
Defined.

Lemma owns_first_of_two : owns (Element0 := int_element) (heap state_two_vectors) (vector_at 0%nat 1 1) [1].
Proof.
  owns_by_evaluation.
Defined.

Lemma owns_second_of_two : owns (Element0 := int_element) (heap state_two_vectors) (vector_at 1%nat 1 1) [2].
Proof.
  owns_by_evaluation.
Defined.

Lemma no_faults_never_throw : elements_never_throw (T := Z) (Faults0 := no_faults).
Proof. intros tr op. reflexivity. Defined.



(** [growth_policy] on the full vector [7] of capacity 1: [EmplaceBack(8)]
    returns and the capacity is 2. And on the full vector [5, 7] of
    capacity 2: [Insert(begin() + 1, 9)] of [vector.h] returns, the capacity
    is 4 and the vector holds [5, 9, 7]. *)
Lemma growth_policy_witness :
  (objs state_one_full !! 0%nat = Some (vector_at 0%nat 1 1) /\
   owns (heap state_one_full) (vector_at 0%nat 1 1) [7] /\
   size_ (vector_at 0%nat 1 1) = capacity_ (data_ (vector_at 0%nat 1 1)) /\
   exists r s',
     Vec.EmplaceBack (Element0 := int_element) (Faults0 := no_faults)
       0%nat (Values 8) state_one_full = Ok r s' /\
     grows_at 0%nat (vector_at 0%nat 1 1) s') /\
  (objs state_two_full !! 0%nat = Some (vector_at 0%nat 2 2) /\
   owns (heap state_two_full) (vector_at 0%nat 2 2) ([5] ++ [7]) /\
   size_ (vector_at 0%nat 2 2) = capacity_ (data_ (vector_at 0%nat 2 2)) /\
   Z.max 1 (2 * capacity_ (data_ (vector_at 0%nat 2 2)))
     * sizeof (Element := int_element) <= PTRDIFF_MAX /\
   (forall tr n, alloc_throws (Faults := no_faults (T := Z)) tr n = false) /\
   [7] ≠ [] /\
   exists r s' v',
     VectorH.Insert (Element0 := int_element) (Faults0 := no_faults) 0%nat
       (ptr_add (RawMem.GetAddress (data_ (vector_at 0%nat 2 2))) 1)
       9 state_two_full = Ok r s' /\
     grows_at 0%nat (vector_at 0%nat 2 2) s' /\
     objs s' !! 0%nat = Some v' /\
     owns (heap s') v' [5; 9; 7]).
Proof.
  split.
  - split; [reflexivity|]. split; [exact owns_one_full|]. split; [reflexivity|].
    destruct (Vec.EmplaceBack (Element0 := int_element) (Faults0 := no_faults)
                0%nat (Values 8) state_one_full) as [r s'| | |] eqn:Hrun;
      [|vm_compute in Hrun; discriminate Hrun..].
    exists r, s'. split; [reflexivity|].
    destruct (proj1 growth_policy Z int_element no_faults state_one_full s' 0%nat
                (vector_at 0%nat 1 1) [7] eq_refl owns_one_full eq_refl) as (Hgrows & _).
    exact (Hgrows (Values 8) r Hrun).
  - assert (Hmax : Z.max 1 (2 * capacity_ (data_ (vector_at 0%nat 2 2)))
                     * sizeof (Element := int_element) <= PTRDIFF_MAX)
      by (unfold PTRDIFF_MAX; simpl; lia).
    assert (Halloc : forall tr n,
              alloc_throws (Faults := no_faults (T := Z)) tr n = false)
      by (intros tr n; reflexivity).
    assert (Hne : [7] ≠ ([] : list Z)) by (intros H; discriminate H).
    split; [reflexivity|]. split; [exact owns_two_full|]. split; [reflexivity|].
    split; [exact Hmax|]. split; [exact Halloc|]. split; [exact Hne|].
    destruct (proj1 (proj2 growth_policy) Z int_element no_faults state_two_full
                0%nat (vector_at 0%nat 2 2) [5] [7] eq_refl owns_two_full eq_refl
                Hmax Halloc no_faults_never_throw) as (_ & _ & _ & _ & _ & Hins).
    exact (Hins (Lvalue 9) _
             (or_introl (or_intror (or_intror (or_introl
                (ex_intro _ 9 (conj eq_refl (or_introl eq_refl)))))))
             (or_introl Hne)).
Defined.

(** [move_exchanges_storage] on the vectors [1] and [2]. *)
Lemma move_exchanges_storage_witness :
  (0 ≠ 1)%nat /\
  objs state_two_vectors !! 0%nat = Some (vector_at 0%nat 1 1) /\
  owns (heap state_two_vectors) (vector_at 0%nat 1 1) [1] /\
  objs state_two_vectors !! 1%nat = Some (vector_at 1%nat 1 1) /\
  owns (heap state_two_vectors) (vector_at 1%nat 1 1) [2] /\
  exists s',
    Vec.move_assign 0%nat 1%nat state_two_vectors = Ok tt s' /\
    objs s' !! 0%nat = Some (vector_at 1%nat 1 1) /\
    objs s' !! 1%nat = Some (vector_at 0%nat 1 1).
Proof.
  assert (Hne : (0 ≠ 1)%nat) by (intros H; discriminate H).
  split; [exact Hne|]. split; [reflexivity|]. split; [exact owns_first_of_two|].
  split; [reflexivity|]. split; [exact owns_second_of_two|].
  destruct (move_exchanges_storage
              state_two_vectors 0%nat 1%nat
              (vector_at 0%nat 1 1) (vector_at 1%nat 1 1) [1] [2]
              Hne eq_refl owns_first_of_two eq_refl owns_second_of_two)
    as ((s' & Hrun & _ & _ & Hthis & _ & Hrhs & _) & _).
  exists s'. split; [exact Hrun|]. split; [exact Hthis|exact Hrhs].
Defined.

(** [RawMemory_move_contract] on two blocks of one and of two slots. *)
Lemma RawMemory_move_contract_witness :
  (0 ≠ 1)%nat /\
  objs state_two_raw !! 0%nat = Some {| buffer_ := Some 0%nat; capacity_ := 1 |} /\
  objs state_two_raw !! 1%nat = Some {| buffer_ := Some 1%nat; capacity_ := 2 |} /\
  exists s',
    Part000.RawMemory_move_assign 0%nat 1%nat state_two_raw = Ok tt s' /\
    objs s' !! 0%nat = Some {| buffer_ := Some 1%nat; capacity_ := 2 |} /\
    objs s' !! 1%nat = Some {| buffer_ := Some 0%nat; capacity_ := 1 |}.
Proof.
  assert (Hne : (0 ≠ 1)%nat) by (intros H; discriminate H).
  split; [exact Hne|]. split; [reflexivity|]. split; [reflexivity|].
  destruct (RawMemory_move_contract state_two_raw 0%nat 1%nat
              {| buffer_ := Some 0%nat; capacity_ := 1 |}
              {| buffer_ := Some 1%nat; capacity_ := 2 |}
              Hne eq_refl eq_refl)
    as (_ & (s' & Hrun & _ & _ & Hthis & Hother) & _).
  exists s'. split; [exact Hrun|]. split; [exact Hthis|exact Hother].
Defined.

(** [VectorH_PopBack_empty_undefined] on a default-constructed vector. *)
Lemma VectorH_PopBack_empty_undefined_witness :
  let s : State Z Vector :=
    {| heap := ∅; objs := {[ 0%nat := empty_vector ]}; trace := [] |} in
  objs s !! 0%nat = Some empty_vector /\
  owns (heap s) empty_vector ([] : list Z) /\
  VectorH.PopBack 0%nat s = Undefined.
Proof.
  cbv zeta. split; [reflexivity|]. split; [apply owns_empty|].
  exact (VectorH_PopBack_empty_undefined
           {| heap := ∅; objs := {[ 0%nat := empty_vector ]}; trace := [] |}
           0%nat empty_vector eq_refl (owns_empty _)).
Defined.

(** [EmplaceBack_failure_contract] on the full vector [7] whose copy
    throws: [EmplaceBack(8)] throws and the vector still holds [7]. *)
Lemma EmplaceBack_failure_contract_witness :
  objs state_one_full !! 0%nat = Some (vector_at 0%nat 1 1) /\
  owns (Element0 := copied_element) (heap state_one_full) (vector_at 0%nat 1 1) [7] /\
  size_ (vector_at 0%nat 1 1) = capacity_ (data_ (vector_at 0%nat 1 1)) /\
  exists s',
    Vec.EmplaceBack (Element0 := copied_element) (Faults0 := copy_of_throws 7)
      0%nat (Values 8) state_one_full = Throw s' /\
    objs s' = objs state_one_full /\
    owns (Element0 := copied_element) (heap s') (vector_at 0%nat 1 1) [7].
Proof.
  split; [reflexivity|]. split; [exact owns_one_full|]. split; [reflexivity|].
  destruct (Vec.EmplaceBack (Element0 := copied_element) (Faults0 := copy_of_throws 7)
              0%nat (Values 8) state_one_full) as [| s' | |] eqn:Hrun;
    [vm_compute in Hrun; discriminate Hrun| |vm_compute in Hrun; discriminate Hrun..].
  exists s'. split; [reflexivity|].
  destruct (EmplaceBack_failure_contract (elem := copied_element)
              (env := copy_of_throws 7)
              state_one_full s' 0%nat (vector_at 0%nat 1 1) [7] (Values 8)
              eq_refl owns_one_full eq_refl Hrun) as (Hobjs & _ & _ & Hcopy).
  split; [exact Hobjs|].
  exact (proj2 (Hcopy (or_introl eq_refl))).
Defined.


(** A vector [5, 7] with room for two more elements, at location 0. *)
Definition state_with_room : State Z Vector :=
  {| heap := {[ 0%nat := [Some 5; Some 7; None; None] ]};
     objs := {[ 0%nat := vector_at 0%nat 4 2 ]};
     trace := [] |}.

Lemma owns_with_room : owns (Element0 := int_element) (heap state_with_room) (vector_at 0%nat 4 2) [5; 7].
Proof.
  owns_by_evaluation.
Defined.

(** [Vector_sized_constructor]: [Vector(2)] in the empty state returns a
    vector of size 2. *)
Lemma Vector_sized_constructor_witness :
  0 <= 2 /\
  2 * sizeof (Element := int_element) < size_mod /\
  exists this s' v,
    Vec.ctor_sized (Element0 := int_element) (Faults0 := no_faults) 2 empty_state
      = Ok this s' /\
    objs s' = <[this := v]> (objs (empty_state : State Z Vector)) /\
    size_ v = 2.
Proof.
  assert (H2 : 0 <= 2) by lia. split; [exact H2|].
  assert (Hfits : 2 * sizeof (Element := int_element) < size_mod)
    by (unfold size_mod; simpl; lia).
  split; [exact Hfits|].
  pose proof (Vector_sized_constructor (elem := int_element) (env := no_faults)
                empty_state 2 H2 Hfits) as H.
  destruct (Vec.ctor_sized (Element0 := int_element) (Faults0 := no_faults)
              2 empty_state) as [this s'| | |] eqn:Hrun;
    [|vm_compute in Hrun; discriminate Hrun..].
  destruct H as (v & _ & Hobjs & Hsize & _).
  exists this, s', v. split; [reflexivity|]. split; [exact Hobjs|exact Hsize].
Defined.

(** [Vector_copy_constructor]: a copy of the vector [5, 7] holds [5, 7]. *)
Lemma Vector_copy_constructor_witness :
  objs state_two_full !! 0%nat = Some (vector_at 0%nat 2 2) /\
  owns (heap state_two_full) (vector_at 0%nat 2 2) [5; 7] /\
  exists this s' v,
    Vec.ctor_copy (Element0 := int_element) (Faults0 := no_faults) 0%nat state_two_full
      = Ok this s' /\
    objs s' = <[this := v]> (objs state_two_full) /\
    owns (heap s') v [5; 7].
Proof.
  split; [reflexivity|]. split; [exact owns_two_full|].
  pose proof (Vector_copy_constructor (elem := int_element) (env := no_faults)
                state_two_full 0%nat (vector_at 0%nat 2 2) [5; 7]
                eq_refl owns_two_full) as H.
  destruct (Vec.ctor_copy (Element0 := int_element) (Faults0 := no_faults)
              0%nat state_two_full) as [this s'| | |] eqn:Hrun;
    [|vm_compute in Hrun; discriminate Hrun..].
  destruct H as (v & _ & Hobjs & _ & _ & Hown & _).
  exists this, s', v. split; [reflexivity|]. split; [exact Hobjs|exact Hown].
Defined.

(** [Vector_destructor] on the vector [5, 7]. *)
Lemma Vector_destructor_witness :
  objs state_two_full !! 0%nat = Some (vector_at 0%nat 2 2) /\
  owns (heap state_two_full) (vector_at 0%nat 2 2) [5; 7] /\
  exists s',
    Vec.dtor 0%nat state_two_full
      = Ok tt s' /\
    trace s' = [EvDestroy 5; EvDestroy 7; EvDeallocate 0%nat []].
Proof.
  split; [reflexivity|]. split; [exact owns_two_full|].
  eexists. split.
  - exact (Vector_destructor
             state_two_full 0%nat (vector_at 0%nat 2 2) [5; 7]
             eq_refl owns_two_full).
  - reflexivity.
Defined.

(** [Vector_lifetime_balanced]: [Vector(2)] and a copy of [5, 7], each
    destroyed again, leave the heap as it was. *)
Lemma Vector_lifetime_balanced_witness :
  0 <= 2 /\
  2 * sizeof (Element := int_element) < size_mod /\
  objs state_two_full !! 0%nat = Some (vector_at 0%nat 2 2) /\
  owns (heap state_two_full) (vector_at 0%nat 2 2) [5; 7] /\
  post ((this ← Vec.ctor_sized (Element0 := int_element) (Faults0 := no_faults) 2;
         Vec.dtor this) state_two_full)
       (fun _ s' => heap s' = heap state_two_full)
       (fun _ => True) /\
  post ((this ← Vec.ctor_copy (Element0 := int_element) (Faults0 := no_faults) 0%nat;
         Vec.dtor this) state_two_full)
       (fun _ s' => heap s' = heap state_two_full)
       (fun _ => True).
Proof.
  assert (H2 : 0 <= 2) by lia. split; [exact H2|].
  assert (Hfits : 2 * sizeof (Element := int_element) < size_mod)
    by (unfold size_mod; simpl; lia).
  split; [exact Hfits|].
  split; [reflexivity|]. split; [exact owns_two_full|].
  destruct (Vector_lifetime_balanced (elem := int_element) (env := no_faults)
              state_two_full 2 0%nat (vector_at 0%nat 2 2) [5; 7]
              H2 Hfits eq_refl owns_two_full) as [H1 H3].
  split.
  - eapply post_mono; [exact H1| |].
    + intros _ s' (Hh & _). exact Hh.
    + intros s' _. exact I.
  - eapply post_mono; [exact H3| |].
    + intros _ s' (Hh & _). exact Hh.
    + intros s' _. exact I.
Defined.

(** [element_access] on the vector [5, 7]. *)
Lemma element_access_witness :
  objs state_two_full !! 0%nat = Some (vector_at 0%nat 2 2) /\
  owns (heap state_two_full) (vector_at 0%nat 2 2) [5; 7] /\
  Vec.subscript 0%nat 2 state_two_full = (Abort : Result Z Vector Ptr) /\
  observe 0%nat state_two_full
    = Ok (2, 2, [5; 7]) state_two_full.
Proof.
  split; [reflexivity|]. split; [exact owns_two_full|].
  destruct (element_access
              state_two_full 0%nat (vector_at 0%nat 2 2) [5; 7]
              eq_refl owns_two_full) as (_ & Hout & _ & Hobs).
  split; [|exact Hobs].
  apply Hout. simpl. lia.
Defined.

(** [Swap_exchanges] on the vectors [1] and [2]. *)
Lemma Swap_exchanges_witness :
  objs state_two_vectors !! 0%nat = Some (vector_at 0%nat 1 1) /\
  objs state_two_vectors !! 1%nat = Some (vector_at 1%nat 1 1) /\
  exists s',
    Vec.Swap 0%nat 1%nat state_two_vectors = Ok tt s' /\
    objs s' !! 0%nat = Some (vector_at 1%nat 1 1) /\
    Vec.Swap 0%nat 1%nat s' = Ok tt state_two_vectors.
Proof.
  split; [reflexivity|]. split; [reflexivity|].
  destruct (Swap_exchanges state_two_vectors 0%nat 1%nat
              (vector_at 0%nat 1 1) (vector_at 1%nat 1 1) eq_refl eq_refl)
    as ((s' & Hrun & _ & _ & Hthis & _ & _ & Hback) & _).
  exists s'. split; [exact Hrun|]. split; [exact Hthis|exact Hback].
Defined.

(** [EmplaceBack_appends]: on the full vector [7], [EmplaceBack(8)]
    returns. *)
Lemma EmplaceBack_appends_witness :
  objs state_one_full !! 0%nat = Some (vector_at 0%nat 1 1) /\
  owns (heap state_one_full) (vector_at 0%nat 1 1) [7] /\
  exists r s',
    Vec.EmplaceBack (Element0 := int_element) (Faults0 := no_faults)
      0%nat (Values 8) state_one_full = Ok r s'.
Proof.
  split; [reflexivity|]. split; [exact owns_one_full|].
  destruct (EmplaceBack_appends (elem := int_element) (env := no_faults)
              state_one_full 0%nat (vector_at 0%nat 1 1) [7] (Values 8)
              eq_refl owns_one_full) as [_ Hreturns].
  apply Hreturns.
  - unfold PTRDIFF_MAX. simpl. lia.
  - intros tr n. reflexivity.
  - exact no_faults_never_throw.
Defined.

(** [EmplaceBack_with_spare_capacity]: on [5, 7] of capacity 4,
    [EmplaceBack(9)] runs one constructor and nothing else. *)
Lemma EmplaceBack_with_spare_capacity_witness :
  objs state_with_room !! 0%nat = Some (vector_at 0%nat 4 2) /\
  owns (heap state_with_room) (vector_at 0%nat 4 2) [5; 7] /\
  size_ (vector_at 0%nat 4 2) < capacity_ (data_ (vector_at 0%nat 4 2)) /\
  exists r s',
    Vec.EmplaceBack (Element0 := int_element) (Faults0 := no_faults)
      0%nat (Values 9) state_with_room = Ok r s' /\
    trace s' = [EvConstruct (OpArgsCtor 9) 9].
Proof.
  assert (Hroom : size_ (vector_at 0%nat 4 2) < capacity_ (data_ (vector_at 0%nat 4 2)))
    by (simpl; lia).
  split; [reflexivity|]. split; [exact owns_with_room|]. split; [exact Hroom|].
  eexists _, _. split.
  - exact (EmplaceBack_with_spare_capacity (elem := int_element) (env := no_faults)
             state_with_room 0%nat (vector_at 0%nat 4 2) [5; 7] (Values 9)
             eq_refl owns_with_room Hroom).
  - reflexivity.
Defined.

(** [PopBack_removes_last] on the vector [5, 7]. *)
Lemma PopBack_removes_last_witness :
  objs state_two_full !! 0%nat = Some (vector_at 0%nat 2 2) /\
  owns (heap state_two_full) (vector_at 0%nat 2 2) ([5] ++ [7]) /\
  exists s',
    VectorH.PopBack 0%nat state_two_full = Ok tt s' /\
    Part000.PopBack 0%nat state_two_full = Ok tt s' /\
    trace s' = [EvDestroy 7].
Proof.
  split; [reflexivity|]. split; [exact owns_two_full|].
  destruct (PopBack_removes_last state_two_full 0%nat (vector_at 0%nat 2 2) [5] 7
              eq_refl owns_two_full) as (s' & HV & HP & _ & _ & Ht).
  exists s'. split; [exact HV|]. split; [exact HP|exact Ht].
Defined.

(** [EmplaceBack_PopBack_round_trip] on the full vector [7]. *)
Lemma EmplaceBack_PopBack_round_trip_witness :
  objs state_one_full !! 0%nat = Some (vector_at 0%nat 1 1) /\
  owns (heap state_one_full) (vector_at 0%nat 1 1) [7] /\
  post ((Vec.EmplaceBack (Element0 := int_element) (Faults0 := no_faults)
           0%nat (Values 8);;
         VectorH.PopBack 0%nat) state_one_full)
       (fun _ s' => exists v', owns (heap s') v' [7])
       (fun _ => True).
Proof.
  split; [reflexivity|]. split; [exact owns_one_full|].
  pose proof (EmplaceBack_PopBack_round_trip (elem := int_element) (env := no_faults)
             state_one_full 0%nat (vector_at 0%nat 1 1) [7] (Values 8)
             VectorH.PopBack (or_introl eq_refl) eq_refl owns_one_full) as H.
  cbv zeta in H.
  eapply post_mono; [exact H| |].
  - intros _ s' (v' & _ & Hown & _). exists v'. exact Hown.
  - intros s' _. exact I.
Defined.



(** [Erase_removes_element]: erasing the [7] of [5, 7]. *)
Lemma Erase_removes_element_witness :
  objs state_two_full !! 0%nat = Some (vector_at 0%nat 2 2) /\
  owns (heap state_two_full) (vector_at 0%nat 2 2) ([5] ++ 7 :: []) /\
  post (VectorH.Erase (Element0 := int_element) (Faults0 := no_faults) 0%nat
          (ptr_add (RawMem.GetAddress (data_ (vector_at 0%nat 2 2)))
                   (Z.of_nat (length [5])))
          state_two_full)
       (fun _ s' => owns (heap s') (vector_at 0%nat 2 1) [5])
       (fun _ => True).
Proof.
  split; [reflexivity|]. split; [exact owns_two_full|].
  pose proof (Erase_removes_element (elem := int_element) (env := no_faults)
             state_two_full 0%nat (vector_at 0%nat 2 2) [5] 7 []
             VectorH.Erase (or_introl eq_refl) eq_refl owns_two_full) as H.
  cbv zeta in H.
  eapply post_mono; [exact H| |].
  - intros _ s' (_ & _ & Hown & _). exact Hown.
  - intros s' _. exact I.
Defined.

(** [Part000_position_asserted]: [end()] of the vector [5, 7]. *)
Lemma Part000_position_asserted_witness :
  let pos := {| p_base := Some 0%nat; p_off := 2 |} in
  objs state_two_full !! 0%nat = Some (vector_at 0%nat 2 2) /\
  p_base pos = buffer_ (data_ (vector_at 0%nat 2 2)) /\
  ~ (0 <= p_off pos < size_ (vector_at 0%nat 2 2)) /\
  Part000.Insert (Element0 := int_element) (Faults0 := no_faults)
    0%nat pos 9 state_two_full = Abort /\
  Part000.Erase (Element0 := int_element) (Faults0 := no_faults)
    0%nat pos state_two_full = Abort.
Proof.
  cbv zeta.
  assert (Hout : ~ (0 <= p_off {| p_base := Some 0%nat; p_off := 2 |}
                      < size_ (vector_at 0%nat 2 2))) by (simpl; lia).
  split; [reflexivity|]. split; [reflexivity|]. split; [exact Hout|].
  destruct (Part000_position_asserted (elem := int_element) (env := no_faults)
              state_two_full 0%nat (vector_at 0%nat 2 2)
              {| p_base := Some 0%nat; p_off := 2 |} (Values 9) 9
              eq_refl eq_refl Hout) as (_ & HI & _ & HE).
  split; [exact HI|exact HE].
Defined.

(** [VectorH_Erase_end_undefined] on the vector [5, 7]. *)
Lemma VectorH_Erase_end_undefined_witness :
  objs state_two_full !! 0%nat = Some (vector_at 0%nat 2 2) /\
  owns (heap state_two_full) (vector_at 0%nat 2 2) [5; 7] /\
  (last ← Vec.end_ 0%nat;
   VectorH.Erase (Element0 := int_element) (Faults0 := no_faults) 0%nat last)
    state_two_full = Undefined.
Proof.
  split; [reflexivity|]. split; [exact owns_two_full|].
  exact (VectorH_Erase_end_undefined (elem := int_element) (env := no_faults)
           state_two_full 0%nat (vector_at 0%nat 2 2) [5; 7]
           eq_refl owns_two_full).
Defined.

(** [Emplace_in_place_inserts]: [9] before the [7] of [5, 7], capacity 4. *)
Lemma Emplace_in_place_inserts_witness :
  objs state_with_room !! 0%nat = Some (vector_at 0%nat 4 2) /\
  owns (heap state_with_room) (vector_at 0%nat 4 2) ([5] ++ [] ++ [7]) /\
  size_ (vector_at 0%nat 4 2) < capacity_ (data_ (vector_at 0%nat 4 2)) /\
  post (VectorH.Emplace (Element0 := int_element) (Faults0 := no_faults) 0%nat
          (ptr_add (RawMem.GetAddress (data_ (vector_at 0%nat 4 2)))
                   (Z.of_nat (length [5])))
          (Values 9) state_with_room)
       (fun _ s' => owns (heap s') (vector_at 0%nat 4 3) [5; 9; 7])
       (fun _ => True).
Proof.
  assert (Hroom : size_ (vector_at 0%nat 4 2) < capacity_ (data_ (vector_at 0%nat 4 2)))
    by (simpl; lia).
  split; [reflexivity|]. split; [exact owns_with_room|]. split; [exact Hroom|].
  pose proof (Emplace_in_place_inserts (elem := int_element) (env := no_faults)
             state_with_room 0%nat (vector_at 0%nat 4 2) [5] [] 7 (Values 9) _
             eq_refl owns_with_room Hroom (or_introl (or_introl eq_refl))) as H.
  cbv zeta in H.
  eapply post_mono; [exact H| |].
  - intros _ s' (_ & _ & Hown & _). exact Hown.
  - intros s' _. exact I.
Defined.

(** [Emplace_growth_inserts]: [9] before the [7] of the full vector
    [5, 7]. *)
Lemma Emplace_growth_inserts_witness :
  objs state_two_full !! 0%nat = Some (vector_at 0%nat 2 2) /\
  owns (heap state_two_full) (vector_at 0%nat 2 2) ([5] ++ [7]) /\
  size_ (vector_at 0%nat 2 2) = capacity_ (data_ (vector_at 0%nat 2 2)) /\
  post (VectorH.Emplace (Element0 := int_element) (Faults0 := no_faults) 0%nat
          (ptr_add (RawMem.GetAddress (data_ (vector_at 0%nat 2 2)))
                   (Z.of_nat (length [5])))
          (Values 9) state_two_full)
       (fun _ s' => exists a', owns (heap s') (vector_at a' 4 3) [5; 9; 7])
       (fun _ => True).
Proof.
  split; [reflexivity|]. split; [exact owns_two_full|]. split; [reflexivity|].
  pose proof (Emplace_growth_inserts (elem := int_element) (env := no_faults)
             state_two_full 0%nat (vector_at 0%nat 2 2) [5] [7] (Values 9) _
             eq_refl owns_two_full eq_refl (or_introl eq_refl)
             (or_intror eq_refl)) as H.
  cbv zeta in H.
  eapply post_mono; [exact H| |].
  - intros _ s' (a' & _ & _ & _ & Hown & _). exists a'. exact Hown.
  - intros s' _. exact I.
Defined.

(** [Emplace_then_Erase_restores]: [9] before the [7] of [5, 7], and out
    again. *)
Lemma Emplace_then_Erase_restores_witness :
  objs state_two_full !! 0%nat = Some (vector_at 0%nat 2 2) /\
  owns (heap state_two_full) (vector_at 0%nat 2 2) ([5] ++ 7 :: []) /\
  post ((p ← VectorH.Emplace (Element0 := int_element) (Faults0 := no_faults) 0%nat
               (ptr_add (RawMem.GetAddress (data_ (vector_at 0%nat 2 2)))
                        (Z.of_nat (length [5])))
               (Values 9);
         VectorH.Erase (Element0 := int_element) (Faults0 := no_faults) 0%nat p)
          state_two_full)
       (fun _ s' => exists v', owns (heap s') v' [5; 7])
       (fun _ => True).
Proof.
  split; [reflexivity|]. split; [exact owns_two_full|].
  pose proof (Emplace_then_Erase_restores (elem := int_element) (env := no_faults)
             state_two_full 0%nat (vector_at 0%nat 2 2) [5] 7 [] (Values 9)
             VectorH.Emplace VectorH.Erase
             (or_introl (conj eq_refl eq_refl)) eq_refl owns_two_full) as H.
  cbv zeta in H.
  eapply post_mono; [exact H| |].
  - intros _ s' (v' & _ & Hown & _). exists v'. exact Hown.
  - intros s' _. exact I.
Defined.

(** [VectorH_insert_at_end_with_room]: [Insert(end(), 9)] on [5, 7] of
    capacity 4 is undefined. *)
Lemma VectorH_insert_at_end_with_room_witness :
  objs state_with_room !! 0%nat = Some (vector_at 0%nat 4 2) /\
  owns (heap state_with_room) (vector_at 0%nat 4 2) [5; 7] /\
  size_ (vector_at 0%nat 4 2) < capacity_ (data_ (vector_at 0%nat 4 2)) /\
  VectorH.Insert (Element0 := int_element) (Faults0 := no_faults) 0%nat
    (ptr_add (RawMem.GetAddress (data_ (vector_at 0%nat 4 2)))
             (size_ (vector_at 0%nat 4 2)))
    9 state_with_room = Undefined.
Proof.
  assert (Hroom : size_ (vector_at 0%nat 4 2) < capacity_ (data_ (vector_at 0%nat 4 2)))
    by (simpl; lia).
  split; [reflexivity|]. split; [exact owns_with_room|]. split; [exact Hroom|].
  exact (proj2 (proj2 (VectorH_insert_at_end_with_room
                  (elem := int_element) (env := no_faults)
                  state_with_room 0%nat (vector_at 0%nat 4 2) [5; 7] (Lvalue 9) _
                  eq_refl owns_with_room Hroom
                  (or_intror (or_introl (ex_intro _ 9 (conj eq_refl eq_refl))))))
               no_faults_never_throw).
Defined.
